(** * Inkwell: the word-level diff / merge engine

    A shallow embedding of the diff engine of the Inkwell editor
    ([lib/diff.js], [lib/diffMarkers.js], [lib/diffState.js] and the
    resolution functions of [renderer.js]) together with the properties
    the engine is expected to satisfy.

    JavaScript strings are sequences of UTF-16 code units; they are
    modelled as lists of code units ([list N]).  JavaScript objects with
    a fixed shape are records; objects that are handled as open property
    bags are finite maps from property names to values. *)

From Stdlib Require Import NArith ZArith Lia List Bool Ascii String.
From Stdlib Require Import DecimalString DecimalN DecimalPos.
From stdpp Require Import gmap strings list.

Local Open Scope N_scope.

(* ================================================================== *)
(** * Part I: the model                                                *)
(* ================================================================== *)

(** ** JavaScript strings *)

Abbreviation jsstring := (list N).

(** An ASCII literal as a JavaScript string. *)
Definition str (s : string) : jsstring :=
  map N_of_ascii (list_ascii_of_string s).

(** [String(n)] / template interpolation of a non-negative integer below
    [2^53] (a safe integer, which JavaScript prints digit by digit): its
    decimal expansion without leading zeros. *)
Definition ToString (n : N) : jsstring :=
  str (NilEmpty.string_of_uint (N.to_uint n)).

(** The class [\d] of a regular expression. *)
Definition is_digit (c : N) : bool := (48 <=? c) && (c <=? 57).

(** The class [\s] of a regular expression (ECMAScript WhiteSpace and
    LineTerminator code units). *)
Definition is_space (c : N) : bool :=
  ((9 <=? c) && (c <=? 13)) || (c =? 32) || (c =? 160) || (c =? 5760)
  || ((8192 <=? c) && (c <=? 8202)) || (c =? 8232) || (c =? 8233)
  || (c =? 8239) || (c =? 8287) || (c =? 12288) || (c =? 65279).

(** [s.startsWith(p)] *)
Fixpoint startsWith (p s : jsstring) : bool :=
  match p, s with
  | [], _ => true
  | a :: p', b :: s' => (a =? b) && startsWith p' s'
  | _ :: _, [] => false
  end.

(** [s.indexOf(p)], counted from position [i]; [None] stands for [-1]. *)
Fixpoint indexOf_from (i : nat) (p s : jsstring) : option nat :=
  if startsWith p s then Some i
  else match s with
       | [] => None
       | _ :: s' => indexOf_from (S i) p s'
       end.

Definition indexOf (s p : jsstring) : option nat := indexOf_from 0 p s.

(** [s.substring(i, j)] and [s.substring(i)] for in-range indices. *)
Definition substring (s : jsstring) (i j : nat) : jsstring :=
  take (j - i) (drop i s).
Definition substring_from (s : jsstring) (i : nat) : jsstring := drop i s.

(** ** Diff parts and change units *)

(** The operation codes of diff-match-patch: [-1], [0], [1]. *)
Inductive Op := Delete | Equal | Insert.

#[global] Instance Op_eq_dec : EqDecision Op.
Proof. solve_decision. Defined.

Module Part.
Record t := mk { type : Op; text : jsstring }.
End Part.

(** The [type] of a change unit: ['equal'] or ['change']. *)
Inductive UnitType := equal | change.

#[global] Instance UnitType_eq_dec : EqDecision UnitType.
Proof. solve_decision. Defined.

Module Change.
(** [id] is [null] ([None]) for equal units.  The three flags are absent
    on a freshly grouped unit (read as falsy) and only ever set to
    [true]. *)
Record t := mk {
  id : option N;
  type : UnitType;
  parts : list Part.t;
  resolved : bool;
  accepted : bool;
  rejected : bool
}.
Definition fresh (i : option N) (ty : UnitType) (ps : list Part.t) : t :=
  mk i ty ps false false false.
End Change.

(** ** lib/diff.js: groupDiffsIntoChanges *)

(** The [while (i < diffs.length)] loop; the remaining suffix of [diffs]
    plays the role of the index [i] and [changeId] is the running id. *)
Fixpoint groupDiffs_loop (changeId : N) (diffs : list Part.t) : list Change.t :=
  match diffs with
  | [] => []
  | diff :: rest =>
      match Part.type diff with
      | Equal =>
          Change.fresh None equal [diff] :: groupDiffs_loop changeId rest
      | Delete =>
          match rest with
          | next :: rest' =>
              match Part.type next with
              | Insert =>
                  Change.fresh (Some changeId) change [diff; next]
                    :: groupDiffs_loop (changeId + 1) rest'
              | _ =>
                  Change.fresh (Some changeId) change [diff]
                    :: groupDiffs_loop (changeId + 1) rest
              end
          | [] => [Change.fresh (Some changeId) change [diff]]
          end
      | Insert =>
          Change.fresh (Some changeId) change [diff]
            :: groupDiffs_loop (changeId + 1) rest
      end
  end.

Definition groupDiffsIntoChanges (diffs : list Part.t) : list Change.t :=
  groupDiffs_loop 0 diffs.

(** The non-null ids of a unit list, in document order. *)
Definition change_ids (units : list Change.t) : list N :=
  omap Change.id units.

Definition is_change (c : Change.t) : bool :=
  if decide (Change.type c = change) then true else false.

(** [changes.filter(c => c.type === 'change').length] *)
Definition changeCount (units : list Change.t) : nat :=
  length (filter (fun c => is_change c = true) units).

(** The ids [start, start+1, ..., start+n-1]. *)
Fixpoint ids_from (start : N) (n : nat) : list N :=
  match n with
  | O => []
  | S n' => start :: ids_from (start + 1) n'
  end.

(** ** lib/diff.js: computeWordDiff *)

(** [text.match(/\S+|\s+/g) || []]: the scanner keeps the class [sp] of
    the run being read and the run [cur] read so far; a code unit of the
    other class closes the run. *)
Fixpoint scan_runs (sp : bool) (cur : jsstring) (text : jsstring) : list jsstring :=
  match text with
  | [] => [cur]
  | c :: rest =>
      if Bool.eqb (is_space c) sp then scan_runs sp (cur ++ [c]) rest
      else cur :: scan_runs (is_space c) [c] rest
  end.

Definition tokenize (text : jsstring) : list jsstring :=
  match text with
  | [] => []
  | c :: rest => scan_runs (is_space c) [c] rest
  end.

(** A JavaScript [Map] with string keys: entries in insertion order,
    keys unique.  [set] overwrites in place or appends; [forEach] visits
    the list from left to right. *)
Module JsMap.
Fixpoint get (m : list (jsstring * jsstring)) (k : jsstring) : option jsstring :=
  match m with
  | [] => None
  | (k', v) :: m' => if decide (k' = k) then Some v else get m' k
  end.
Definition has (m : list (jsstring * jsstring)) (k : jsstring) : bool :=
  match get m k with Some _ => true | None => false end.
Fixpoint set (m : list (jsstring * jsstring)) (k v : jsstring)
  : list (jsstring * jsstring) :=
  match m with
  | [] => [(k, v)]
  | (k', v') :: m' =>
      if decide (k' = k) then (k', v) :: m' else (k', v') :: set m' k v
  end.
End JsMap.

(** [String.fromCharCode(n)]: one code unit, [n] truncated to 16 bits. *)
Definition fromCharCode (n : N) : jsstring := [n mod 65536].

(** The closure state of [getWordChar]: [wordMap] and [charCode]. *)
Record coder := mkCoder {
  wordMap : list (jsstring * jsstring);
  charCode : N
}.

Definition coder_init : coder := mkCoder [] 256.

(** [getWordChar(word)]; an absent entry reads as [undefined], which
    [join('')] renders as the empty string. *)
Definition getWordChar (st : coder) (word : jsstring) : coder * jsstring :=
  let st' :=
    if JsMap.has (wordMap st) word then st
    else mkCoder (JsMap.set (wordMap st) word (fromCharCode (charCode st)))
                 (charCode st + 1) in
  (st', default [] (JsMap.get (wordMap st') word)).

(** [tokens.map(getWordChar).join('')], threading the closure state. *)
Fixpoint encodeTokens (st : coder) (tokens : list jsstring) : coder * jsstring :=
  match tokens with
  | [] => (st, [])
  | word :: rest =>
      let '(st1, ch) := getWordChar st word in
      let '(st2, chars) := encodeTokens st1 rest in
      (st2, ch ++ chars)
  end.

(** [wordMap.forEach((char, word) => reverseMap.set(char, word))] *)
Definition buildReverseMap (wm : list (jsstring * jsstring))
  : list (jsstring * jsstring) :=
  fold_left (fun rm '(word, char) => JsMap.set rm char word) wm [].

(** Surrogate code units. *)
Definition is_high_surrogate (c : N) : bool := (55296 <=? c) && (c <=? 56319).
Definition is_low_surrogate (c : N) : bool := (56320 <=? c) && (c <=? 57343).

(** [for (const char of chars)]: the string iterator yields code points;
    a high surrogate directly followed by a low surrogate is one item of
    two code units, every other code unit is an item of its own. *)
Fixpoint codePoints (chars : jsstring) : list jsstring :=
  match chars with
  | [] => []
  | c :: rest =>
      match rest with
      | d :: rest' =>
          if is_high_surrogate c && is_low_surrogate d
          then [c; d] :: codePoints rest'
          else [c] :: codePoints rest
      | [] => [[c]]
      end
  end.

(** The loop that expands the coded diff into one part per token. *)
Definition expandDiffs (reverseMap : list (jsstring * jsstring))
    (charDiffs : list (Op * jsstring)) : list Part.t :=
  flat_map (fun '(op, chars) =>
      flat_map (fun char =>
          match JsMap.get reverseMap char with
          | Some word => [Part.mk op word]
          | None => []
          end) (codePoints chars))
    charDiffs.

(** Apply [f] to the last element of a list. *)
Fixpoint update_last {A} (f : A -> A) (l : list A) : list A :=
  match l with
  | [] => []
  | [x] => [f x]
  | x :: l' => x :: update_last f l'
  end.

(** One iteration of the merging loop. *)
Definition merge_step (merged : list Part.t) (item : Part.t) : list Part.t :=
  match last merged with
  | Some l =>
      if decide (Part.type l = Part.type item)
      then update_last (fun l => Part.mk (Part.type l) (Part.text l ++ Part.text item)) merged
      else merged ++ [item]
  | None => merged ++ [item]
  end.

Definition mergeParts (result : list Part.t) : list Part.t :=
  fold_left merge_step result [].

(** The two entry points of the diff-match-patch library used by
    [computeWordDiff].  The library is an external dependency; its
    behaviour enters the development through [DiffMatchPatchSpec]. *)
Class DiffMatchPatch := {
  diff_main : jsstring -> jsstring -> list (Op * jsstring);
  diff_cleanupSemantic : list (Op * jsstring) -> list (Op * jsstring)
}.

(** [diff_text1] and [diff_text2] of the library: the source and the
    destination text of a diff. *)
Definition diff_text1 (diffs : list (Op * jsstring)) : jsstring :=
  flat_map (fun '(op, chars) =>
    match op with Insert => [] | _ => chars end) diffs.
Definition diff_text2 (diffs : list (Op * jsstring)) : jsstring :=
  flat_map (fun '(op, chars) =>
    match op with Delete => [] | _ => chars end) diffs.

(** The documented contract of the library: a diff of [(a, b)]
    reconstructs [a] and [b], semantic cleanup keeps both texts, equal
    inputs give one equality and an empty side gives one insertion or
    deletion, and cleanup leaves a diff of at most one entry alone. *)
Class DiffMatchPatchSpec (dmp : DiffMatchPatch) := {
  diff_main_text1 : forall a b, diff_text1 (diff_main a b) = a;
  diff_main_text2 : forall a b, diff_text2 (diff_main a b) = b;
  diff_cleanup_text1 : forall d,
    diff_text1 (diff_cleanupSemantic d) = diff_text1 d;
  diff_cleanup_text2 : forall d,
    diff_text2 (diff_cleanupSemantic d) = diff_text2 d;
  diff_main_same : forall a,
    diff_main a a = match a with [] => [] | _ => [(Equal, a)] end;
  diff_main_empty_r : forall a, a <> [] -> diff_main a [] = [(Delete, a)];
  diff_main_empty_l : forall b, b <> [] -> diff_main [] b = [(Insert, b)];
  diff_cleanup_nil : diff_cleanupSemantic [] = [];
  diff_cleanup_single : forall d, diff_cleanupSemantic [d] = [d]
}.

Section WordDiff.
Context {dmp : DiffMatchPatch}.

(** The coder after both token lists have been mapped, and the two coded
    strings. *)
Definition encodeBoth (original proposed : jsstring)
  : coder * jsstring * jsstring :=
  let '(st1, originalChars) := encodeTokens coder_init (tokenize original) in
  let '(st2, proposedChars) := encodeTokens st1 (tokenize proposed) in
  (st2, originalChars, proposedChars).

Definition computeWordDiff (original proposed : jsstring) : list Part.t :=
  let '(st, originalChars, proposedChars) := encodeBoth original proposed in
  let charDiffs := diff_cleanupSemantic (diff_main originalChars proposedChars) in
  let reverseMap := buildReverseMap (wordMap st) in
  mergeParts (expandDiffs reverseMap charDiffs).

End WordDiff.

(** A small instance of the library interface.  Like the library it
    returns nothing for two empty texts and one equality for equal
    texts, and otherwise splits off the common prefix and the common
    suffix; what is left of the two texts is one deletion and one
    insertion (the library's answer for a middle without common part). *)
Fixpoint common_prefix (a b : jsstring) : jsstring * jsstring * jsstring :=
  match a, b with
  | x :: a', y :: b' =>
      if x =? y then
        let '(pre, ra, rb) := common_prefix a' b' in (x :: pre, ra, rb)
      else ([], a, b)
  | _, _ => ([], a, b)
  end.

Definition common_suffix (a b : jsstring) : jsstring * jsstring * jsstring :=
  let '(suf, ra, rb) := common_prefix (rev a) (rev b) in
  (rev suf, rev ra, rev rb).

Definition diff_entry (op : Op) (chars : jsstring) : list (Op * jsstring) :=
  match chars with
  | [] => []
  | _ :: _ => [(op, chars)]
  end.

Definition simple_diff_main (a b : jsstring) : list (Op * jsstring) :=
  if decide (a = b) then diff_entry Equal a
  else
    let '(pre, a1, b1) := common_prefix a b in
    let '(suf, a2, b2) := common_suffix a1 b1 in
    diff_entry Equal pre ++ diff_entry Delete a2 ++ diff_entry Insert b2
      ++ diff_entry Equal suf.

#[global] Instance simple_dmp : DiffMatchPatch :=
  {| diff_main := simple_diff_main; diff_cleanupSemantic := fun d => d |}.

(** The text of the parts whose type satisfies [keep]. *)
Definition parts_text (keep : Op -> bool) (ps : list Part.t) : jsstring :=
  flat_map (fun p => if keep (Part.type p) then Part.text p else []) ps.

(** Delete + Equal: the original side; Insert + Equal: the proposed side. *)
Definition original_side (op : Op) : bool :=
  match op with Insert => false | _ => true end.
Definition proposed_side (op : Op) : bool :=
  match op with Delete => false | _ => true end.

(** *** Reading the coder

    The word map reached from the empty map lists the distinct tokens in
    the order in which they were first seen, the [i]-th of them (from 0)
    paired with [String.fromCharCode(0x100 + i)]. *)

Fixpoint assign_codes (c : N) (keys : list jsstring) : list (jsstring * jsstring) :=
  match keys with
  | [] => []
  | k :: ks => (k, fromCharCode c) :: assign_codes (c + 1) ks
  end.

(** The distinct tokens, in order of first occurrence, after [tokens]
    have been scanned on top of the already known [keys]. *)
Definition first_seen (keys tokens : list jsstring) : list jsstring :=
  fold_left (fun ks t => if decide (t ∈ ks) then ks else ks ++ [t]) tokens keys.

(** The distinct tokens of the original followed by the new ones of the
    proposed text. *)
Definition distinct_tokens (original proposed : jsstring) : list jsstring :=
  first_seen (first_seen [] (tokenize original)) (tokenize proposed).

(** The code of a token in a word map ([wordMap.get(word)]). *)
Definition code_of (wm : list (jsstring * jsstring)) (word : jsstring) : jsstring :=
  default [] (JsMap.get wm word).

Definition coder_ok (st : coder) (keys : list jsstring) : Prop :=
  NoDup keys /\ wordMap st = assign_codes 256 keys
  /\ charCode st = 256 + N.of_nat (length keys).

(** Reading a coded string back one code unit at a time. *)
Definition decode_units (rm : list (jsstring * jsstring)) (chars : jsstring) : jsstring :=
  flat_map (fun c => code_of rm [c]) chars.

(** *** A document with many distinct words *)

(** [words.join(' ')] *)
Definition join_words (ws : list jsstring) : jsstring :=
  match ws with
  | [] => []
  | w :: ws' => w ++ flat_map (fun w' => 32 :: w') ws'
  end.

(** The decimal numbers [0], [1], ..., [n]. *)
Definition number_words (n : nat) : list jsstring :=
  (fun i => ToString (N.of_nat i)) <$> seq 0 (S n).

(** The text ["0 1 2 ... n"]:
    [Array.from({length: n + 1}, (_, i) => i).join(' ')]. *)
Definition numbers_doc (n : N) : jsstring :=
  join_words (number_words (N.to_nat n)).

(** ** lib/diffMarkers.js *)

(** The four regular expressions of the file have one shape,
    [open(\d+)mid([\s\S]*?)close], and are used with a replacement of
    the shape [t_open$1t_mid$2t_close]. *)
Record marker_rule := mkRule {
  r_open : jsstring;
  r_mid : jsstring;
  r_close : jsstring;
  t_open : jsstring;
  t_mid : jsstring;
  t_close : jsstring
}.

(** Match a literal at the head of [s]; the rest of [s] on success. *)
Fixpoint strip_prefix (p s : jsstring) : option jsstring :=
  match p, s with
  | [], _ => Some s
  | a :: p', b :: s' => if a =? b then strip_prefix p' s' else None
  | _ :: _, [] => None
  end.

(** Greedy [\d*]: the longest run of digits and what follows it. *)
Fixpoint take_digits (s : jsstring) : jsstring * jsstring :=
  match s with
  | c :: s' =>
      if is_digit c then let '(ds, rest) := take_digits s' in (c :: ds, rest)
      else ([], s)
  | [] => ([], [])
  end.

(** Lazy [[\s\S]*?] followed by the literal [close]: the text before the
    first occurrence of [close], and the text after that occurrence. *)
Fixpoint split_at_first (close s : jsstring) : option (jsstring * jsstring) :=
  match strip_prefix close s with
  | Some rest => Some ([], rest)
  | None =>
      match s with
      | [] => None
      | c :: s' =>
          match split_at_first close s' with
          | Some (content, rest) => Some (c :: content, rest)
          | None => None
          end
      end
  end.

(** One match attempt at the head of [s]: the two captures and the text
    after the match.  [(\d+)] is greedy; in all four expressions [mid]
    begins with a code unit that is no digit, so giving back digits can
    never make [mid] match and the longest digit run is the only
    candidate. *)
Definition match_at (r : marker_rule) (s : jsstring)
  : option (jsstring * jsstring * jsstring) :=
  match strip_prefix (r_open r) s with
  | None => None
  | Some s1 =>
      let '(ds, s2) := take_digits s1 in
      match ds with
      | [] => None
      | _ :: _ =>
          match strip_prefix (r_mid r) s2 with
          | None => None
          | Some s3 =>
              match split_at_first (r_close r) s3 with
              | Some (content, rest) => Some (ds, content, rest)
              | None => None
              end
          end
      end
  end.

(** [s.replace(/.../g, '...')]: scan from the left; a match is replaced
    and the scan resumes after it, a position without match is copied.
    Every match is non-empty, so [fuel] above the length of [s] is never
    exhausted. *)
Fixpoint replace_fuel (fuel : nat) (r : marker_rule) (s : jsstring) : jsstring :=
  match fuel with
  | O => s
  | S fuel' =>
      match match_at r s with
      | Some (ds, content, rest) =>
          t_open r ++ ds ++ t_mid r ++ content ++ t_close r
            ++ replace_fuel fuel' r rest
      | None =>
          match s with
          | [] => []
          | c :: s' => c :: replace_fuel fuel' r s'
          end
      end
  end.

Definition replace_all (r : marker_rule) (s : jsstring) : jsstring :=
  replace_fuel (S (length s)) r s.

Definition NUL : N := 0.
Definition QUOTE : N := 34.

(** [/\x00DEL(\d+)\x00([\s\S]*?)\x00\/DEL\x00/g] with
    ['<diffdelete data-id="$1">$2</diffdelete>'] *)
Definition del_marker : marker_rule :=
  mkRule (NUL :: str "DEL") [NUL] (NUL :: str "/DEL" ++ [NUL])
         (str "<diffdelete data-id=" ++ [QUOTE]) (QUOTE :: str ">")
         (str "</diffdelete>").

(** [/\x00INS(\d+)\x00([\s\S]*?)\x00\/INS\x00/g] with
    ['<diffinsert data-id="$1">$2</diffinsert>'] *)
Definition ins_marker : marker_rule :=
  mkRule (NUL :: str "INS") [NUL] (NUL :: str "/INS" ++ [NUL])
         (str "<diffinsert data-id=" ++ [QUOTE]) (QUOTE :: str ">")
         (str "</diffinsert>").

(** [/<diffdelete data-id="(\d+)">([\s\S]*?)<\/diffdelete>/g] with
    ['<span class="diff-delete" data-change-id="$1">$2</span>'] *)
Definition del_tag : marker_rule :=
  mkRule (str "<diffdelete data-id=" ++ [QUOTE]) (QUOTE :: str ">")
         (str "</diffdelete>")
         (str "<span class=" ++ [QUOTE] ++ str "diff-delete" ++ [QUOTE]
            ++ str " data-change-id=" ++ [QUOTE])
         (QUOTE :: str ">") (str "</span>").

(** [/<diffinsert data-id="(\d+)">([\s\S]*?)<\/diffinsert>/g] with
    ['<span class="diff-insert" data-change-id="$1">$2</span>'] *)
Definition ins_tag : marker_rule :=
  mkRule (str "<diffinsert data-id=" ++ [QUOTE]) (QUOTE :: str ">")
         (str "</diffinsert>")
         (str "<span class=" ++ [QUOTE] ++ str "diff-insert" ++ [QUOTE]
            ++ str " data-change-id=" ++ [QUOTE])
         (QUOTE :: str ">") (str "</span>").

Definition markersToPlaceholders (text : jsstring) : jsstring :=
  replace_all ins_marker (replace_all del_marker text).

Definition placeholdersToSpans (html : jsstring) : jsstring :=
  replace_all ins_tag (replace_all del_tag html).

(** [`${changeId}`]: the decimal digits of a safe integer, the text
    [null] for [null]. *)
Definition show_id (i : option N) : jsstring :=
  match i with
  | Some n => ToString n
  | None => str "null"
  end.

(** What one part of a change unit adds to the markdown. *)
Definition part_markdown (changeId : option N) (part : Part.t) : jsstring :=
  match Part.type part with
  | Delete =>
      NUL :: str "DEL" ++ show_id changeId ++ [NUL] ++ Part.text part
        ++ NUL :: str "/DEL" ++ [NUL]
  | Insert =>
      NUL :: str "INS" ++ show_id changeId ++ [NUL] ++ Part.text part
        ++ NUL :: str "/INS" ++ [NUL]
  | Equal => []
  end.

(** [buildDiffMarkdown(changes)]; [None] is the [TypeError] raised by
    [change.parts[0].text] on an equal unit without parts. *)
Fixpoint buildDiffMarkdown (changes : list Change.t) : option jsstring :=
  match changes with
  | [] => Some []
  | c :: rest =>
      match
        match Change.type c with
        | equal =>
            match Change.parts c with
            | p :: _ => Some (Part.text p)
            | [] => None
            end
        | change =>
            Some (flat_map (part_markdown (Change.id c)) (Change.parts c))
        end
      with
      | None => None
      | Some piece =>
          match buildDiffMarkdown rest with
          | Some md => Some (piece ++ md)
          | None => None
          end
      end
  end.

(** *** The markup expected from a unit list *)

(** [<span class="cls" data-change-id="id">text</span>] *)
Definition diff_span (cls : string) (i : N) (text : jsstring) : jsstring :=
  str "<span class=" ++ [QUOTE] ++ str cls ++ [QUOTE]
    ++ str " data-change-id=" ++ [QUOTE] ++ ToString i ++ QUOTE :: str ">"
    ++ text ++ str "</span>".

(** Equal text as it is; every Delete and Insert part of a change unit
    as a span carrying the id of the unit and the text of the part. *)
Definition unit_markup (c : Change.t) : jsstring :=
  match Change.type c with
  | equal =>
      match Change.parts c with
      | p :: _ => Part.text p
      | [] => []
      end
  | change =>
      flat_map (fun p =>
        match Part.type p, Change.id c with
        | Delete, Some i => diff_span "diff-delete" i (Part.text p)
        | Insert, Some i => diff_span "diff-insert" i (Part.text p)
        | _, _ => []
        end) (Change.parts c)
  end.

Definition expected_markup (changes : list Change.t) : jsstring :=
  flat_map unit_markup changes.

(** Two texts agree as far as both reach. *)
Fixpoint compatible (p x : jsstring) : bool :=
  match p, x with
  | a :: p', b :: x' => (a =? b) && compatible p' x'
  | _, _ => true
  end.

(** No position of [u] can begin an occurrence of [p], whatever follows
    [u]: from no position does the rest of [u] agree with [p]. *)
Fixpoint stuckb (p u : jsstring) : bool :=
  match u with
  | [] => true
  | _ :: u' => negb (compatible p u) && stuckb p u'
  end.

Definition nul_free (t : jsstring) : bool := forallb (fun c => negb (c =? NUL)) t.

(** The text holds no [<] from which one of the four placeholder tags,
    or a beginning of one that the end of the text cuts off, starts. *)
Definition tag_free (t : jsstring) : bool :=
  stuckb (r_open del_tag) t && stuckb (r_close del_tag) t
  && stuckb (r_open ins_tag) t && stuckb (r_close ins_tag) t.

(** The text is empty or disagrees with the sentinel name [DEL]. *)
Definition not_del_like (t : jsstring) : bool :=
  match t with
  | [] => true
  | _ :: _ => negb (compatible (str "DEL") t)
  end.

Definition part_ok (p : Part.t) : bool :=
  match Part.type p with
  | Delete => nul_free (Part.text p) && tag_free (Part.text p)
  | Insert =>
      nul_free (Part.text p) && tag_free (Part.text p)
      && not_del_like (Part.text p)
  | Equal => true
  end.

(** A condition on the single unit under which the marker codec
    carries it through, whatever stands around it (the units of a
    grouped diff are checked against it): an equal unit has a first
    part whose text is free of sentinels and placeholder tags and does
    not read like the sentinel name; a change unit has a numeric id
    below [10^21] and parts whose texts are free of sentinels and
    placeholder tags, inserted text not reading like the sentinel
    name. *)
Definition unit_ok (c : Change.t) : bool :=
  match Change.type c with
  | equal =>
      match Change.parts c with
      | p :: _ =>
          nul_free (Part.text p) && tag_free (Part.text p)
          && not_del_like (Part.text p)
      | [] => false
      end
  | change =>
      match Change.id c with
      | Some i => (i <? 10 ^ 21) && forallb part_ok (Change.parts c)
      | None => false
      end
  end.





(** *** The marked-up document as a list of segments

    A unit list read as plain text and marked spans; [render] writes the
    segments with the delimiters that are current for insertions
    ([true]) and deletions ([false]). *)
Inductive seg :=
  | Txt (t : jsstring)
  | Mark (ins : bool) (i : N) (t : jsstring).

Record delims := mkDelims {
  d_open : jsstring;
  d_mid : jsstring;
  d_close : jsstring
}.

Definition rule_in (r : marker_rule) : delims :=
  mkDelims (r_open r) (r_mid r) (r_close r).
Definition rule_out (r : marker_rule) : delims :=
  mkDelims (t_open r) (t_mid r) (t_close r).

Definition render_seg (dl : bool -> delims) (s : seg) : jsstring :=
  match s with
  | Txt t => t
  | Mark k i t =>
      d_open (dl k) ++ ToString i ++ d_mid (dl k) ++ t ++ d_close (dl k)
  end.

Definition render (dl : bool -> delims) (segs : list seg) : jsstring :=
  flat_map (render_seg dl) segs.

(** The delimiters after [r] has rewritten the spans of kind [k0]. *)
Definition rewritten (r : marker_rule) (k0 : bool) (dl : bool -> delims)
  : bool -> delims :=
  fun k => if Bool.eqb k k0 then rule_out r else dl k.

(** Sentinels for both kinds, as [buildDiffMarkdown] writes them. *)
Definition sentinels : bool -> delims :=
  fun k => if k then rule_in ins_marker else rule_in del_marker.

Definition unit_segs (c : Change.t) : list seg :=
  match Change.type c with
  | equal =>
      match Change.parts c with
      | p :: _ => [Txt (Part.text p)]
      | [] => []
      end
  | change =>
      match Change.id c with
      | Some i =>
          flat_map (fun p =>
            match Part.type p with
            | Delete => [Mark false i (Part.text p)]
            | Insert => [Mark true i (Part.text p)]
            | Equal => []
            end) (Change.parts c)
      | None => []
      end
  end.

Definition seg_ok (s : seg) : bool :=
  match s with
  | Txt t => nul_free t && tag_free t && not_del_like t
  | Mark false _ t => nul_free t && tag_free t
  | Mark true _ t => nul_free t && tag_free t && not_del_like t
  end.

(** *** Which unit lists the codec carries through

    The four replacements never escape part text, so text is read as
    markup wherever a complete pair of one of the four expressions
    begins in it.  The conditions below say, pass by pass, that this
    happens nowhere. *)

(** A complete opening of [r] at the head of [s] (opening literal,
    digits, the literal that ends the opening): the digits and what
    follows the opening. *)
Definition open_at (r : marker_rule) (s : jsstring)
  : option (jsstring * jsstring) :=
  match strip_prefix (r_open r) s with
  | None => None
  | Some s1 =>
      let '(ds, s2) := take_digits s1 in
      match ds with
      | [] => None
      | _ :: _ =>
          match strip_prefix (r_mid r) s2 with
          | Some s3 => Some (ds, s3)
          | None => None
          end
      end
  end.

(** The literal [p] occurs in [s]. *)
Definition occurs (p s : jsstring) : bool :=
  match split_at_first p s with
  | Some _ => true
  | None => false
  end.

(** After no complete opening of [r] in [t] does a closing literal
    follow: neither in what is left of [t] nor ([later]) further on in
    the document. *)
Fixpoint exposed_ok (r : marker_rule) (later : bool) (t : jsstring) : bool :=
  match t with
  | [] => true
  | _ :: t' =>
      match open_at r t with
      | Some (_, y) => negb (occurs (r_close r) y) && negb later
      | None => true
      end && exposed_ok r later t'
  end.

(** The closing literal of [r] comes up in the rest of the document: as
    the closing of a marked part of kind [k0], or inside a text. *)
Definition closes_later (r : marker_rule) (k0 : bool) (rest : list seg) : bool :=
  existsb (fun s =>
    match s with
    | Txt t => occurs (r_close r) t
    | Mark k _ t => Bool.eqb k k0 || occurs (r_close r) t
    end) rest.

(** The condition for a pass over placeholder tags: the text of a
    marked part of kind [k0] does not hold the closing literal, and no
    other text holds a complete opening that a closing follows. *)
Fixpoint tags_safe (r : marker_rule) (k0 : bool) (segs : list seg) : bool :=
  match segs with
  | [] => true
  | s :: rest =>
      match s with
      | Txt t => exposed_ok r (closes_later r k0 rest) t
      | Mark k _ t =>
          if Bool.eqb k k0 then negb (occurs (r_close r) t)
          else exposed_ok r (closes_later r k0 rest) t
      end && tags_safe r k0 rest
  end.

(** The text is exactly [DEL] and digits: between two [NUL]s it reads
    as an opening delete sentinel. *)
Definition del_like (t : jsstring) : bool :=
  match strip_prefix (str "DEL") t with
  | Some s1 =>
      match take_digits s1 with
      | (_ :: _, []) => true
      | _ => false
      end
  | None => false
  end.

Definition starts_with_mark (segs : list seg) : bool :=
  match segs with
  | Mark _ _ _ :: _ => true
  | _ => false
  end.

(** A closing delete sentinel comes up in the rest of the document: the
    closing of a Delete part, or the text [/DEL] between two [NUL]s (as
    the whole text of a marked part, or as the whole text between two
    marked parts).  [after_mark] tells whether a marked part stands
    right before [segs]. *)
Fixpoint close_sentinel_later (after_mark : bool) (segs : list seg) : bool :=
  match segs with
  | [] => false
  | Mark k _ t :: rest =>
      negb k || bool_decide (t = str "/DEL") || close_sentinel_later true rest
  | Txt t :: rest =>
      (after_mark && bool_decide (t = str "/DEL") && starts_with_mark rest)
      || close_sentinel_later false rest
  end.

(** The condition for the pass over delete sentinels: the [NUL]s of an
    insertion open no delete sentinel that is closed later.  Such an
    opening is an inserted text that is exactly [DEL] and digits, or the
    same as the whole text between the insertion and the next marked
    part. *)
Fixpoint sentinels_safe (segs : list seg) : bool :=
  match segs with
  | [] => true
  | Mark true _ t :: rest =>
      (if del_like t then negb (close_sentinel_later true rest) else true)
      && match rest with
         | Txt g :: (Mark _ _ _ :: _) as rest' =>
             if del_like g then negb (close_sentinel_later false rest')
             else true
         | _ => true
         end
      && sentinels_safe rest
  | _ :: rest => sentinels_safe rest
  end.

(** Equal texts that follow each other are one text in the document. *)
Fixpoint merge_txt (segs : list seg) : list seg :=
  match segs with
  | [] => []
  | Txt t :: rest =>
      match merge_txt rest with
      | Txt t' :: rest' => Txt (t ++ t') :: rest'
      | merged => Txt t :: merged
      end
  | s :: rest => s :: merge_txt rest
  end.

(** No two texts follow each other. *)
Fixpoint merged (segs : list seg) : bool :=
  match segs with
  | Txt _ :: ((Txt _ :: _) as rest) => false
  | _ :: rest => merged rest
  | [] => true
  end.

(** The text of a segment has no sentinel byte, and the id of a marked
    part is a safe integer (below [2^53]), which [ToString] prints as
    JavaScript does. *)
Definition seg_plain (s : seg) : bool :=
  match s with
  | Txt t => nul_free t
  | Mark _ i t => (i <? 2 ^ 53) && nul_free t
  end.

(** An equal unit has a first part; a change unit that has a Delete or
    an Insert part has a numeric id. *)
Definition unit_shape (c : Change.t) : bool :=
  match Change.type c with
  | equal =>
      match Change.parts c with
      | _ :: _ => true
      | [] => false
      end
  | change =>
      match Change.id c with
      | Some _ => true
      | None =>
          forallb (fun p =>
            match Part.type p with
            | Equal => true
            | _ => false
            end) (Change.parts c)
      end
  end.

(** The unit lists that the codec carries through. *)
Definition round_trip_ok (changes : list Change.t) : bool :=
  let segs := merge_txt (flat_map unit_segs changes) in
  forallb unit_shape changes
  && forallb seg_plain segs
  && sentinels_safe segs
  && tags_safe del_tag false segs
  && tags_safe ins_tag true segs.

(** The text is empty or begins with [a]. *)
Definition headed (a : N) (P : jsstring) : Prop :=
  match P with
  | [] => True
  | b :: _ => b = a
  end.

(** No match of [r] begins at a position of [u] when [P] follows. *)
Definition quiet (r : marker_rule) (u P : jsstring) : Prop :=
  forall k, (k < length u)%nat -> match_at r (drop k u ++ P) = None.

(** *** Sample unit lists *)

(** The units of a replacement between two equal runs. *)
Definition replacement_units : list Change.t :=
  groupDiffsIntoChanges
    [Part.mk Equal (str "hello "); Part.mk Delete (str "world");
     Part.mk Insert (str "universe"); Part.mk Equal (str "!")].

(** A deleted text that holds a closing placeholder tag has no sentinel
    byte, and its span ends at that tag: the span carries [a], not the
    text of the part. *)
Definition closing_tag_units : list Change.t :=
  [Change.fresh (Some 0) change [Part.mk Delete (str "a</diffdelete>b")]].

(** Equal text [DEL7] between an insertion and a deletion: the [NUL]
    that closes the insertion, the text and the [NUL] that opens the
    deletion read as an opening delete sentinel with id 7. *)
Definition del_like_units : list Change.t :=
  [Change.fresh (Some 0) change [Part.mk Insert (str "a")];
   Change.fresh None equal [Part.mk Equal (str "DEL7")];
   Change.fresh (Some 1) change [Part.mk Delete (str "x")]].

(** A replacement of [<] by [>], then the equal text [DELTA] between an
    insertion and a deletion. *)
Definition angle_delta_units : list Change.t :=
  [Change.fresh (Some 0) change
     [Part.mk Delete (str "<"); Part.mk Insert (str ">")];
   Change.fresh None equal [Part.mk Equal (str "DELTA")];
   Change.fresh (Some 1) change [Part.mk Delete (str "x")]].


(** The round trip, computed: the markdown is built and decoding it
    gives the expected markup. *)
Definition round_trip_holds (changes : list Change.t) : bool :=
  match buildDiffMarkdown changes with
  | Some md =>
      bool_decide (placeholdersToSpans (markersToPlaceholders md)
                   = expected_markup changes)
  | None => false
  end.

(** Texts that probe the conditions: plain text, the sentinel names,
    whole and cut-off placeholder tags. *)
Definition probe_texts : list jsstring :=
  [[]; str "x"; str "<"; str "DEL7"; str "DELTA"; str "/DEL"; str "INS7";
   str "/INS"; str "</diffdelete>"; str "</diffinsert>";
   str "<diffdelete data-id=" ++ [QUOTE] ++ str "7" ++ [QUOTE] ++ str ">";
   str "<diffinsert data-id=" ++ [QUOTE] ++ str "7" ++ [QUOTE] ++ str ">";
   str "<diffdelete data-id=" ++ [QUOTE]; str "7" ++ [QUOTE] ++ str ">";
   str "</diffdel"; str "ete>"; str "a</diffdelete>b"; str "DEL"; str "7"].

(** Each probe text as an equal unit, as a deletion and as an
    insertion; and a change unit without parts and without id. *)
Definition probe_units : list Change.t :=
  Change.fresh None change []
  :: flat_map (fun t =>
       [Change.fresh None equal [Part.mk Equal t];
        Change.fresh (Some 1) change [Part.mk Delete t];
        Change.fresh (Some 2) change [Part.mk Insert t]]) probe_texts.

(** ** renderer.js: the diff state of the editor and its resolution *)

(** The diff-related properties of the global [state] object. *)
Module State.
Record t := mk {
  cleanDocumentMarkdown : jsstring;
  originalContent : jsstring;
  originalHtml : jsstring;
  originalFullContent : jsstring;
  proposedContent : jsstring;
  proposedHtml : jsstring;
  hasPendingDiff : bool;
  selectedText : jsstring;
  selectionStart : N;
  selectionEnd : N;
  isSelectionEdit : bool;
  diffChanges : list Change.t
}.
End State.

(** The record stored as [thread.diffState]. *)
Module DiffState.
Record t := mk {
  originalContent : jsstring;
  originalHtml : jsstring;
  originalFullContent : jsstring;
  proposedContent : jsstring;
  proposedHtml : jsstring;
  diffChanges : list Change.t;
  isSelectionEdit : bool;
  selectionStart : N;
  selectionEnd : N
}.
End DiffState.

(** [clearDiff()]: the assignments to [state]; the selection properties
    are not among them. *)
Definition clearDiff (st : State.t) : State.t :=
  State.mk (State.cleanDocumentMarkdown st) [] [] [] [] [] false
           (State.selectedText st) (State.selectionStart st)
           (State.selectionEnd st) false [].

Definition set_diffChanges (st : State.t) (l : list Change.t) : State.t :=
  State.mk (State.cleanDocumentMarkdown st) (State.originalContent st)
           (State.originalHtml st) (State.originalFullContent st)
           (State.proposedContent st) (State.proposedHtml st)
           (State.hasPendingDiff st) (State.selectedText st)
           (State.selectionStart st) (State.selectionEnd st)
           (State.isSelectionEdit st) l.

(** [state.diffChanges.find(c => c.id === changeId)] for a number
    [changeId]. *)
Fixpoint find_change (changeId : N) (l : list Change.t) : option Change.t :=
  match l with
  | [] => None
  | c :: l' =>
      if decide (Change.id c = Some changeId) then Some c
      else find_change changeId l'
  end.

(** An assignment to properties of the object that [find] returned: the
    array holds that very object, so its first unit with this id
    changes. *)
Fixpoint update_found (changeId : N) (f : Change.t -> Change.t)
    (l : list Change.t) : list Change.t :=
  match l with
  | [] => []
  | c :: l' =>
      if decide (Change.id c = Some changeId) then f c :: l'
      else c :: update_found changeId f l'
  end.

(** [change.resolved = true; change.accepted = true] *)
Definition mark_accepted (c : Change.t) : Change.t :=
  Change.mk (Change.id c) (Change.type c) (Change.parts c)
            true true (Change.rejected c).

(** [change.resolved = true; change.rejected = true] *)
Definition mark_rejected (c : Change.t) : Change.t :=
  Change.mk (Change.id c) (Change.type c) (Change.parts c)
            true (Change.accepted c) true.

(** [state.diffChanges.filter(c => c.type === 'change' && !c.resolved)] *)
Definition unresolvedChanges (st : State.t) : list Change.t :=
  List.filter (fun c => is_change c && negb (Change.resolved c))
              (State.diffChanges st).

(** [finalizeChanges()]: the editor keeps its content and the diff is
    cleared. *)
Definition finalizeChanges (st : State.t) : State.t := clearDiff st.

Definition checkAllChangesResolved (st : State.t) : State.t :=
  match unresolvedChanges st with
  | [] => finalizeChanges st
  | _ :: _ => st
  end.

(** The two decisions. *)
Inductive Decision := Accept | Reject.

(** [acceptSingleChange(changeId)] and [rejectSingleChange(changeId)] as
    a transition of [state]; [editorEl] tells whether
    [document.querySelector('#editor .ProseMirror')] finds the editor.
    The removal and unwrapping of spans acts on the DOM only. *)
Definition resolveSingleChange (d : Decision) (editorEl : bool)
    (changeId : N) (st : State.t) : State.t :=
  match find_change changeId (State.diffChanges st) with
  | None => st
  | Some found =>
      if Change.resolved found then st
      else
        let mark := match d with
                    | Accept => mark_accepted
                    | Reject => mark_rejected
                    end in
        let st1 := set_diffChanges st
                     (update_found changeId mark (State.diffChanges st)) in
        if editorEl then checkAllChangesResolved st1 else st1
  end.

Definition acceptSingleChange := resolveSingleChange Accept.
Definition rejectSingleChange := resolveSingleChange Reject.

(** [acceptChanges()]: the markdown handed to [setContentFromMarkdown];
    [None] when the guard returns before anything is done. *)
Definition acceptChanges (st : State.t) : option jsstring :=
  if negb (State.hasPendingDiff st) then None
  else if State.isSelectionEdit st then
    let fullContent := State.originalFullContent st in
    match indexOf fullContent (State.originalContent st) with
    | Some idx =>
        let beforeSelection := substring fullContent 0 idx in
        let afterSelection :=
          substring_from fullContent (idx + length (State.originalContent st)) in
        Some (beforeSelection ++ State.proposedContent st ++ afterSelection)
    | None => Some (State.proposedContent st)
    end
  else Some (State.proposedContent st).

(** [rejectChanges()]: the markdown handed to [setContentFromMarkdown];
    an empty string is falsy. *)
Definition rejectChanges (st : State.t) : option jsstring :=
  if negb (State.hasPendingDiff st) then None
  else match State.cleanDocumentMarkdown st with
       | _ :: _ => Some (State.cleanDocumentMarkdown st)
       | [] =>
           if State.isSelectionEdit st then Some (State.originalFullContent st)
           else Some (State.originalContent st)
       end.

(** [saveCurrentDiffToThread()]: the new value of [thread.diffState] of
    the active thread ([None] is [null]). *)
Definition saveCurrentDiffToThread (st : State.t) : option DiffState.t :=
  if State.hasPendingDiff st then
    Some (DiffState.mk (State.originalContent st) (State.originalHtml st)
            (State.originalFullContent st) (State.proposedContent st)
            (State.proposedHtml st) (State.diffChanges st)
            (State.isSelectionEdit st) (State.selectionStart st)
            (State.selectionEnd st))
  else None.

(** [restoreDiffFromThread()] for an active thread with the given
    [diffState]: the resulting [state]. *)
Definition restoreDiffFromThread (ds : option DiffState.t) (st : State.t)
  : State.t :=
  let st0 := clearDiff st in
  match ds with
  | Some d =>
      State.mk (State.cleanDocumentMarkdown st0)
               (DiffState.originalContent d) (DiffState.originalHtml d)
               (DiffState.originalFullContent d) (DiffState.proposedContent d)
               (DiffState.proposedHtml d) true (State.selectedText st0)
               (DiffState.selectionStart d) (DiffState.selectionEnd d)
               (DiffState.isSelectionEdit d) (DiffState.diffChanges d)
  | None => st0
  end.

(** A partial edit: the word [hello] selected where it occurs twice. *)
Definition partial_edit_state : State.t :=
  State.mk [] (str "hello") [] (str "say hello now hello") (str "goodbye") []
           true (str "hello") 4 9 true [].

(** ** lib/diffState.js *)

(** The values the state properties take. *)
Inductive value :=
  | VUndefined
  | VBool (b : bool)
  | VNumber (n : Z)
  | VString (s : jsstring)
  | VChanges (l : list Change.t).

(** Objects are property maps; the store maps references to objects. *)
Abbreviation object := (gmap string value).
Abbreviation store := (gmap positive object).

(** The object literal of [createInitialDiffState]. *)
Definition initialDiffState : object :=
  <["diffChanges" := VChanges []]>
  (<["selectionEnd" := VNumber 0]>
  (<["selectionStart" := VNumber 0]>
  (<["selectedText" := VString []]>
  (<["isSelectionEdit" := VBool false]>
  (<["proposedHtml" := VString []]>
  (<["proposedContent" := VString []]>
  (<["originalFullContent" := VString []]>
  (<["originalHtml" := VString []]>
  (<["originalContent" := VString []]>
  (<["hasPendingDiff" := VBool false]> ∅)))))))))).

(** [createInitialDiffState()]: a new object in the store. *)
Definition createInitialDiffState (h : store) : positive * store :=
  let l := fresh (dom h) in (l, <[l := initialDiffState]> h).

(** The eleven assignments of [clearDiffState]. *)
Definition clear_properties (o : object) : object :=
  <["diffChanges" := VChanges []]>
  (<["selectionEnd" := VNumber 0]>
  (<["selectionStart" := VNumber 0]>
  (<["selectedText" := VString []]>
  (<["isSelectionEdit" := VBool false]>
  (<["proposedHtml" := VString []]>
  (<["proposedContent" := VString []]>
  (<["originalFullContent" := VString []]>
  (<["originalHtml" := VString []]>
  (<["originalContent" := VString []]>
  (<["hasPendingDiff" := VBool false]> o)))))))))).

(** [clearDiffState(state)]: the object behind [state] is changed in
    place and [state] is returned. *)
Definition clearDiffState (state : positive) (h : store) : positive * store :=
  (state, alter clear_properties state h).

(** [updateSelectionState(state, text, start, end)] *)
Definition updateSelectionState (state : positive) (text : jsstring)
    (start end_ : Z) (h : store) : store :=
  alter (fun o =>
    <["selectionEnd" := VNumber end_]>
    (<["selectionStart" := VNumber start]>
    (<["selectedText" := VString text]> o))) state h.

(** The properties that both functions of the file name. *)
Definition diff_state_fields : list string :=
  ["hasPendingDiff"; "originalContent"; "originalHtml"; "originalFullContent";
   "proposedContent"; "proposedHtml"; "isSelectionEdit"; "selectedText";
   "selectionStart"; "selectionEnd"; "diffChanges"].

(** Two pending replacements. *)
Definition two_changes_state : State.t :=
  State.mk [] (str "a b") [] [] (str "c d") [] true [] 0 0 false
    (groupDiffsIntoChanges
       [Part.mk Delete (str "a"); Part.mk Insert (str "c");
        Part.mk Equal (str " ");
        Part.mk Delete (str "b"); Part.mk Insert (str "d")]).

(** A state object with a pending selection edit, stored at reference 1. *)
Definition pending_object : object :=
  <["selectionEnd" := VNumber 27]>
  (<["selectionStart" := VNumber 5]>
  (<["selectedText" := VString (str "this was selected text")]>
  (<["isSelectionEdit" := VBool true]>
  (<["originalContent" := VString (str "original")]>
  (<["hasPendingDiff" := VBool true]> ∅))))).


(** All code units of a token are of one class. *)
Definition uniform (tok : jsstring) : Prop :=
  exists sp, Forall (fun c => is_space c = sp) tok.

(** Tokens are maximal: a token and its successor never have the same
    class at the place where they meet. *)
Fixpoint boundaries_ok (toks : list jsstring) : Prop :=
  match toks with
  | t1 :: ((t2 :: _) as rest) =>
      (forall a b, last t1 = Some a -> head t2 = Some b ->
                   is_space a <> is_space b)
      /\ boundaries_ok rest
  | _ => True
  end.

Fixpoint alternating (ps : list Part.t) : Prop :=
  match ps with
  | p :: ((q :: _) as rest) => Part.type p <> Part.type q /\ alternating rest
  | _ => True
  end.

(** The shape of a unit made by the grouper. *)
Definition grouped_unit (c : Change.t) : Prop :=
  Change.resolved c = false /\ Change.accepted c = false
  /\ Change.rejected c = false
  /\ match Change.type c with
     | equal =>
         Change.id c = None
         /\ exists p, Change.parts c = [p] /\ Part.type p = Equal
     | change =>
         is_Some (Change.id c)
         /\ ((exists p, Change.parts c = [p] /\ Part.type p <> Equal)
             \/ exists d i, Change.parts c = [d; i]
                  /\ Part.type d = Delete /\ Part.type i = Insert)
     end.

(** A diff part the marker codec carries through. *)
Definition diff_part_ok (p : Part.t) : bool :=
  match Part.type p with
  | Delete => nul_free (Part.text p) && tag_free (Part.text p)
  | _ =>
      nul_free (Part.text p) && tag_free (Part.text p)
      && not_del_like (Part.text p)
  end.

(** The flags of a unit are consistent: never accepted and rejected at
    once, and without a decision while unresolved. *)
Definition flags_ok (c : Change.t) : Prop :=
  (Change.accepted c && Change.rejected c = false)
  /\ (Change.resolved c = false ->
      Change.accepted c = false /\ Change.rejected c = false).

(** What the grouper wrote into a unit. *)
Definition unit_core (c : Change.t) : option N * UnitType * list Part.t :=
  (Change.id c, Change.type c, Change.parts c).

(** ** renderer.js: escapeHtml *)

(** [entities[char]] for the five characters of the class: ampersand,
    less-than, greater-than, double quote and single quote; [None] for a
    code unit the regular expression does not match. *)
Definition entities (c : N) : option jsstring :=
  if c =? 38 then Some (str "&amp;")
  else if c =? 60 then Some (str "&lt;")
  else if c =? 62 then Some (str "&gt;")
  else if c =? 34 then Some (str "&quot;")
  else if c =? 39 then Some (str "&#39;")
  else None.

(** [text.replace(re, char => entities[char])], where [re] is the
    global regular expression of the character class above. *)
Definition escapeHtml (text : jsstring) : jsstring :=
  flat_map (fun c => match entities c with Some e => e | None => [c] end) text.

(** The code units [<], [>], the double and the single quote. *)
Definition markup_unit (c : N) : bool :=
  (c =? 60) || (c =? 62) || (c =? 34) || (c =? 39).

(** The texts of the parts whose type satisfies [keep], one by one. *)
Definition side_tokens (keep : Op -> bool) (ps : list Part.t) : list jsstring :=
  flat_map (fun p => if keep (Part.type p) then [Part.text p] else []) ps.

(** Reading a coded string back as a list of tokens. *)
Definition decode_tokens (rm : list (jsstring * jsstring)) (chars : jsstring)
  : list jsstring :=
  flat_map (fun c => match JsMap.get rm [c] with
                     | Some w => [w]
                     | None => []
                     end) chars.

(** A word: a non-empty text without whitespace. *)
Definition is_word (w : jsstring) : Prop :=
  w <> [] /\ Forall (fun c => is_space c = false) w.

(* ================================================================== *)
(** * Part II: properties                                              *)
(* ================================================================== *)

(** ** Change grouper *)

Lemma change_ids_cons (c : Change.t) (l : list Change.t) :
  change_ids (c :: l)
  = match Change.id c with
    | Some i => i :: change_ids l
    | None => change_ids l
    end.
Proof. reflexivity. Qed.

Lemma changeCount_cons (c : Change.t) (l : list Change.t) :
  changeCount (c :: l)
  = if is_change c then S (changeCount l) else changeCount l.
Proof.
  unfold changeCount. rewrite filter_cons.
  destruct (is_change c); case_decide; simpl; congruence.
Qed.

Lemma groupDiffs_loop_cons (changeId : N) (diff : Part.t) (rest : list Part.t) :
  groupDiffs_loop changeId (diff :: rest)
  = match Part.type diff with
    | Equal => Change.fresh None equal [diff] :: groupDiffs_loop changeId rest
    | Delete =>
        match rest with
        | next :: rest' =>
            match Part.type next with
            | Insert =>
                Change.fresh (Some changeId) change [diff; next]
                  :: groupDiffs_loop (changeId + 1) rest'
            | _ =>
                Change.fresh (Some changeId) change [diff]
                  :: groupDiffs_loop (changeId + 1) rest
            end
        | [] => [Change.fresh (Some changeId) change [diff]]
        end
    | Insert =>
        Change.fresh (Some changeId) change [diff]
          :: groupDiffs_loop (changeId + 1) rest
    end.
Proof. reflexivity. Qed.

Lemma groupDiffs_loop_ids (diffs : list Part.t) :
  forall changeId,
    change_ids (groupDiffs_loop changeId diffs)
    = ids_from changeId (changeCount (groupDiffs_loop changeId diffs)).
Proof.
  induction diffs as [diffs IH] using (induction_ltof1 _ (@length _)).
  unfold ltof in IH. intros changeId.
  destruct diffs as [|diff rest]; [reflexivity|].
  rewrite groupDiffs_loop_cons.
  destruct (Part.type diff).
  - destruct rest as [|next rest']; [reflexivity|].
    destruct (Part.type next);
      rewrite change_ids_cons, changeCount_cons;
      change (ids_from ?a (S ?n)) with (a :: ids_from (a + 1) n);
      cbv beta iota delta [Change.id Change.fresh is_change Change.type];
      rewrite IH by (simpl; lia); reflexivity.
  - rewrite change_ids_cons, changeCount_cons.
    apply IH. simpl; lia.
  - rewrite change_ids_cons, changeCount_cons.
    cbv beta iota delta [Change.id Change.fresh is_change Change.type].
    rewrite IH by (simpl; lia). reflexivity.
Qed.

(** C3. The non-null ids assigned by [groupDiffsIntoChanges], read in
    document order, are exactly [0, 1, ..., n-1] where [n] is the number
    of units of kind change. *)
Theorem groupDiffsIntoChanges_ids_dense (diffs : list Part.t) :
  change_ids (groupDiffsIntoChanges diffs)
  = ids_from 0 (changeCount (groupDiffsIntoChanges diffs)).
Proof. apply groupDiffs_loop_ids. Qed.

(** ** Tokenizer *)

Lemma scan_runs_concat (text : jsstring) :
  forall sp cur, concat (scan_runs sp cur text) = cur ++ text.
Proof.
  induction text as [|c rest IH]; intros sp cur; simpl.
  - by rewrite app_nil_r.
  - destruct (Bool.eqb (is_space c) sp); simpl; rewrite IH.
    + by rewrite <- app_assoc.
    + reflexivity.
Qed.

Lemma tokenize_concat (text : jsstring) : concat (tokenize text) = text.
Proof.
  destruct text as [|c rest]; [reflexivity|].
  unfold tokenize. by rewrite scan_runs_concat.
Qed.

Lemma scan_runs_nonempty (text : jsstring) :
  forall sp cur, cur <> [] -> Forall (fun tok => tok <> []) (scan_runs sp cur text).
Proof.
  induction text as [|c rest IH]; intros sp cur Hcur; simpl.
  - by constructor.
  - destruct (Bool.eqb (is_space c) sp).
    + apply IH. by destruct cur.
    + constructor; [done|]. by apply IH.
Qed.

Lemma tokenize_nonempty (text : jsstring) :
  Forall (fun tok => tok <> []) (tokenize text).
Proof.
  destruct text as [|c rest]; [constructor|].
  by apply scan_runs_nonempty.
Qed.

(** ** The token coder *)

Lemma JsMap_get_set_eq m k v : JsMap.get (JsMap.set m k v) k = Some v.
Proof.
  induction m as [|[k' v'] m IH]; simpl.
  - by rewrite decide_True.
  - destruct (decide (k' = k)) as [->|Hne]; simpl.
    + by rewrite decide_True.
    + by rewrite decide_False.
Qed.

Lemma JsMap_get_set_ne m k k' v :
  k <> k' -> JsMap.get (JsMap.set m k v) k' = JsMap.get m k'.
Proof.
  intros Hne. induction m as [|[k0 v0] m IH]; simpl.
  - by rewrite decide_False.
  - destruct (decide (k0 = k)) as [->|Hne0]; simpl.
    + by rewrite !decide_False.
    + destruct (decide (k0 = k')); [done|]. apply IH.
Qed.

Lemma JsMap_get_elem m k v : JsMap.get m k = Some v -> (k, v) ∈ m.
Proof.
  induction m as [|[k0 v0] m IH]; simpl; [done|].
  destruct (decide (k0 = k)) as [->|Hne].
  - intros [= ->]. left.
  - intros H. right. by apply IH.
Qed.

Lemma JsMap_set_Forall (P : jsstring * jsstring -> Prop) m k v :
  Forall P m -> P (k, v) -> (forall v0, P (k, v0) -> P (k, v)) ->
  Forall P (JsMap.set m k v).
Proof.
  intros Hm Hkv _. induction Hm as [|[k0 v0] m H0 Hm IH]; simpl.
  - by repeat constructor.
  - destruct (decide (k0 = k)) as [->|Hne]; constructor; assumption.
Qed.

Lemma encodeTokens_cons st word rest :
  encodeTokens st (word :: rest)
  = let '(st1, ch) := getWordChar st word in
    let '(st2, chars) := encodeTokens st1 rest in
    (st2, ch ++ chars).
Proof. reflexivity. Qed.

(** Every key of the word map is a token that was passed to
    [getWordChar]. *)
Lemma getWordChar_keys (P : jsstring -> Prop) st word :
  Forall (fun e => P e.1) (wordMap st) -> P word ->
  Forall (fun e => P e.1) (wordMap (getWordChar st word).1).
Proof.
  intros Hst Hw. unfold getWordChar. simpl.
  destruct (JsMap.has (wordMap st) word); simpl; [done|].
  apply JsMap_set_Forall; auto.
Qed.

Lemma encodeTokens_keys (P : jsstring -> Prop) tokens :
  forall st,
    Forall (fun e => P e.1) (wordMap st) -> Forall P tokens ->
    Forall (fun e => P e.1) (wordMap (encodeTokens st tokens).1).
Proof.
  induction tokens as [|word rest IH]; intros st Hst Htok; [done|].
  rewrite encodeTokens_cons.
  inversion Htok as [|? ? Hw Hrest]; subst.
  pose proof (getWordChar_keys P st word Hst Hw) as H1.
  destruct (getWordChar st word) as [st1 ch]. simpl in H1.
  specialize (IH st1 H1 Hrest).
  destruct (encodeTokens st1 rest) as [st2 chars]. exact IH.
Qed.

Lemma buildReverseMap_values (P : jsstring -> Prop) wm :
  Forall (fun e => P e.1) wm ->
  Forall (fun e => P e.2) (buildReverseMap wm).
Proof.
  unfold buildReverseMap.
  assert (Hgen : forall rm, Forall (fun e => P e.2) rm ->
    Forall (fun e => P e.1) wm ->
    Forall (fun e => P e.2)
      (fold_left (fun rm '(word, char) => JsMap.set rm char word) wm rm)).
  { induction wm as [|[w c] wm IH]; intros rm Hrm Hwm; simpl; [done|].
    inversion Hwm; subst. apply IH; [|done].
    apply JsMap_set_Forall; auto. }
  intros H. apply Hgen; [constructor|done].
Qed.

Lemma expandDiffs_texts (P : jsstring -> Prop) rm charDiffs :
  Forall (fun e => P e.2) rm ->
  Forall (fun p => P (Part.text p)) (expandDiffs rm charDiffs).
Proof.
  intros Hrm. unfold expandDiffs.
  rewrite Forall_forall. intros p Hp.
  apply list_elem_of_In, in_flat_map in Hp as [[op chars] [_ Hp]].
  apply in_flat_map in Hp as [cp [_ Hp]].
  destruct (JsMap.get rm cp) as [w|] eqn:Hget; [|by destruct Hp].
  destruct Hp as [<-|[]]. simpl.
  apply JsMap_get_elem in Hget.
  rewrite Forall_forall in Hrm. apply (Hrm _ Hget).
Qed.

(** ** The merging loop *)

Lemma update_last_snoc {A} (f : A -> A) (l : list A) (x : A) :
  update_last f (l ++ [x]) = l ++ [f x].
Proof.
  induction l as [|y l IH]; [reflexivity|].
  simpl. rewrite IH. by destruct l.
Qed.

Lemma merge_step_snoc (merged : list Part.t) (l item : Part.t) :
  merge_step (merged ++ [l]) item
  = if decide (Part.type l = Part.type item)
    then merged ++ [Part.mk (Part.type l) (Part.text l ++ Part.text item)]
    else merged ++ [l; item].
Proof.
  unfold merge_step. rewrite last_snoc.
  destruct (decide _); [by rewrite update_last_snoc|by rewrite <- app_assoc].
Qed.

Lemma merge_step_Forall (P : jsstring -> Prop) merged item :
  (forall a b, P a -> P (a ++ b)) ->
  Forall (fun p => P (Part.text p)) merged -> P (Part.text item) ->
  Forall (fun p => P (Part.text p)) (merge_step merged item).
Proof.
  intros Happ Hm Hi.
  destruct merged as [|x merged' _] using rev_ind.
  - by repeat constructor.
  - rewrite merge_step_snoc. apply Forall_app in Hm as [Hm Hx].
    inversion Hx; subst.
    destruct (decide _); apply Forall_app; split; auto;
      repeat constructor; auto. simpl. by apply Happ.
Qed.

Lemma mergeParts_Forall (P : jsstring -> Prop) result :
  (forall a b, P a -> P (a ++ b)) ->
  Forall (fun p => P (Part.text p)) result ->
  Forall (fun p => P (Part.text p)) (mergeParts result).
Proof.
  intros Happ. unfold mergeParts.
  assert (Hgen : forall merged,
    Forall (fun p => P (Part.text p)) merged ->
    Forall (fun p => P (Part.text p)) result ->
    Forall (fun p => P (Part.text p)) (fold_left merge_step result merged)).
  { induction result as [|item result IH]; intros merged Hm Hr; simpl; [done|].
    inversion Hr; subst. apply IH; [|done]. by apply merge_step_Forall. }
  intros Hr. apply Hgen; [constructor|done].
Qed.

(** C9. Every part returned by [computeWordDiff] has non-empty text,
    whatever diff the library computes on the coded strings. *)
Theorem computeWordDiff_parts_nonempty
    (dmp : DiffMatchPatch) (original proposed : jsstring) :
  Forall (fun p => Part.text p <> []) (computeWordDiff original proposed).
Proof.
  unfold computeWordDiff, encodeBoth.
  pose proof (encodeTokens_keys (fun w => w <> []) (tokenize original)
                coder_init (Forall_nil_2 _) (tokenize_nonempty original)) as H1.
  destruct (encodeTokens coder_init (tokenize original)) as [st1 ca].
  pose proof (encodeTokens_keys (fun w => w <> []) (tokenize proposed)
                st1 H1 (tokenize_nonempty proposed)) as H2.
  destruct (encodeTokens st1 (tokenize proposed)) as [st2 cb].
  apply (mergeParts_Forall (fun w => w <> [])).
  - intros a b Ha. by destruct a.
  - apply (expandDiffs_texts (fun w => w <> [])).
    by apply (buildReverseMap_values (fun w => w <> [])).
Qed.

(** ** The word map as a list of first occurrences *)

Arguments getWordChar : simpl never.

Lemma assign_codes_app c ks ks' :
  assign_codes c (ks ++ ks')
  = assign_codes c ks ++ assign_codes (c + N.of_nat (length ks)) ks'.
Proof.
  revert c. induction ks as [|k ks IH]; intros c; simpl.
  - by rewrite N.add_0_r.
  - rewrite IH. do 3 f_equal. lia.
Qed.

Lemma assign_codes_keys c ks : (assign_codes c ks).*1 = ks.
Proof. revert c. induction ks as [|k ks IH]; intros c; simpl; by rewrite ?IH. Qed.

Lemma JsMap_get_None m k : k ∉ m.*1 -> JsMap.get m k = None.
Proof.
  induction m as [|[k0 v0] m IH]; simpl; [done|].
  intros Hk. rewrite not_elem_of_cons in Hk. destruct Hk as [Hne Hk].
  rewrite decide_False by done. by apply IH.
Qed.

Lemma JsMap_get_is_Some m k : k ∈ m.*1 -> is_Some (JsMap.get m k).
Proof.
  induction m as [|[k0 v0] m IH]; simpl; [by intros ?%elem_of_nil|].
  intros Hk. destruct (decide (k0 = k)); [by eexists|].
  apply IH. apply elem_of_cons in Hk as [?|?]; [congruence|done].
Qed.

Lemma JsMap_get_app_l m m' k :
  k ∈ m.*1 -> JsMap.get (m ++ m') k = JsMap.get m k.
Proof.
  induction m as [|[k0 v0] m IH]; simpl; [by intros ?%elem_of_nil|].
  intros Hk. destruct (decide (k0 = k)); [done|].
  apply IH. apply elem_of_cons in Hk as [?|?]; [congruence|done].
Qed.

Lemma JsMap_get_app_r m m' k :
  k ∉ m.*1 -> JsMap.get (m ++ m') k = JsMap.get m' k.
Proof.
  induction m as [|[k0 v0] m IH]; simpl; [done|].
  intros Hk. rewrite not_elem_of_cons in Hk. destruct Hk as [Hne Hk].
  rewrite decide_False by done. by apply IH.
Qed.

Lemma JsMap_set_absent m k v :
  JsMap.get m k = None -> JsMap.set m k v = m ++ [(k, v)].
Proof.
  induction m as [|[k0 v0] m IH]; simpl; [done|].
  destruct (decide (k0 = k)); [done|]. intros H. by rewrite IH.
Qed.

Lemma JsMap_has_true m k : JsMap.has m k = true <-> k ∈ m.*1.
Proof.
  unfold JsMap.has. split.
  - destruct (JsMap.get m k) eqn:H; [|done]. intros _.
    apply JsMap_get_elem in H. by apply (list_elem_of_fmap_2 fst) in H.
  - intros [v ->]%JsMap_get_is_Some. done.
Qed.

Lemma getWordChar_ok st keys word :
  coder_ok st keys ->
  coder_ok (getWordChar st word).1
           (if decide (word ∈ keys) then keys else keys ++ [word]).
Proof.
  intros (Hnd & Hwm & Hcc). unfold getWordChar. simpl.
  destruct (JsMap.has (wordMap st) word) eqn:Hhas.
  - apply JsMap_has_true in Hhas. rewrite Hwm, assign_codes_keys in Hhas.
    rewrite decide_True by done. done.
  - assert (Hnot : word ∉ keys).
    { intros Hin. rewrite <- (assign_codes_keys 256 keys), <- Hwm in Hin.
      apply JsMap_has_true in Hin. congruence. }
    rewrite decide_False by done. repeat split; simpl.
    + apply NoDup_app. repeat split; [done| |apply NoDup_singleton].
      intros x Hx ->%list_elem_of_singleton. done.
    + rewrite JsMap_set_absent.
      * rewrite assign_codes_app, Hwm, Hcc. done.
      * apply JsMap_get_None. by rewrite Hwm, assign_codes_keys.
    + rewrite length_app, Hcc. simpl. lia.
Qed.

Lemma first_seen_cons keys t ts :
  first_seen keys (t :: ts)
  = first_seen (if decide (t ∈ keys) then keys else keys ++ [t]) ts.
Proof. reflexivity. Qed.

Lemma first_seen_prefix ts : forall keys,
  exists more, first_seen keys ts = keys ++ more.
Proof.
  induction ts as [|t ts IH]; intros keys.
  - exists []. by rewrite app_nil_r.
  - rewrite first_seen_cons. destruct (decide (t ∈ keys)); [apply IH|].
    destruct (IH (keys ++ [t])) as [more ->].
    exists ([t] ++ more). by rewrite app_assoc.
Qed.

Lemma first_seen_covers ts : forall keys t,
  t ∈ keys \/ t ∈ ts -> t ∈ first_seen keys ts.
Proof.
  induction ts as [|t0 ts IH]; intros keys t Ht.
  - destruct Ht as [?|?%elem_of_nil]; done.
  - rewrite first_seen_cons. apply IH.
    destruct Ht as [Ht|[->|Ht]%elem_of_cons]; [| |by right].
    + left. destruct (decide _); [done|]. apply elem_of_app. by left.
    + left. destruct (decide _); [done|]. apply elem_of_app. right. left.
Qed.

Lemma code_of_app_l ks more c t :
  t ∈ ks ->
  code_of (assign_codes c (ks ++ more)) t = code_of (assign_codes c ks) t.
Proof.
  intros Ht. unfold code_of. rewrite assign_codes_app.
  rewrite JsMap_get_app_l; [done|]. by rewrite assign_codes_keys.
Qed.

(** The coder after a token list, and the coded string it returns: every
    token is rendered by its code in the final word map. *)
Lemma encodeTokens_spec tokens : forall st keys,
  coder_ok st keys ->
  coder_ok (encodeTokens st tokens).1 (first_seen keys tokens)
  /\ forall more,
       (encodeTokens st tokens).2
       = flat_map (code_of (assign_codes 256 (first_seen keys tokens ++ more)))
                  tokens.
Proof.
  induction tokens as [|word rest IH]; intros st keys Hok; [done|].
  rewrite encodeTokens_cons, first_seen_cons.
  pose proof (getWordChar_ok st keys word Hok) as H1.
  assert (Hch : (getWordChar st word).2
                = code_of (wordMap (getWordChar st word).1) word) by done.
  destruct (getWordChar st word) as [st1 ch]. simpl in H1, Hch.
  set (keys1 := if decide (word ∈ keys) then keys else keys ++ [word]) in *.
  destruct (IH st1 keys1 H1) as [H2 Hchars].
  destruct (encodeTokens st1 rest) as [st2 chars]. simpl in *.
  split; [done|]. intros more. rewrite (Hchars more). f_equal.
  rewrite Hch. destruct H1 as (_ & -> & _).
  destruct (first_seen_prefix rest keys1) as [more1 ->].
  rewrite <- app_assoc. symmetry. apply (code_of_app_l keys1 (more1 ++ more)).
  unfold keys1. destruct (decide _); [done|]. apply elem_of_app. right. left.
Qed.

Lemma coder_init_ok : coder_ok coder_init [].
Proof. repeat split. constructor. Qed.

(** The result of coding both texts, in closed form. *)
Lemma encodeBoth_spec (original proposed : jsstring) :
  let keys := distinct_tokens original proposed in
  let wm := assign_codes 256 keys in
  NoDup keys
  /\ encodeBoth original proposed
     = (mkCoder wm (256 + N.of_nat (length keys)),
        flat_map (code_of wm) (tokenize original),
        flat_map (code_of wm) (tokenize proposed)).
Proof.
  intros keys wm. unfold encodeBoth.
  destruct (encodeTokens_spec (tokenize original) coder_init [] coder_init_ok)
    as [H1 Hca].
  destruct (encodeTokens coder_init (tokenize original)) as [st1 ca].
  simpl in H1, Hca.
  destruct (encodeTokens_spec (tokenize proposed) st1 _ H1) as [H2 Hcb].
  destruct (encodeTokens st1 (tokenize proposed)) as [st2 cb].
  simpl in H2, Hcb. fold (distinct_tokens original proposed) in H2, Hcb.
  fold keys in H2, Hcb. destruct H2 as (Hnd & Hwm & Hcc).
  split; [done|]. f_equal; [f_equal|].
  - destruct st2; simpl in *; by subst.
  - destruct (first_seen_prefix (tokenize proposed)
                (first_seen [] (tokenize original))) as [more Hmore].
    fold (distinct_tokens original proposed) in Hmore. fold keys in Hmore.
    unfold wm. rewrite Hmore. apply Hca.
  - specialize (Hcb []). by rewrite app_nil_r in Hcb.
Qed.

Lemma assign_codes_lookup keys : forall c i k,
  keys !! i = Some k ->
  assign_codes c keys !! i = Some (k, fromCharCode (c + N.of_nat i)).
Proof.
  induction keys as [|k0 keys IH]; intros c i k Hi; [done|].
  destruct i as [|i]; simpl in *.
  - injection Hi as ->. by rewrite N.add_0_r.
  - rewrite (IH _ _ _ Hi). do 3 f_equal. lia.
Qed.

Lemma JsMap_get_NoDup m k v : NoDup m.*1 -> (k, v) ∈ m -> JsMap.get m k = Some v.
Proof.
  induction m as [|[k0 v0] m IH]; simpl; [by intros _ ?%elem_of_nil|].
  intros [Hk0 Hnd]%NoDup_cons [Heq|Hin]%elem_of_cons.
  - injection Heq as -> ->. by rewrite decide_True.
  - destruct (decide (k0 = k)) as [->|Hne]; [|by apply IH].
    exfalso. apply Hk0. by apply (list_elem_of_fmap_2 fst) in Hin.
Qed.

Lemma code_of_index keys c i k :
  NoDup keys -> keys !! i = Some k ->
  code_of (assign_codes c keys) k = fromCharCode (c + N.of_nat i).
Proof.
  intros Hnd Hi. unfold code_of.
  rewrite (JsMap_get_NoDup _ k (fromCharCode (c + N.of_nat i))); [done| |].
  - by rewrite assign_codes_keys.
  - eapply list_elem_of_lookup_2. by apply assign_codes_lookup.
Qed.

Lemma assign_codes_values c keys :
  (assign_codes c keys).*2
  = (fun i => fromCharCode (c + N.of_nat i)) <$> seq 0 (length keys).
Proof.
  revert c. induction keys as [|k keys IH]; intros c; [done|].
  simpl. rewrite N.add_0_r. f_equal. rewrite IH, <- fmap_S_seq, <- list_fmap_compose.
  apply list_fmap_ext. intros _ i _. unfold compose, fromCharCode.
  do 2 f_equal. rewrite Nat2N.inj_succ. lia.
Qed.

Lemma fromCharCode_inj_below (i j : N) :
  i < 65536 -> j < 65536 ->
  fromCharCode (256 + i) = fromCharCode (256 + j) -> i = j.
Proof.
  unfold fromCharCode. intros Hi Hj [= H].
  destruct (N.lt_ge_cases (256 + i) 65536), (N.lt_ge_cases (256 + j) 65536).
  - rewrite !N.mod_small in H by done. lia.
  - rewrite (N.mod_small (256 + i)) in H by done.
    replace (256 + j) with ((256 + j - 65536) + 1 * 65536) in H by lia.
    rewrite N.Div0.mod_add, N.mod_small in H by lia. lia.
  - rewrite (N.mod_small (256 + j)) in H by done.
    replace (256 + i) with ((256 + i - 65536) + 1 * 65536) in H by lia.
    rewrite N.Div0.mod_add, N.mod_small in H by lia. lia.
  - replace (256 + j) with ((256 + j - 65536) + 1 * 65536) in H by lia.
    replace (256 + i) with ((256 + i - 65536) + 1 * 65536) in H by lia.
    rewrite !N.Div0.mod_add, !N.mod_small in H by lia. lia.
Qed.

(** With at most 65536 distinct tokens no two codes coincide. *)
Lemma assign_codes_values_NoDup keys :
  N.of_nat (length keys) <= 65536 -> NoDup (assign_codes 256 keys).*2.
Proof.
  intros Hlen. rewrite assign_codes_values.
  apply NoDup_fmap_2_strong; [|apply NoDup_seq].
  intros i j Hi%elem_of_seq Hj%elem_of_seq Heq.
  apply fromCharCode_inj_below in Heq; lia.
Qed.

Lemma buildReverseMap_snoc wm w c :
  buildReverseMap (wm ++ [(w, c)]) = JsMap.set (buildReverseMap wm) c w.
Proof. unfold buildReverseMap. by rewrite fold_left_app. Qed.

(** Reverse lookup returns the token when no other token shares its
    code. *)
Lemma buildReverseMap_get wm w c :
  NoDup wm.*2 -> (w, c) ∈ wm -> JsMap.get (buildReverseMap wm) c = Some w.
Proof.
  induction wm as [|[w0 c0] wm IH] using rev_ind; [by intros _ ?%elem_of_nil|].
  rewrite fmap_app, buildReverseMap_snoc. simpl.
  intros (Hnd & Hdisj & _)%NoDup_app [Hin|Hin]%elem_of_app.
  - rewrite JsMap_get_set_ne; [by apply IH|].
    intros ->. apply (Hdisj c); [|left].
    by apply (list_elem_of_fmap_2 snd) in Hin.
  - apply list_elem_of_singleton in Hin. injection Hin as -> ->.
    apply JsMap_get_set_eq.
Qed.

Lemma codePoints_no_high chars :
  Forall (fun c => is_high_surrogate c = false) chars ->
  codePoints chars = (fun c => [c]) <$> chars.
Proof.
  induction 1 as [|c chars Hc Hrest IH]; [done|].
  simpl. rewrite Hc. simpl. destruct chars; [done|]. by rewrite IH.
Qed.

Lemma parts_text_app keep ps qs :
  parts_text keep (ps ++ qs) = parts_text keep ps ++ parts_text keep qs.
Proof. unfold parts_text. apply flat_map_app. Qed.

Lemma decode_units_app rm xs ys :
  decode_units rm (xs ++ ys) = decode_units rm xs ++ decode_units rm ys.
Proof. unfold decode_units. apply flat_map_app. Qed.

Lemma expandDiffs_cons rm op chars d :
  expandDiffs rm ((op, chars) :: d)
  = flat_map (fun char =>
          match JsMap.get rm char with
          | Some word => [Part.mk op word]
          | None => []
          end) (codePoints chars) ++ expandDiffs rm d.
Proof. reflexivity. Qed.

Lemma expand_chunk_text keep rm op chars :
  Forall (fun c => is_high_surrogate c = false) chars ->
  parts_text keep
    (flat_map (fun char =>
          match JsMap.get rm char with
          | Some word => [Part.mk op word]
          | None => []
          end) (codePoints chars))
  = if keep op then decode_units rm chars else [].
Proof.
  intros Hc. rewrite (codePoints_no_high _ Hc). clear Hc.
  induction chars as [|c chars IH].
  - simpl. by destruct (keep op).
  - rewrite fmap_cons.
    change (flat_map ?f ([c] :: ?l)) with (f [c] ++ flat_map f l).
    rewrite parts_text_app, IH.
    change (decode_units rm (c :: chars))
      with (code_of rm [c] ++ decode_units rm chars).
    unfold code_of, parts_text.
    destruct (JsMap.get rm [c]) as [w|]; simpl; destruct (keep op);
      by rewrite ?app_nil_r.
Qed.

Lemma expandDiffs_original rm d :
  (forall op chars, (op, chars) ∈ d ->
     Forall (fun c => is_high_surrogate c = false) chars) ->
  parts_text original_side (expandDiffs rm d) = decode_units rm (diff_text1 d).
Proof.
  induction d as [|[op chars] d IH]; intros Hd; [done|].
  rewrite expandDiffs_cons, parts_text_app, IH, expand_chunk_text.
  - unfold diff_text1 at 2. simpl. rewrite decode_units_app.
    by destruct op.
  - apply (Hd op). left.
  - intros op' chars' Hin. apply (Hd op'). by right.
Qed.

Lemma expandDiffs_proposed rm d :
  (forall op chars, (op, chars) ∈ d ->
     Forall (fun c => is_high_surrogate c = false) chars) ->
  parts_text proposed_side (expandDiffs rm d) = decode_units rm (diff_text2 d).
Proof.
  induction d as [|[op chars] d IH]; intros Hd; [done|].
  rewrite expandDiffs_cons, parts_text_app, IH, expand_chunk_text.
  - unfold diff_text2 at 2. simpl. rewrite decode_units_app.
    by destruct op.
  - apply (Hd op). left.
  - intros op' chars' Hin. apply (Hd op'). by right.
Qed.

Lemma diff_chunk_units (Q : N -> Prop) d :
  Forall Q (diff_text1 d) -> Forall Q (diff_text2 d) ->
  forall op chars, (op, chars) ∈ d -> Forall Q chars.
Proof.
  induction d as [|[op0 chars0] d IH]; intros H1 H2 op chars Hin;
    [by apply elem_of_nil in Hin|].
  unfold diff_text1 in H1. unfold diff_text2 in H2. simpl in H1, H2.
  apply Forall_app in H1 as [H1a H1b]. apply Forall_app in H2 as [H2a H2b].
  apply elem_of_cons in Hin as [Heq|Hin].
  - injection Heq as -> ->. by destruct op0.
  - by apply (IH H1b H2b op).
Qed.

Lemma merge_step_text keep merged item :
  parts_text keep (merge_step merged item)
  = parts_text keep merged ++ parts_text keep [item].
Proof.
  destruct merged as [|l merged _] using rev_ind; [done|].
  rewrite merge_step_snoc. destruct (decide _) as [Heq|Hne].
  - rewrite !parts_text_app. unfold parts_text. simpl. rewrite <- Heq.
    destruct (keep (Part.type l)); by rewrite ?app_nil_r, <- ?app_assoc.
  - rewrite !parts_text_app, <- app_assoc. f_equal.
    change [l; item] with ([l] ++ [item]). apply parts_text_app.
Qed.

(** Merging neighbours of one type changes no side of the diff. *)
Lemma mergeParts_text keep result :
  parts_text keep (mergeParts result) = parts_text keep result.
Proof.
  unfold mergeParts.
  assert (Hgen : forall merged,
    parts_text keep (fold_left merge_step result merged)
    = parts_text keep merged ++ parts_text keep result).
  { induction result as [|item result IH]; intros merged.
    - simpl. by rewrite app_nil_r.
    - change (fold_left merge_step (item :: result) merged)
        with (fold_left merge_step result (merge_step merged item)).
      rewrite IH, merge_step_text, <- app_assoc. f_equal.
      symmetry. apply (parts_text_app keep [item] result). }
  apply Hgen.
Qed.

(** With at most 55040 distinct tokens every code lies below the
    surrogate range, and a coded token list reads back as the tokens. *)
Lemma decode_coded keys ts :
  NoDup keys -> N.of_nat (length keys) <= 55040 ->
  (forall t, t ∈ ts -> t ∈ keys) ->
  decode_units (buildReverseMap (assign_codes 256 keys))
               (flat_map (code_of (assign_codes 256 keys)) ts) = concat ts
  /\ Forall (fun c => is_high_surrogate c = false)
            (flat_map (code_of (assign_codes 256 keys)) ts).
Proof.
  intros Hnd Hlen. induction ts as [|t ts IH]; intros Hts; [by split|].
  destruct IH as [IH1 IH2]; [intros t' Ht'; apply Hts; by right|].
  assert (Ht : t ∈ keys) by (apply Hts; left).
  apply list_elem_of_lookup_1 in Ht as [i Hi].
  pose proof (lookup_lt_Some _ _ _ Hi) as Hlt.
  pose proof (code_of_index keys 256 i t Hnd Hi) as Hcode.
  unfold fromCharCode in Hcode. rewrite N.mod_small in Hcode by lia.
  simpl flat_map. rewrite Hcode. split.
  - rewrite decode_units_app. simpl concat. rewrite IH1. f_equal.
    unfold decode_units. simpl. rewrite app_nil_r. unfold code_of.
    rewrite (buildReverseMap_get _ t); [done| |].
    + apply assign_codes_values_NoDup. lia.
    + eapply list_elem_of_lookup_2. rewrite (assign_codes_lookup _ _ _ _ Hi).
      unfold fromCharCode. rewrite N.mod_small by lia. done.
  - constructor; [|done]. unfold is_high_surrogate.
    apply andb_false_iff. left. apply N.leb_gt. lia.
Qed.

Section Reconstruction.
Context {dmp : DiffMatchPatch} {dmp_spec : DiffMatchPatchSpec dmp}.

(** Reconstruction for texts with at most 55040 distinct tokens: the
    Delete and Equal parts spell the original and the Insert and Equal
    parts spell the proposed text. *)
Theorem computeWordDiff_reconstructs (original proposed : jsstring) :
  N.of_nat (length (distinct_tokens original proposed)) <= 55040 ->
  parts_text original_side (computeWordDiff original proposed) = original
  /\ parts_text proposed_side (computeWordDiff original proposed) = proposed.
Proof.
  intros Hlen. unfold computeWordDiff.
  destruct (encodeBoth_spec original proposed) as [Hnd ->].
  set (keys := distinct_tokens original proposed) in *.
  set (wm := assign_codes 256 keys).
  set (ca := flat_map (code_of wm) (tokenize original)).
  set (cb := flat_map (code_of wm) (tokenize proposed)).
  simpl wordMap.
  destruct (decode_coded keys (tokenize original) Hnd Hlen) as [Ha1 Ha2].
  { intros t Ht. apply first_seen_covers. left.
    apply first_seen_covers. by right. }
  destruct (decode_coded keys (tokenize proposed) Hnd Hlen) as [Hb1 Hb2].
  { intros t Ht. apply first_seen_covers. by right. }
  fold wm in Ha1, Ha2, Hb1, Hb2. fold ca in Ha1, Ha2. fold cb in Hb1, Hb2.
  rewrite tokenize_concat in Ha1, Hb1.
  set (d := diff_cleanupSemantic (diff_main ca cb)).
  assert (Hd1 : diff_text1 d = ca)
    by (unfold d; by rewrite diff_cleanup_text1, diff_main_text1).
  assert (Hd2 : diff_text2 d = cb)
    by (unfold d; by rewrite diff_cleanup_text2, diff_main_text2).
  assert (Hchunks : forall op chars, (op, chars) ∈ d ->
            Forall (fun c => is_high_surrogate c = false) chars).
  { apply diff_chunk_units; by rewrite ?Hd1, ?Hd2. }
  rewrite !mergeParts_text, expandDiffs_original, expandDiffs_proposed by done.
  by rewrite Hd1, Hd2.
Qed.

End Reconstruction.

(** ** Decimal numbers as words *)

Lemma str_inj s1 s2 : str s1 = str s2 -> s1 = s2.
Proof.
  unfold str. intros H.
  rewrite <- (string_of_list_ascii_of_string s1),
          <- (string_of_list_ascii_of_string s2).
  f_equal. revert H. generalize (list_ascii_of_string s2).
  induction (list_ascii_of_string s1) as [|a l IH]; intros [|b l']; simpl;
    try discriminate; [done|].
  intros [= Hab Hl]. f_equal; [|by apply IH].
  rewrite <- (ascii_N_embedding a), <- (ascii_N_embedding b). by rewrite Hab.
Qed.

Lemma string_of_uint_inj d d' :
  NilEmpty.string_of_uint d = NilEmpty.string_of_uint d' -> d = d'.
Proof.
  intros H. pose proof (NilEmpty.usu d) as H1.
  rewrite H, NilEmpty.usu in H1. congruence.
Qed.

Lemma ToString_inj n n' : ToString n = ToString n' -> n = n'.
Proof.
  unfold ToString.
  intros H%str_inj%string_of_uint_inj. by apply DecimalN.Unsigned.to_uint_inj.
Qed.

Lemma string_of_uint_digits d :
  Forall (fun c => is_digit c = true) (str (NilEmpty.string_of_uint d)).
Proof. induction d; simpl; constructor; done. Qed.

Lemma ToString_digits n : Forall (fun c => is_digit c = true) (ToString n).
Proof. apply string_of_uint_digits. Qed.

Lemma ToString_nonempty n : ToString n <> [].
Proof.
  unfold ToString. destruct n as [|p]; [done|].
  simpl. pose proof (DecimalPos.Unsigned.to_uint_nonnil p) as Hp.
  destruct (Pos.to_uint p); done.
Qed.

Lemma is_digit_range c : is_digit c = true <-> 48 <= c <= 57.
Proof.
  unfold is_digit. rewrite andb_true_iff, !N.leb_le. done.
Qed.

Lemma digit_not_space c : is_digit c = true -> is_space c = false.
Proof.
  intros [H1 H2]%is_digit_range. unfold is_space.
  repeat match goal with
  | |- context [?a <=? ?b] =>
      destruct (N.leb_spec a b); try lia
  | |- context [?a =? ?b] =>
      destruct (N.eqb_spec a b); try lia
  end; reflexivity.
Qed.

(** ** Tokens of a space-separated word list *)

Lemma scan_runs_word w : forall cur rest,
  Forall (fun c => is_space c = false) w ->
  scan_runs false cur (w ++ rest) = scan_runs false (cur ++ w) rest.
Proof.
  induction w as [|c w IH]; intros cur rest Hw; simpl.
  - by rewrite app_nil_r.
  - inversion Hw as [|? ? Hc Hw']; subst. rewrite Hc. simpl.
    rewrite IH by done. by rewrite <- app_assoc.
Qed.

Lemma scan_runs_words ws : forall cur,
  Forall is_word ws ->
  scan_runs false cur (flat_map (fun w => 32 :: w) ws)
  = cur :: flat_map (fun w => [[32]; w]) ws.
Proof.
  induction ws as [|w ws IH]; intros cur Hws; [done|].
  inversion Hws as [|? ? [Hne Hw] Hws']; subst.
  destruct w as [|c w]; [done|].
  inversion Hw as [|? ? Hc Hw']; subst.
  change (flat_map (fun w => 32 :: w) ((c :: w) :: ws))
    with (32 :: c :: w ++ flat_map (fun w => 32 :: w) ws).
  change (flat_map (fun w => [[32]; w]) ((c :: w) :: ws))
    with ([32] :: (c :: w) :: flat_map (fun w => [[32]; w]) ws).
  simpl scan_runs. rewrite Hc. simpl.
  rewrite scan_runs_word by done. by rewrite IH.
Qed.

Lemma tokenize_join_words w ws :
  Forall is_word (w :: ws) ->
  tokenize (join_words (w :: ws)) = w :: flat_map (fun w' => [[32]; w']) ws.
Proof.
  intros Hws. inversion Hws as [|? ? [Hne Hw] Hws']; subst.
  destruct w as [|c w]; [done|].
  inversion Hw as [|? ? Hc Hw']; subst.
  unfold join_words.
  change (tokenize ((c :: w) ++ ?r)) with (scan_runs (is_space c) [c] (w ++ r)).
  rewrite Hc, scan_runs_word by done. by rewrite scan_runs_words.
Qed.

Lemma first_seen_known ts : forall keys,
  (forall t, t ∈ ts -> t ∈ keys) -> first_seen keys ts = keys.
Proof.
  induction ts as [|t ts IH]; intros keys Hts; [done|].
  rewrite first_seen_cons, decide_True by (apply Hts; left).
  apply IH. intros t' Ht'. apply Hts. by right.
Qed.

Lemma first_seen_words ws : forall keys,
  [32] ∈ keys -> NoDup (keys ++ ws) ->
  first_seen keys (flat_map (fun w => [[32]; w]) ws) = keys ++ ws.
Proof.
  induction ws as [|w ws IH]; intros keys Hsp Hnd.
  - by rewrite app_nil_r.
  - change (flat_map ?f (w :: ws)) with ([32] :: w :: flat_map f ws).
    rewrite first_seen_cons, decide_True by done.
    rewrite first_seen_cons, decide_False.
    + rewrite IH; [by rewrite <- app_assoc| |by rewrite <- app_assoc].
      apply elem_of_app. by left.
    + apply NoDup_app in Hnd as (_ & Hdisj & _).
      intros Hin. apply (Hdisj w Hin). left.
Qed.

(** The distinct tokens of a list of pairwise distinct words joined by
    single spaces: the first word, the space, the other words. *)
Lemma first_seen_join_words w0 w1 ws :
  NoDup (w0 :: w1 :: ws) -> [32] ∉ w0 :: w1 :: ws ->
  first_seen [] (w0 :: flat_map (fun w => [[32]; w]) (w1 :: ws))
  = w0 :: [32] :: w1 :: ws.
Proof.
  intros Hnd Hsp.
  apply NoDup_cons in Hnd as [Hw0 Hnd]. apply NoDup_cons in Hnd as [Hw1 Hnd].
  rewrite !not_elem_of_cons in Hsp. destruct Hsp as (Hs0 & Hs1 & Hs).
  rewrite not_elem_of_cons in Hw0. destruct Hw0 as [Hw01 Hw0].
  change (flat_map ?f (w1 :: ws)) with ([32] :: w1 :: flat_map f ws).
  rewrite first_seen_cons, decide_False by apply not_elem_of_nil. simpl app.
  rewrite first_seen_cons, decide_False.
  2:{ intros Heq%list_elem_of_singleton. done. }
  simpl app. rewrite first_seen_cons, decide_False.
  2:{ rewrite !not_elem_of_cons. repeat split; try done.
      apply not_elem_of_nil. }
  simpl app.
  rewrite (first_seen_words ws [w0; [32]; w1]); [done| |].
  - right. left.
  - simpl. repeat (apply NoDup_cons; split); try done.
    + rewrite !not_elem_of_cons. repeat split; done.
    + rewrite !not_elem_of_cons. repeat split; done.
Qed.

(** ** The document of the first [n + 1] numbers *)

Lemma number_words_cons n :
  number_words (S n)
  = ToString 0 :: ToString 1
      :: ((fun i => ToString (N.of_nat i)) <$> seq 2 n).
Proof. reflexivity. Qed.

Lemma number_words_is_word n : Forall is_word (number_words n).
Proof.
  unfold number_words. apply Forall_fmap, Forall_forall. intros i _.
  split; [apply ToString_nonempty|].
  eapply Forall_impl; [apply ToString_digits|]. apply digit_not_space.
Qed.

Lemma number_words_NoDup n : NoDup (number_words n).
Proof.
  unfold number_words. apply NoDup_fmap_2; [|apply NoDup_seq].
  intros i j H%ToString_inj. lia.
Qed.

Lemma number_words_no_space n : [32] ∉ number_words n.
Proof.
  unfold number_words. intros [i [Hi _]]%list_elem_of_fmap.
  pose proof (ToString_digits (N.of_nat i)) as Hd.
  rewrite <- Hi in Hd. by inversion Hd.
Qed.

Lemma number_words_last n : last (number_words n) = Some (ToString (N.of_nat n)).
Proof.
  unfold number_words. rewrite seq_S, fmap_app. simpl. apply last_snoc.
Qed.

(** The tokens of ["0 1 ... n"] and its distinct tokens, for [n >= 1]. *)
Lemma tokenize_numbers_doc n :
  tokenize (join_words (number_words (S n)))
  = ToString 0 :: flat_map (fun w => [[32]; w])
      (ToString 1 :: ((fun i => ToString (N.of_nat i)) <$> seq 2 n)).
Proof.
  pose proof (number_words_is_word (S n)) as Hw.
  rewrite number_words_cons in *. by apply tokenize_join_words.
Qed.

Lemma first_seen_numbers_doc n :
  first_seen [] (tokenize (join_words (number_words (S n))))
  = ToString 0 :: [32] :: ToString 1
      :: ((fun i => ToString (N.of_nat i)) <$> seq 2 n).
Proof.
  rewrite tokenize_numbers_doc. apply first_seen_join_words.
  - rewrite <- number_words_cons. apply number_words_NoDup.
  - rewrite <- number_words_cons. apply number_words_no_space.
Qed.

Lemma first_seen_sub ts : forall keys t,
  t ∈ first_seen keys ts -> t ∈ keys \/ t ∈ ts.
Proof.
  induction ts as [|t0 ts IH]; intros keys t Ht; [by left|].
  rewrite first_seen_cons in Ht. apply IH in Ht as [Ht|Ht].
  - destruct (decide _); [by left|].
    apply elem_of_app in Ht as [?|Ht]; [by left|].
    apply list_elem_of_singleton in Ht as ->. right. left.
  - right. by right.
Qed.

Lemma numbers_doc_keys m :
  first_seen [] (tokenize (join_words (number_words (S m))))
  = (ToString 0 :: [32] :: ((fun i => ToString (N.of_nat i)) <$> seq 1 m))
      ++ [ToString (N.of_nat (S m))].
Proof.
  rewrite first_seen_numbers_doc. simpl. do 2 f_equal.
  change (ToString 1 :: ((fun i => ToString (N.of_nat i)) <$> seq 2 m))
    with ((fun i => ToString (N.of_nat i)) <$> seq 1 (S m)).
  by rewrite seq_S, fmap_app.
Qed.

Lemma JsMap_get_index keys c i k :
  NoDup keys -> keys !! i = Some k ->
  JsMap.get (assign_codes c keys) k = Some (fromCharCode (c + N.of_nat i)).
Proof.
  intros Hnd Hi. apply JsMap_get_NoDup.
  - by rewrite assign_codes_keys.
  - eapply list_elem_of_lookup_2. by apply assign_codes_lookup.
Qed.

Lemma codePoints_not_high c rest :
  is_high_surrogate c = false -> codePoints (c :: rest) = [c] :: codePoints rest.
Proof. intros Hc. simpl. rewrite Hc. by destruct rest. Qed.

(** The word map built for ["0 1 ... n"], [n = m + 1]: the first distinct
    token is ["0"] with code [0x100], the last is the decimal of [n] with
    code [fromCharCode (0x100 + n + 1)]. *)
Lemma number_words_wordMap (m : nat) (proposed : jsstring) :
  (forall t, t ∈ tokenize proposed ->
             t ∈ tokenize (join_words (number_words (S m)))) ->
  exists front chars,
    wordMap (encodeBoth (join_words (number_words (S m))) proposed).1.1
    = ((ToString 0, [256]) :: front)
        ++ [(ToString (N.of_nat (S m)),
             fromCharCode (256 + N.of_nat (S (S m))))]
    /\ NoDup (ToString 0 :: front.*1 ++ [ToString (N.of_nat (S m))])
    /\ (encodeBoth (join_words (number_words (S m))) proposed).1.2
       = 256 :: chars.
Proof.
  intros Hsub.
  destruct (encodeBoth_spec (join_words (number_words (S m))) proposed)
    as [Hnd ->].
  cbn [fst snd wordMap]. unfold distinct_tokens in *.
  rewrite (first_seen_known (tokenize proposed)) in *.
  2,3: intros t Ht; apply first_seen_covers; right; by apply Hsub.
  rewrite numbers_doc_keys in *. rewrite tokenize_numbers_doc.
  set (mid := (fun i => ToString (N.of_nat i)) <$> seq 1 m) in *.
  assert (Hlen : length (ToString 0 :: [32] :: mid) = S (S m)).
  { cbn [length]. unfold mid. by rewrite length_fmap, length_seq. }
  rewrite assign_codes_app, Hlen. cbn [assign_codes].
  exists (([32], fromCharCode (256 + 1)) :: assign_codes (256 + 1 + 1) mid).
  eexists. split; [reflexivity|]. split.
  - cbn [fmap list_fmap fst]. rewrite assign_codes_keys. exact Hnd.
  - cbn [flat_map]. unfold code_of at 1. cbn [JsMap.get].
    reflexivity.
Qed.

Lemma number_words_wordMap_wrap (m : nat) (proposed : jsstring) :
  N.of_nat (S m) = 65535 ->
  (forall t, t ∈ tokenize proposed ->
             t ∈ tokenize (join_words (number_words (S m)))) ->
  exists front chars,
    wordMap (encodeBoth (join_words (number_words (S m))) proposed).1.1
    = ((str "0", [256]) :: front) ++ [(str "65535", [256])]
    /\ NoDup (str "0" :: front.*1 ++ [str "65535"])
    /\ (encodeBoth (join_words (number_words (S m))) proposed).1.2
       = 256 :: chars.
Proof.
  intros Hm Hsub.
  destruct (number_words_wordMap m proposed Hsub)
    as (front & chars & H1 & H2 & H3).
  rewrite (Nat2N.inj_succ (S m)) in H1. rewrite Hm in H1, H2.
  exists front, chars. done.
Qed.

Lemma to_nat_65535 : N.to_nat 65535 = S (N.to_nat 65534).
Proof. change 65535 with (N.succ 65534). apply N2Nat.inj_succ. Qed.

(** The word map built for ["0 1 ... 65535"]: the first and the last
    distinct token, ["0"] and ["65535"], are both paired with the code
    unit [0x100]. *)
Lemma numbers_doc_wordMap (proposed : jsstring) :
  (forall t, t ∈ tokenize proposed -> t ∈ tokenize (numbers_doc 65535)) ->
  exists front chars,
    wordMap (encodeBoth (numbers_doc 65535) proposed).1.1
    = ((str "0", [256]) :: front) ++ [(str "65535", [256])]
    /\ NoDup (str "0" :: front.*1 ++ [str "65535"])
    /\ (encodeBoth (numbers_doc 65535) proposed).1.2 = 256 :: chars.
Proof.
  unfold numbers_doc. rewrite to_nat_65535.
  apply number_words_wordMap_wrap.
  by rewrite Nat2N.inj_succ, N2Nat.id.
Qed.


Lemma numbers_doc_head : head (numbers_doc 65535) = Some 48.
Proof.
  unfold numbers_doc. rewrite to_nat_65535, number_words_cons.
  generalize (N.to_nat 65534). intros m. reflexivity.
Qed.

Lemma common_prefix_spec a : forall b pre ra rb,
  common_prefix a b = (pre, ra, rb) -> a = pre ++ ra /\ b = pre ++ rb.
Proof.
  induction a as [|x a IH]; intros b pre ra rb H.
  - simpl in H. by injection H as <- <- <-.
  - destruct b as [|y b]; [simpl in H; by injection H as <- <- <-|].
    simpl in H. destruct (x =? y) eqn:Hxy.
    + apply N.eqb_eq in Hxy as ->.
      destruct (common_prefix a b) as [[pre' ra'] rb'] eqn:Hrec.
      injection H as <- <- <-.
      destruct (IH _ _ _ _ Hrec) as [-> ->]. done.
    + by injection H as <- <- <-.
Qed.

Lemma common_suffix_spec a b suf ra rb :
  common_suffix a b = (suf, ra, rb) -> a = ra ++ suf /\ b = rb ++ suf.
Proof.
  unfold common_suffix.
  destruct (common_prefix (rev a) (rev b)) as [[s x] y] eqn:Hrec.
  intros [= <- <- <-]. apply common_prefix_spec in Hrec as [Ha Hb].
  rewrite <- !rev_app_distr, <- Ha, <- Hb, !rev_involutive. done.
Qed.

Lemma diff_text1_app d d' : diff_text1 (d ++ d') = diff_text1 d ++ diff_text1 d'.
Proof. apply flat_map_app. Qed.

Lemma diff_text2_app d d' : diff_text2 (d ++ d') = diff_text2 d ++ diff_text2 d'.
Proof. apply flat_map_app. Qed.

Lemma diff_text1_entry op chars :
  diff_text1 (diff_entry op chars)
  = match op with Insert => [] | _ => chars end.
Proof.
  destruct chars; [by destruct op|].
  unfold diff_text1. simpl. rewrite app_nil_r. done.
Qed.

Lemma diff_text2_entry op chars :
  diff_text2 (diff_entry op chars)
  = match op with Delete => [] | _ => chars end.
Proof.
  destruct chars; [by destruct op|].
  unfold diff_text2. simpl. rewrite app_nil_r. done.
Qed.

Lemma common_suffix_nil_r l : common_suffix l [] = ([], l, []).
Proof.
  unfold common_suffix. simpl rev at 2.
  replace (common_prefix (rev l) []) with (@nil N, rev l, @nil N)
    by (by destruct (rev l)).
  simpl. by rewrite rev_involutive.
Qed.

Lemma common_suffix_nil_l l : common_suffix [] l = ([], [], l).
Proof. unfold common_suffix. simpl. by rewrite rev_involutive. Qed.

#[global] Instance simple_dmp_spec : DiffMatchPatchSpec simple_dmp.
Proof.
  split; simpl; unfold simple_diff_main; try done.
  - intros a b. destruct (decide (a = b)) as [->|Hne].
    + apply diff_text1_entry.
    + destruct (common_prefix a b) as [[pre a1] b1] eqn:Hp.
      destruct (common_suffix a1 b1) as [[suf a2] b2] eqn:Hs.
      apply common_prefix_spec in Hp as [-> _].
      apply common_suffix_spec in Hs as [-> _].
      rewrite !diff_text1_app, !diff_text1_entry. done.
  - intros a b. destruct (decide (a = b)) as [->|Hne].
    + apply diff_text2_entry.
    + destruct (common_prefix a b) as [[pre a1] b1] eqn:Hp.
      destruct (common_suffix a1 b1) as [[suf a2] b2] eqn:Hs.
      apply common_prefix_spec in Hp as [_ ->].
      apply common_suffix_spec in Hs as [_ ->].
      rewrite !diff_text2_app, !diff_text2_entry. done.
  - intros a. rewrite decide_True by done. by destruct a.
  - intros a Ha. rewrite decide_False by done.
    destruct a as [|x a]; [done|].
    change (common_prefix (x :: a) []) with (@nil N, x :: a, @nil N).
    cbv beta iota. by rewrite common_suffix_nil_r.
  - intros b Hb. rewrite decide_False by done.
    destruct b as [|x b]; [done|].
    change (common_prefix [] (x :: b)) with (@nil N, @nil N, x :: b).
    cbv beta iota. by rewrite common_suffix_nil_l.
Qed.

Section WrapAround.
Context {dmp : DiffMatchPatch} {dmp_spec : DiffMatchPatchSpec dmp}.

(** Diffing a text against itself when the last distinct token [w]
    shares the code [0x100] of the first token: the first token comes
    back as [w]. *)
Lemma shared_code_first_word (doc w : jsstring) front chars :
  wordMap (encodeBoth doc doc).1.1 = ((str "0", [256]) :: front) ++ [(w, [256])] ->
  (encodeBoth doc doc).1.2 = 256 :: chars ->
  exists tail,
    parts_text original_side (computeWordDiff doc doc) = w ++ tail.
Proof.
  intros H1 H3.
  destruct (encodeBoth_spec doc doc) as [_ Heq].
  unfold computeWordDiff. rewrite Heq in *. cbn [fst snd wordMap] in *.
  cbv beta iota zeta. cbn [wordMap]. rewrite H3, H1.
  rewrite diff_main_same, diff_cleanup_single, mergeParts_text.
  rewrite expandDiffs_cons, (codePoints_not_high 256) by done.
  rewrite buildReverseMap_snoc.
  change (flat_map ?f ([256] :: ?l)) with (f [256] ++ flat_map f l).
  cbv beta. rewrite JsMap_get_set_eq, !parts_text_app.
  eexists. unfold parts_text at 1.
  cbn [flat_map Part.type Part.text original_side].
  rewrite app_nil_r, <- app_assoc. reflexivity.
Qed.

Lemma numbers_doc_first_word :
  exists tail,
    parts_text original_side
      (computeWordDiff (numbers_doc 65535) (numbers_doc 65535))
    = str "65535" ++ tail.
Proof.
  destruct (numbers_doc_wordMap (numbers_doc 65535))
    as (front & chars & H1 & H2 & H3); [intros t Ht; exact Ht|].
  exact (shared_code_first_word _ _ _ _ H1 H3).
Qed.

End WrapAround.

Lemma distinct_tokens_sub original proposed t :
  t ∈ distinct_tokens original proposed ->
  t ∈ tokenize original \/ t ∈ tokenize proposed.
Proof.
  unfold distinct_tokens. intros [H|H]%first_seen_sub; [|by right].
  apply first_seen_sub in H as [H|H]; [by apply elem_of_nil in H|by left].
Qed.

Lemma wordMap_keys original proposed :
  (wordMap (encodeBoth original proposed).1.1).*1
  = distinct_tokens original proposed.
Proof.
  destruct (encodeBoth_spec original proposed) as [_ ->].
  cbn [fst snd wordMap]. apply assign_codes_keys.
Qed.

(** Two distinct tokens with one code, read off a word map whose first
    and last entry carry the same code. *)
Lemma shared_code_lookup (original proposed w0 w : jsstring) front c :
  wordMap (encodeBoth original proposed).1.1 = ((w0, c) :: front) ++ [(w, c)] ->
  NoDup (w0 :: front.*1 ++ [w]) ->
  (w0 ∈ tokenize original \/ w0 ∈ tokenize proposed)
  /\ (w ∈ tokenize original \/ w ∈ tokenize proposed)
  /\ w0 <> w
  /\ JsMap.get (wordMap (encodeBoth original proposed).1.1) w0 = Some c
  /\ JsMap.get (wordMap (encodeBoth original proposed).1.1) w = Some c.
Proof.
  intros Hwm Hnd.
  pose proof (wordMap_keys original proposed) as Hkeys.
  rewrite Hwm in *. rewrite fmap_app in Hkeys. cbn [fmap list_fmap fst] in Hkeys.
  repeat split.
  - apply distinct_tokens_sub. rewrite <- Hkeys. left.
  - apply distinct_tokens_sub. rewrite <- Hkeys. right.
    apply elem_of_app. right. left.
  - apply NoDup_cons in Hnd as [Hnd _]. intros ->. apply Hnd.
    apply elem_of_app. right. left.
  - apply JsMap_get_NoDup; [|left].
    rewrite fmap_app. exact Hnd.
  - apply JsMap_get_NoDup.
    + rewrite fmap_app. exact Hnd.
    + apply elem_of_app. right. left.
Qed.

(** C2. The claim asks for distinct codes for distinct tokens.  The
    tokens ["0"] and ["65535"] of the text ["0 1 2 ... 65535"] are the
    first and the 65537th distinct token; [String.fromCharCode] wraps at
    16 bits and gives both the code unit [0x100]. *)
Theorem wordMap_code_collision :
  let doc := numbers_doc 65535 in
  let wm := wordMap (encodeBoth doc []).1.1 in
  str "0" ∈ tokenize doc /\ str "65535" ∈ tokenize doc
  /\ str "0" <> str "65535"
  /\ JsMap.get wm (str "0") = Some [256]
  /\ JsMap.get wm (str "65535") = Some [256].
Proof.
  intros doc wm. unfold doc, wm.
  assert (Hnil : forall t : jsstring, t ∈ tokenize [] -> False).
  { intros t Ht. exact (proj1 (elem_of_nil t) Ht). }
  destruct (numbers_doc_wordMap [])
    as (front & chars & H1 & H2 & _).
  { intros t Ht. destruct (Hnil t Ht). }
  destruct (shared_code_lookup _ _ _ _ _ _ H1 H2)
    as (H0 & Hw & Hne & Hg0 & Hgw).
  split; [destruct H0 as [H0|H0]; [exact H0|destruct (Hnil _ H0)]|].
  split; [destruct Hw as [Hw|Hw]; [exact Hw|destruct (Hnil _ Hw)]|].
  split; [exact Hne|]. split; [exact Hg0|exact Hgw].
Qed.

Section WrapAroundClaims.
Context {dmp : DiffMatchPatch} {dmp_spec : DiffMatchPatchSpec dmp}.

(** C1. The claim asks that the Delete and Equal parts of
    [computeWordDiff(a, b)] spell [a].  For [a = b = "0 1 2 ... 65535"]
    they spell a text that begins with ["65535"]: the reverse map keeps
    the last token that was given the code [0x100]. *)
Theorem reconstruction_fails_after_wrap :
  parts_text original_side
    (computeWordDiff (numbers_doc 65535) (numbers_doc 65535))
  <> numbers_doc 65535.
Proof.
  destruct numbers_doc_first_word as [tail Htail]. rewrite Htail.
  intros Heq. pose proof numbers_doc_head as Hhead.
  rewrite <- Heq in Hhead. discriminate Hhead.
Qed.

(** C7. The claim asks that [computeWordDiff(a, a)] is the single Equal
    part with text [a].  For [a = "0 1 2 ... 65535"] it is not: the text
    that comes back begins with ["65535"]. *)
Theorem identity_fails_after_wrap :
  computeWordDiff (numbers_doc 65535) (numbers_doc 65535)
  <> [Part.mk Equal (numbers_doc 65535)].
Proof.
  intros Heq. destruct numbers_doc_first_word as [tail Htail].
  rewrite Heq in Htail. unfold parts_text in Htail.
  cbn [flat_map Part.type Part.text original_side] in Htail.
  rewrite app_nil_r in Htail.
  pose proof numbers_doc_head as Hhead.
  rewrite Htail in Hhead. discriminate Hhead.
Qed.

End WrapAroundClaims.

Lemma reconstruction_fails_after_wrap_witness :
  parts_text original_side
    (@computeWordDiff simple_dmp (numbers_doc 65535) (numbers_doc 65535))
  <> numbers_doc 65535.
Proof. exact (@reconstruction_fails_after_wrap simple_dmp simple_dmp_spec). Defined.

Lemma identity_fails_after_wrap_witness :
  @computeWordDiff simple_dmp (numbers_doc 65535) (numbers_doc 65535)
  <> [Part.mk Equal (numbers_doc 65535)].
Proof. exact (@identity_fails_after_wrap simple_dmp simple_dmp_spec). Defined.

(** ** Literal matching *)

Lemma strip_prefix_app p s : strip_prefix p (p ++ s) = Some s.
Proof. induction p as [|a p IH]; simpl; [done|]. by rewrite N.eqb_refl. Qed.

Lemma strip_prefix_Some p : forall s rest,
  strip_prefix p s = Some rest -> s = p ++ rest.
Proof.
  induction p as [|a p IH]; intros s rest H; simpl in H.
  - by injection H as ->.
  - destruct s as [|b s]; [done|]. destruct (N.eqb_spec a b) as [->|]; [|done].
    by rewrite (IH _ _ H).
Qed.

Lemma compatible_strip_prefix p : forall x s,
  compatible p x = false -> strip_prefix p (x ++ s) = None.
Proof.
  induction p as [|a p IH]; intros x s H; [done|].
  destruct x as [|b x]; [done|]. simpl in *.
  destruct (a =? b); [by apply IH|done].
Qed.

Lemma stuckb_cons p c u :
  stuckb p (c :: u) = negb (compatible p (c :: u)) && stuckb p u.
Proof. reflexivity. Qed.

Lemma compatible_app_false p : forall x y,
  compatible p x = false -> compatible p (x ++ y) = false.
Proof.
  induction p as [|a p IH]; intros x y H; [done|].
  destruct x as [|b x]; [done|]. simpl in *.
  destruct (a =? b); [by apply IH|done].
Qed.

Lemma stuckb_app p u v :
  stuckb p u = true -> stuckb p v = true -> stuckb p (u ++ v) = true.
Proof.
  intros Hu Hv. induction u as [|c u IH]; [done|].
  rewrite stuckb_cons in Hu. apply andb_true_iff in Hu as [Hc Hu].
  change ((c :: u) ++ v) with (c :: (u ++ v)). rewrite stuckb_cons.
  apply andb_true_iff. split; [|by apply IH].
  apply negb_true_iff. apply negb_true_iff in Hc.
  by apply (compatible_app_false p (c :: u) v).
Qed.

(** A text without the first code unit of [p] is stuck for [p]. *)
Lemma stuckb_head_free a p u :
  Forall (fun c => c <> a) u -> stuckb (a :: p) u = true.
Proof.
  induction 1 as [|c u Hc Hu IH]; [done|].
  rewrite stuckb_cons, IH, andb_true_r. simpl.
  destruct (N.eqb_spec a c); [congruence|done].
Qed.

Lemma nul_free_Forall t : nul_free t = true -> Forall (fun c => c <> NUL) t.
Proof.
  unfold nul_free. rewrite forallb_forall, Forall_forall.
  intros H c Hc%list_elem_of_In. specialize (H c Hc).
  apply negb_true_iff, N.eqb_neq in H. done.
Qed.

Lemma digits_Forall_ne a ds :
  is_digit a = false -> Forall (fun c => is_digit c = true) ds ->
  Forall (fun c => c <> a) ds.
Proof.
  intros Ha Hds. eapply Forall_impl; [exact Hds|].
  intros c Hc ->. congruence.
Qed.

(** ** Digits and the lazy group *)

Lemma take_digits_spec s :
  s = (take_digits s).1 ++ (take_digits s).2
  /\ Forall (fun c => is_digit c = true) (take_digits s).1.
Proof.
  induction s as [|c s [IH1 IH2]]; simpl; [done|].
  destruct (is_digit c) eqn:Hc; [|done].
  destruct (take_digits s) as [ds rest]. simpl in *.
  split; [by rewrite IH1 at 1|by constructor].
Qed.

Lemma take_digits_app ds c s :
  Forall (fun d => is_digit d = true) ds -> is_digit c = false ->
  take_digits (ds ++ c :: s) = (ds, c :: s).
Proof.
  intros Hds Hc. induction Hds as [|d ds Hd Hds IH]; simpl.
  - by rewrite Hc.
  - by rewrite Hd, IH.
Qed.

Lemma split_at_first_sound close : forall s content rest,
  split_at_first close s = Some (content, rest) ->
  s = content ++ close ++ rest.
Proof.
  induction s as [|c s IH]; intros content rest H; simpl in H.
  - destruct (strip_prefix close []) eqn:Hp; [|done].
    injection H as <- <-. by apply strip_prefix_Some in Hp.
  - destruct (strip_prefix close (c :: s)) eqn:Hp.
    + injection H as <- <-. by apply strip_prefix_Some in Hp.
    + destruct (split_at_first close s) as [[content' rest']|] eqn:Hrec; [|done].
      injection H as <- <-. by rewrite (IH _ _ eq_refl).
Qed.

Lemma split_at_first_stuck close t rest :
  stuckb close t = true ->
  split_at_first close (t ++ close ++ rest) = Some (t, rest).
Proof.
  intros Ht. induction t as [|c t IH].
  - simpl app. destruct (close ++ rest) eqn:E; simpl;
      rewrite <- E, strip_prefix_app; done.
  - rewrite stuckb_cons in Ht. apply andb_true_iff in Ht as [Hc Ht].
    apply negb_true_iff in Hc.
    change ((c :: t) ++ close ++ rest) with (c :: (t ++ close ++ rest)).
    simpl split_at_first.
    change (c :: (t ++ close ++ rest)) with ((c :: t) ++ close ++ rest).
    rewrite (compatible_strip_prefix _ _ _ Hc), (IH Ht). done.
Qed.

(** ** One match attempt *)

Lemma match_at_sound r s ds content rest :
  match_at r s = Some (ds, content, rest) ->
  s = r_open r ++ ds ++ r_mid r ++ content ++ r_close r ++ rest
  /\ ds <> [] /\ Forall (fun c => is_digit c = true) ds.
Proof.
  unfold match_at.
  destruct (strip_prefix (r_open r) s) as [s1|] eqn:H1; [|done].
  destruct (take_digits_spec s1) as [Hs1 Hds].
  destruct (take_digits s1) as [ds' s2]. simpl in Hs1, Hds.
  destruct ds' as [|d ds']; [done|].
  destruct (strip_prefix (r_mid r) s2) as [s3|] eqn:H2; [|done].
  destruct (split_at_first (r_close r) s3) as [[content' rest']|] eqn:H3; [|done].
  intros [= <- <- <-].
  apply strip_prefix_Some in H1, H2. apply split_at_first_sound in H3.
  subst. done.
Qed.

Lemma match_at_miss r s :
  strip_prefix (r_open r) s = None -> match_at r s = None.
Proof. unfold match_at. by intros ->. Qed.

(** A well-formed pair at the head of the text is matched as it stands
    when the enclosed text is stuck for the closing literal. *)
Lemma match_at_hit r ds m mid' t rest :
  r_mid r = m :: mid' -> is_digit m = false ->
  ds <> [] -> Forall (fun c => is_digit c = true) ds ->
  stuckb (r_close r) t = true ->
  match_at r (r_open r ++ ds ++ r_mid r ++ t ++ r_close r ++ rest)
  = Some (ds, t, rest).
Proof.
  intros Hmid Hm Hne Hds Ht. unfold match_at.
  rewrite strip_prefix_app, Hmid. simpl app.
  rewrite (take_digits_app ds m _ Hds Hm).
  destruct ds as [|d ds]; [done|].
  rewrite <- Hmid.
  change (m :: mid' ++ ?x) with ((m :: mid') ++ x). rewrite <- Hmid.
  rewrite strip_prefix_app, split_at_first_stuck by done. done.
Qed.

Lemma match_at_own r ds m mid' t R :
  r_mid r = m :: mid' -> is_digit m = false ->
  ds <> [] -> Forall (fun c => is_digit c = true) ds ->
  split_at_first (r_close r) (t ++ r_close r ++ R) = Some (t, R) ->
  match_at r (r_open r ++ ds ++ r_mid r ++ t ++ r_close r ++ R)
  = Some (ds, t, R).
Proof.
  intros Hmid Hm Hne Hds Ht. unfold match_at.
  rewrite strip_prefix_app, Hmid. simpl app.
  rewrite (take_digits_app ds m _ Hds Hm).
  destruct ds as [|d ds]; [done|].
  rewrite <- Hmid.
  change (m :: mid' ++ ?x) with ((m :: mid') ++ x). rewrite <- Hmid.
  by rewrite strip_prefix_app, Ht.
Qed.

Lemma match_at_shorter r s ds content rest :
  match_at r s = Some (ds, content, rest) -> (length rest < length s)%nat.
Proof.
  intros (-> & Hne & _)%match_at_sound. rewrite !length_app.
  destruct ds; [done|]. simpl. lia.
Qed.

(** ** Global replacement *)

Lemma replace_fuel_S fuel r s :
  replace_fuel (S fuel) r s
  = match match_at r s with
    | Some (ds, content, rest) =>
        t_open r ++ ds ++ t_mid r ++ content ++ t_close r
          ++ replace_fuel fuel r rest
    | None =>
        match s with
        | [] => []
        | c :: s' => c :: replace_fuel fuel r s'
        end
    end.
Proof. reflexivity. Qed.

Lemma replace_fuel_irrelevant r : forall f1 f2 s,
  (length s < f1)%nat -> (length s < f2)%nat ->
  replace_fuel f1 r s = replace_fuel f2 r s.
Proof.
  induction f1 as [|f1 IH]; intros f2 s H1 H2; [lia|].
  destruct f2 as [|f2]; [lia|]. rewrite !replace_fuel_S.
  destruct (match_at r s) as [[[ds content] rest]|] eqn:Hm.
  - apply match_at_shorter in Hm. do 5 f_equal. apply IH; lia.
  - destruct s as [|c s]; [done|]. f_equal. simpl in *. apply IH; lia.
Qed.

Lemma replace_all_nil r : replace_all r [] = [].
Proof.
  unfold replace_all. rewrite replace_fuel_S.
  destruct (match_at r []) as [[[ds content] rest]|] eqn:Hm; [|done].
  apply match_at_shorter in Hm. simpl in Hm. lia.
Qed.

Lemma replace_all_miss r c s :
  match_at r (c :: s) = None ->
  replace_all r (c :: s) = c :: replace_all r s.
Proof.
  intros Hm. unfold replace_all. by rewrite replace_fuel_S, Hm.
Qed.

Lemma replace_all_hit r s ds content rest :
  match_at r s = Some (ds, content, rest) ->
  replace_all r s
  = t_open r ++ ds ++ t_mid r ++ content ++ t_close r ++ replace_all r rest.
Proof.
  intros Hm. unfold replace_all. rewrite replace_fuel_S, Hm. do 5 f_equal.
  apply match_at_shorter in Hm.
  apply replace_fuel_irrelevant; simpl; lia.
Qed.

(** A text that is stuck for the opening literal is copied. *)
Lemma replace_all_skip r u s :
  stuckb (r_open r) u = true ->
  replace_all r (u ++ s) = u ++ replace_all r s.
Proof.
  intros Hu. induction u as [|c u IH]; [done|].
  rewrite stuckb_cons in Hu. apply andb_true_iff in Hu as [Hc Hu].
  apply negb_true_iff in Hc.
  change ((c :: u) ++ s) with (c :: (u ++ s)).
  rewrite replace_all_miss.
  - by rewrite IH.
  - apply match_at_miss.
    change (c :: (u ++ s)) with ((c :: u) ++ s).
    by apply compatible_strip_prefix.
Qed.


(** ** indexOf *)

Lemma startsWith_app p s : startsWith p (p ++ s) = true.
Proof. induction p as [|a p IH]; simpl; [done|]. by rewrite N.eqb_refl. Qed.

Lemma startsWith_true p : forall s,
  startsWith p s = true -> exists rest, s = p ++ rest.
Proof.
  induction p as [|a p IH]; intros s H; [by exists s|].
  destruct s as [|b s]; [done|]. simpl in H.
  apply andb_true_iff in H as [->%N.eqb_eq H].
  destruct (IH _ H) as [rest ->]. by exists rest.
Qed.

Lemma indexOf_from_None p : forall s i,
  indexOf_from i p s = None -> forall k, startsWith p (drop k s) = false.
Proof.
  induction s as [|c s IH]; intros i H k; simpl in H.
  - destruct (startsWith p []) eqn:E; [done|]. by rewrite drop_nil.
  - destruct (startsWith p (c :: s)) eqn:E; [done|].
    destruct k as [|k]; [done|]. simpl. by apply (IH (S i)).
Qed.

Lemma indexOf_from_Some p : forall s i j,
  indexOf_from i p s = Some j ->
  exists k, j = (i + k)%nat /\ (k <= length s)%nat
    /\ startsWith p (drop k s) = true
    /\ forall k', (k' < k)%nat -> startsWith p (drop k' s) = false.
Proof.
  induction s as [|c s IH]; intros i j H; simpl in H.
  - destruct (startsWith p []) eqn:E; [|done]. injection H as <-.
    exists 0%nat. repeat split; [lia|done|done|lia].
  - destruct (startsWith p (c :: s)) eqn:E.
    + injection H as <-. exists 0%nat. repeat split; [lia|simpl; lia|done|lia].
    + destruct (IH _ _ H) as (k & -> & Hk & Hs & Hfirst).
      exists (S k). repeat split; [lia|simpl; lia|done|].
      intros [|k'] Hk'; [done|]. simpl. apply Hfirst. lia.
Qed.

Lemma indexOf_None_no_occurrence s p :
  indexOf s p = None -> forall pre post, s <> pre ++ p ++ post.
Proof.
  intros H pre post ->. apply indexOf_from_None with (k := length pre) in H.
  by rewrite drop_app_length, startsWith_app in H.
Qed.

(** ** Malformed marker input *)





(** ** The pairing of a global replacement *)






Lemma replace_all_quiet r u s :
  (forall k, (k < length u)%nat -> match_at r (drop k u ++ s) = None) ->
  replace_all r (u ++ s) = u ++ replace_all r s.
Proof.
  induction u as [|c u IH]; intros H; [done|].
  change ((c :: u) ++ s) with (c :: (u ++ s)).
  rewrite replace_all_miss by (apply (H 0%nat); simpl; lia).
  change ((c :: u) ++ replace_all r s) with (c :: (u ++ replace_all r s)).
  f_equal. apply IH. intros k Hk. apply (H (S k)). simpl. lia.
Qed.







(** ** The four rewriting passes over a rendered unit list *)

Lemma render_cons dl s segs :
  render dl (s :: segs) = render_seg dl s ++ render dl segs.
Proof. reflexivity. Qed.

Lemma render_ext dl dl' segs :
  (forall k, dl k = dl' k) -> render dl segs = render dl' segs.
Proof.
  intros H. induction segs as [|s segs IH]; [done|].
  rewrite !render_cons, IH. f_equal. destruct s; simpl; by rewrite ?H.
Qed.

Lemma render_seg_Mark dl k i t :
  render_seg dl (Mark k i t)
  = d_open (dl k) ++ ToString i ++ d_mid (dl k) ++ t ++ d_close (dl k).
Proof. reflexivity. Qed.

Lemma rewritten_same r k0 dl : rewritten r k0 dl k0 = rule_out r.
Proof. unfold rewritten. by rewrite eqb_reflx. Qed.

Lemma rewritten_other r k0 dl : rewritten r k0 dl (negb k0) = dl (negb k0).
Proof. unfold rewritten. by destruct k0. Qed.

(** A pass in which every delimiter of the other kind is stuck for the
    opening literal of the rule. *)
Lemma pass_generic r k0 dl a p m mid' segs :
  r_open r = a :: p -> is_digit a = false ->
  r_mid r = m :: mid' -> is_digit m = false ->
  dl k0 = rule_in r ->
  stuckb (r_open r) (d_open (dl (negb k0))) = true ->
  stuckb (r_open r) (d_mid (dl (negb k0))) = true ->
  stuckb (r_open r) (d_close (dl (negb k0))) = true ->
  Forall (fun s =>
    match s with
    | Txt t => stuckb (r_open r) t = true
    | Mark k _ t =>
        if Bool.eqb k k0 then stuckb (r_close r) t = true
        else stuckb (r_open r) t = true
    end) segs ->
  replace_all r (render dl segs) = render (rewritten r k0 dl) segs.
Proof.
  intros Hopen Ha Hmid Hm Hdl Ho Hmi Hc Hsegs.
  induction Hsegs as [|s segs Hs Hsegs IH]; [apply replace_all_nil|].
  rewrite !render_cons. destruct s as [t|k i t].
  - change (render_seg ?d (Txt t)) with t. by rewrite replace_all_skip, IH.
  - rewrite !render_seg_Mark. destruct (Bool.eqb k k0) eqn:Hk.
    + apply eqb_prop in Hk as ->. rewrite rewritten_same, Hdl.
      change (d_open (rule_in r)) with (r_open r).
      change (d_mid (rule_in r)) with (r_mid r).
      change (d_close (rule_in r)) with (r_close r).
      change (d_open (rule_out r)) with (t_open r).
      change (d_mid (rule_out r)) with (t_mid r).
      change (d_close (rule_out r)) with (t_close r).
      rewrite <- !app_assoc.
      rewrite (replace_all_hit r _ (ToString i) t (render dl segs)).
      * by rewrite IH.
      * eapply match_at_hit; eauto using ToString_nonempty, ToString_digits.
    + assert (k = negb k0) as -> by (by destruct k, k0).
      rewrite rewritten_other.
      rewrite replace_all_skip, IH; [done|].
      repeat apply stuckb_app; try done.
      rewrite Hopen. apply stuckb_head_free.
      apply digits_Forall_ne; [done|apply ToString_digits].
Qed.

Lemma strip_prefix_del_like t s :
  t <> [] -> not_del_like t = true -> strip_prefix (str "DEL") (t ++ s) = None.
Proof.
  intros Hne Ht. destruct t as [|c t]; [done|].
  apply compatible_strip_prefix. by apply negb_true_iff.
Qed.

Lemma match_at_del_after_nul s :
  strip_prefix (str "DEL") s = None -> match_at del_marker (NUL :: s) = None.
Proof. intros H. apply match_at_miss. exact H. Qed.

Lemma seg_ok_Txt t :
  seg_ok (Txt t) = true ->
  nul_free t = true /\ tag_free t = true /\ not_del_like t = true.
Proof. simpl. by intros [[? ?]%andb_true_iff ?]%andb_true_iff. Qed.

Lemma seg_ok_Ins i t :
  seg_ok (Mark true i t) = true ->
  nul_free t = true /\ tag_free t = true /\ not_del_like t = true.
Proof. simpl. by intros [[? ?]%andb_true_iff ?]%andb_true_iff. Qed.

Lemma seg_ok_Del i t :
  seg_ok (Mark false i t) = true -> nul_free t = true /\ tag_free t = true.
Proof. simpl. by intros [? ?]%andb_true_iff. Qed.

(** The first pass: delete sentinels become placeholder tags; the insert
    sentinels stay, and no delete match begins at one of their [NUL]s. *)
Lemma pass_del_marker segs :
  Forall (fun s => seg_ok s = true) segs ->
  replace_all del_marker (render sentinels segs)
  = render (rewritten del_marker false sentinels) segs
  /\ strip_prefix (str "DEL") (render sentinels segs) = None.
Proof.
  induction 1 as [|s segs Hs Hsegs [IH1 IH2]];
    [split; [apply replace_all_nil|done]|].
  rewrite !render_cons. destruct s as [t|[|] i t].
  - (* equal text *)
    apply seg_ok_Txt in Hs as (Hn & _ & Hd).
    change (render_seg ?d (Txt t)) with t. split.
    + rewrite replace_all_skip, IH1; [done|].
      apply stuckb_head_free, nul_free_Forall, Hn.
    + destruct t as [|c t]; [done|]. by apply strip_prefix_del_like.
  - (* an insertion: its four NULs are passed over *)
    apply seg_ok_Ins in Hs as (Hn & _ & Hd).
    rewrite !render_seg_Mark. split; [|done].
    change (rewritten del_marker false sentinels true) with (sentinels true).
    change (d_open (sentinels true)) with (NUL :: str "INS").
    change (d_mid (sentinels true)) with [NUL].
    change (d_close (sentinels true)) with ((NUL :: str "/INS") ++ [NUL]).
    rewrite <- !app_assoc.
    rewrite (replace_all_skip del_marker (NUL :: str "INS")) by done.
    rewrite (replace_all_skip del_marker (ToString i)).
    2:{ apply stuckb_head_free.
        apply digits_Forall_ne; [done|apply ToString_digits]. }
    change ([NUL] ++ ?x) with (NUL :: x).
    rewrite replace_all_miss.
    2:{ apply match_at_del_after_nul.
        destruct t as [|c t]; [done|]. by apply strip_prefix_del_like. }
    rewrite (replace_all_skip del_marker t).
    2:{ apply stuckb_head_free, nul_free_Forall, Hn. }
    rewrite (replace_all_skip del_marker (NUL :: str "/INS")) by done.
    change ([NUL] ++ ?x) with (NUL :: x).
    rewrite replace_all_miss by (by apply match_at_del_after_nul).
    by rewrite IH1.
  - (* a deletion: matched and rewritten *)
    apply seg_ok_Del in Hs as (Hn & _).
    rewrite !render_seg_Mark. split; [|done].
    rewrite (rewritten_same del_marker false sentinels).
    change (sentinels false) with (rule_in del_marker).
    change (d_open (rule_in del_marker)) with (r_open del_marker).
    change (d_mid (rule_in del_marker)) with (r_mid del_marker).
    change (d_close (rule_in del_marker)) with (r_close del_marker).
    change (d_open (rule_out del_marker)) with (t_open del_marker).
    change (d_mid (rule_out del_marker)) with (t_mid del_marker).
    change (d_close (rule_out del_marker)) with (t_close del_marker).
    rewrite <- !app_assoc.
    rewrite (replace_all_hit del_marker _ (ToString i) t
               (render sentinels segs)).
    + by rewrite IH1.
    + apply (match_at_hit del_marker (ToString i) NUL []); try done.
      * apply ToString_nonempty.
      * apply ToString_digits.
      * apply stuckb_head_free, nul_free_Forall, Hn.
Qed.

Lemma tag_free_parts t :
  tag_free t = true ->
  stuckb (r_open del_tag) t = true /\ stuckb (r_close del_tag) t = true
  /\ stuckb (r_open ins_tag) t = true /\ stuckb (r_close ins_tag) t = true.
Proof.
  unfold tag_free.
  by intros [[[? ?]%andb_true_iff ?]%andb_true_iff ?]%andb_true_iff.
Qed.

Lemma seg_ok_text s :
  seg_ok s = true ->
  match s with Txt t | Mark _ _ t => nul_free t = true /\ tag_free t = true end.
Proof.
  destruct s as [t|[|] i t].
  - by intros (? & ? & _)%seg_ok_Txt.
  - by intros (? & ? & _)%seg_ok_Ins.
  - by intros (? & ?)%seg_ok_Del.
Qed.

(** The second pass: insert sentinels become placeholder tags. *)
Lemma pass_ins_marker segs :
  Forall (fun s => seg_ok s = true) segs ->
  replace_all ins_marker (render (rewritten del_marker false sentinels) segs)
  = render (rewritten ins_marker true (rewritten del_marker false sentinels)) segs.
Proof.
  intros Hsegs.
  apply (pass_generic ins_marker true _ NUL (str "INS") NUL []); try done.
  eapply Forall_impl; [exact Hsegs|]. intros s Hs%seg_ok_text.
  destruct s as [t|k i t]; destruct Hs as [Hn _];
    [|destruct (Bool.eqb k true)];
    apply stuckb_head_free, nul_free_Forall, Hn.
Qed.

(** The third pass: delete placeholders become spans. *)
Lemma pass_del_tag segs :
  Forall (fun s => seg_ok s = true) segs ->
  replace_all del_tag
    (render (rewritten ins_marker true (rewritten del_marker false sentinels)) segs)
  = render (rewritten del_tag false
              (rewritten ins_marker true (rewritten del_marker false sentinels)))
           segs.
Proof.
  intros Hsegs.
  apply (pass_generic del_tag false _ 60 (str "diffdelete data-id=" ++ [QUOTE])
           QUOTE (str ">")); try done.
  eapply Forall_impl; [exact Hsegs|]. intros s Hs%seg_ok_text.
  destruct s as [t|k i t]; destruct Hs as [_ (? & ? & ? & ?)%tag_free_parts];
    [|destruct (Bool.eqb k false)]; done.
Qed.

(** The fourth pass: insert placeholders become spans. *)
Lemma pass_ins_tag segs :
  Forall (fun s => seg_ok s = true) segs ->
  replace_all ins_tag
    (render (rewritten del_tag false
               (rewritten ins_marker true (rewritten del_marker false sentinels)))
            segs)
  = render (rewritten ins_tag true
              (rewritten del_tag false
                 (rewritten ins_marker true
                    (rewritten del_marker false sentinels))))
           segs.
Proof.
  intros Hsegs.
  apply (pass_generic ins_tag true _ 60 (str "diffinsert data-id=" ++ [QUOTE])
           QUOTE (str ">")); try done.
  eapply Forall_impl; [exact Hsegs|]. intros s Hs%seg_ok_text.
  destruct s as [t|k i t]; destruct Hs as [_ (? & ? & ? & ?)%tag_free_parts];
    [|destruct (Bool.eqb k true)]; done.
Qed.

(** ** Unit lists as segment lists *)

Lemma render_app dl segs segs' :
  render dl (segs ++ segs') = render dl segs ++ render dl segs'.
Proof. apply flat_map_app. Qed.

Lemma render_single dl s : render dl [s] = render_seg dl s.
Proof. unfold render. cbn [flat_map]. apply app_nil_r. Qed.

Lemma part_markdown_render i parts :
  flat_map (part_markdown (Some i)) parts
  = render sentinels
      (flat_map (fun p =>
         match Part.type p with
         | Delete => [Mark false i (Part.text p)]
         | Insert => [Mark true i (Part.text p)]
         | Equal => []
         end) parts).
Proof.
  induction parts as [|p parts IH]; [done|].
  change (flat_map ?f (p :: parts)) with (f p ++ flat_map f parts).
  rewrite render_app, IH. f_equal.
  unfold part_markdown. destruct (Part.type p); [|done|].
  - rewrite render_single, render_seg_Mark. reflexivity.
  - rewrite render_single, render_seg_Mark. reflexivity.
Qed.

Lemma buildDiffMarkdown_cons c rest :
  buildDiffMarkdown (c :: rest)
  = match
      match Change.type c with
      | equal =>
          match Change.parts c with
          | p :: _ => Some (Part.text p)
          | [] => None
          end
      | change =>
          Some (flat_map (part_markdown (Change.id c)) (Change.parts c))
      end
    with
    | None => None
    | Some piece =>
        match buildDiffMarkdown rest with
        | Some md => Some (piece ++ md)
        | None => None
        end
    end.
Proof. reflexivity. Qed.

Lemma buildDiffMarkdown_render changes :
  Forall (fun c => unit_ok c = true) changes ->
  buildDiffMarkdown changes
  = Some (render sentinels (flat_map unit_segs changes)).
Proof.
  induction 1 as [|c changes Hc Hrest IH]; [done|].
  rewrite buildDiffMarkdown_cons, IH.
  change (flat_map unit_segs (c :: changes))
    with (unit_segs c ++ flat_map unit_segs changes).
  rewrite render_app. unfold unit_ok, unit_segs in *.
  destruct (Change.type c).
  - destruct (Change.parts c) as [|p ps]; [done|].
    by rewrite render_single.
  - destruct (Change.id c) as [i|]; [|done].
    by rewrite part_markdown_render.
Qed.

Lemma unit_segs_ok c :
  unit_ok c = true -> Forall (fun s => seg_ok s = true) (unit_segs c).
Proof.
  unfold unit_ok, unit_segs. destruct (Change.type c).
  - destruct (Change.parts c) as [|p ps]; [done|]. intros H.
    by repeat constructor.
  - destruct (Change.id c) as [i|]; [|done].
    intros [_ Hparts]%andb_true_iff.
    induction (Change.parts c) as [|p ps IH]; [constructor|].
    simpl in Hparts. apply andb_true_iff in Hparts as [Hp Hps].
    change (flat_map ?f (p :: ps)) with (f p ++ flat_map f ps).
    apply Forall_app. split; [|by apply IH].
    unfold part_ok in Hp. destruct (Part.type p); by repeat constructor.
Qed.

Lemma expected_markup_render changes :
  Forall (fun c => unit_ok c = true) changes ->
  expected_markup changes
  = render (rewritten ins_tag true
              (rewritten del_tag false
                 (rewritten ins_marker true
                    (rewritten del_marker false sentinels))))
           (flat_map unit_segs changes).
Proof.
  induction 1 as [|c changes Hc Hrest IH]; [done|].
  change (flat_map unit_segs (c :: changes))
    with (unit_segs c ++ flat_map unit_segs changes).
  change (expected_markup (c :: changes))
    with (unit_markup c ++ expected_markup changes).
  rewrite render_app, IH. f_equal.
  unfold unit_ok, unit_segs, unit_markup in *.
  destruct (Change.type c).
  - destruct (Change.parts c) as [|p ps]; [done|].
    by rewrite render_single.
  - destruct (Change.id c) as [i|]; [|done]. clear Hc.
    induction (Change.parts c) as [|p ps IHp]; [done|].
    change (flat_map ?f (p :: ps)) with (f p ++ flat_map f ps).
    rewrite render_app, IHp. f_equal.
    destruct (Part.type p); [|done|].
    + rewrite render_single, render_seg_Mark. reflexivity.
    + rewrite render_single, render_seg_Mark. reflexivity.
Qed.

(** ** Literals inside a text *)

Lemma headed_cons a P : headed a (a :: P).
Proof. reflexivity. Qed.

(** A literal without [a] that matches at the head of [u ++ P] lies
    within [u] when [P] is empty or begins with [a]. *)
Lemma strip_prefix_inside a w : forall u P,
  Forall (fun x => x <> a) w -> headed a P ->
  strip_prefix w (u ++ P) = (fun y => y ++ P) <$> strip_prefix w u.
Proof.
  induction w as [|b w IH]; intros u P Hw HP; [done|].
  inversion Hw as [|? ? Hb Hw']; subst.
  destruct u as [|c u].
  - simpl. destruct P as [|p P]; [done|]. simpl in HP. subst p.
    by rewrite (proj2 (N.eqb_neq b a)).
  - simpl. destruct (b =? c); [by apply IH|done].
Qed.

Lemma strip_prefix_inside_cons a a0 w c u P :
  Forall (fun x => x <> a) w -> headed a P ->
  strip_prefix (a0 :: w) ((c :: u) ++ P)
  = (fun y => y ++ P) <$> strip_prefix (a0 :: w) (c :: u).
Proof.
  intros Hw HP. simpl. destruct (a0 =? c); [|done].
  by apply (strip_prefix_inside a).
Qed.

Lemma take_digits_inside a : forall u P,
  is_digit a = false -> headed a P ->
  take_digits (u ++ P)
  = ((take_digits u).1, (take_digits u).2 ++ P).
Proof.
  induction u as [|c u IH]; intros P Ha HP.
  - simpl. destruct P as [|p P]; [done|]. simpl in HP. subst p.
    simpl. by rewrite Ha.
  - simpl. destruct (is_digit c); [|done].
    rewrite (IH P Ha HP). by destruct (take_digits u).
Qed.

Lemma match_at_open_at r s :
  match_at r s
  = match open_at r s with
    | Some (ds, s3) =>
        match split_at_first (r_close r) s3 with
        | Some (content, rest) => Some (ds, content, rest)
        | None => None
        end
    | None => None
    end.
Proof.
  unfold match_at, open_at.
  destruct (strip_prefix (r_open r) s) as [s1|]; [|done].
  destruct (take_digits s1) as [[|d ds] s2]; [done|].
  by destruct (strip_prefix (r_mid r) s2).
Qed.

Lemma split_at_first_cons cl c s :
  split_at_first cl (c :: s)
  = match strip_prefix cl (c :: s) with
    | Some rest => Some ([], rest)
    | None =>
        match split_at_first cl s with
        | Some (content, rest) => Some (c :: content, rest)
        | None => None
        end
    end.
Proof. reflexivity. Qed.

Lemma split_none_cons cl c s :
  strip_prefix cl (c :: s) = None -> split_at_first cl s = None ->
  split_at_first cl (c :: s) = None.
Proof. intros H1 H2. by rewrite split_at_first_cons, H1, H2. Qed.

Lemma split_none_tail cl c s :
  split_at_first cl (c :: s) = None -> split_at_first cl s = None.
Proof.
  rewrite split_at_first_cons.
  destruct (strip_prefix cl (c :: s)); [done|].
  by destruct (split_at_first cl s) as [[? ?]|].
Qed.

Lemma split_none_head cl c s :
  split_at_first cl (c :: s) = None -> strip_prefix cl (c :: s) = None.
Proof.
  rewrite split_at_first_cons. by destruct (strip_prefix cl (c :: s)).
Qed.

(** A text that is stuck for the literal adds no occurrence. *)
Lemma split_none_stuck cl u Y :
  stuckb cl u = true -> split_at_first cl Y = None ->
  split_at_first cl (u ++ Y) = None.
Proof.
  intros Hu HY. induction u as [|c u IH]; [done|].
  rewrite stuckb_cons in Hu. apply andb_true_iff in Hu as [Hc Hu].
  apply negb_true_iff in Hc.
  change ((c :: u) ++ Y) with (c :: (u ++ Y)). apply split_none_cons.
  - change (c :: (u ++ Y)) with ((c :: u) ++ Y).
    by apply compatible_strip_prefix.
  - by apply IH.
Qed.

(** Two texts without the literal, the second empty or beginning with
    the code unit that only begins the literal: no occurrence where
    they meet. *)
Lemma split_none_app a a0 w y P :
  Forall (fun x => x <> a) w -> headed a P ->
  split_at_first (a0 :: w) y = None -> split_at_first (a0 :: w) P = None ->
  split_at_first (a0 :: w) (y ++ P) = None.
Proof.
  intros Hw HP Hy HPn. induction y as [|c y IH]; [done|].
  change ((c :: y) ++ P) with (c :: (y ++ P)). apply split_none_cons.
  - change (c :: (y ++ P)) with ((c :: y) ++ P).
    rewrite (strip_prefix_inside_cons a) by done.
    by rewrite (split_none_head _ _ _ Hy).
  - apply IH. by apply split_none_tail in Hy.
Qed.

(** The closing that follows a text without the literal is the first
    one. *)
Lemma own_split a w t R :
  Forall (fun x => x <> a) w ->
  split_at_first (a :: w) t = None ->
  split_at_first (a :: w) (t ++ (a :: w) ++ R) = Some (t, R).
Proof.
  intros Hw Ht. induction t as [|c t IH].
  - simpl app. rewrite split_at_first_cons.
    change (a :: w ++ R) with ((a :: w) ++ R). by rewrite strip_prefix_app.
  - change ((c :: t) ++ (a :: w) ++ R) with (c :: (t ++ (a :: w) ++ R)).
    rewrite split_at_first_cons.
    change (c :: (t ++ (a :: w) ++ R)) with ((c :: t) ++ (a :: w) ++ R).
    rewrite (strip_prefix_inside_cons a) by done.
    rewrite (split_none_head _ _ _ Ht). simpl fmap.
    rewrite IH; [done|]. by apply split_none_tail in Ht.
Qed.

(** ** Texts in which no match begins *)

Lemma quiet_nil r P : quiet r [] P.
Proof. intros k Hk. simpl in Hk. lia. Qed.

Lemma quiet_cons r c u P :
  match_at r (c :: u ++ P) = None -> quiet r u P -> quiet r (c :: u) P.
Proof. intros Hc Hu [|k] Hk; [done|]. apply Hu. simpl in Hk. lia. Qed.

Lemma quiet_app r u v P :
  quiet r u (v ++ P) -> quiet r v P -> quiet r (u ++ v) P.
Proof.
  intros Hu Hv. induction u as [|c u IH]; [done|].
  change ((c :: u) ++ v) with (c :: (u ++ v)). apply quiet_cons.
  - rewrite <- app_assoc. apply (Hu 0%nat). simpl. lia.
  - apply IH. intros k Hk. apply (Hu (S k)). simpl. lia.
Qed.

Lemma stuck_quiet r u P : stuckb (r_open r) u = true -> quiet r u P.
Proof.
  intros Hu. induction u as [|c u IH]; [apply quiet_nil|].
  rewrite stuckb_cons in Hu. apply andb_true_iff in Hu as [Hc Hu].
  apply negb_true_iff in Hc. apply quiet_cons; [|by apply IH].
  apply match_at_miss. change (c :: u ++ P) with ((c :: u) ++ P).
  by apply compatible_strip_prefix.
Qed.

Lemma replace_all_quiet_text r u s :
  quiet r u s -> replace_all r (u ++ s) = u ++ replace_all r s.
Proof. apply replace_all_quiet. Qed.

(** ** Merged segment lists *)

Lemma merged_tail s rest : merged (s :: rest) = true -> merged rest = true.
Proof. destruct s as [t|k i t]; [|done]. simpl. by destruct rest as [|[?|? ? ?] ?]. Qed.

Lemma merged_after_txt t rest :
  merged (Txt t :: rest) = true -> rest = [] \/ starts_with_mark rest = true.
Proof. destruct rest as [|[?|? ? ?] ?]; simpl; [by left|done|by right]. Qed.

Lemma merge_txt_merged segs : merged (merge_txt segs) = true.
Proof.
  induction segs as [|s segs IH]; [done|].
  destruct s as [t|k i t]; [|exact IH]. simpl.
  destruct (merge_txt segs) as [|[t'|k' i' t'] rest'] eqn:E; [done| |exact IH].
  simpl in IH |- *. by destruct rest' as [|[?|? ? ?] ?].
Qed.

Lemma render_merge_txt dl segs : render dl (merge_txt segs) = render dl segs.
Proof.
  induction segs as [|s segs IH]; [done|].
  destruct s as [t|k i t].
  - simpl merge_txt. rewrite (render_cons dl (Txt t) segs), <- IH.
    destruct (merge_txt segs) as [|[t'|k' i' t'] rest']; [done| |done].
    rewrite !render_cons. simpl render_seg. by rewrite app_assoc.
  - simpl merge_txt. by rewrite !render_cons, IH.
Qed.

(** ** A pass over placeholder tags *)

Section TagPass.
Variables (r : marker_rule) (k0 : bool) (dl : bool -> delims).
Variables (a m : N) (o' mid' c' : jsstring).
Hypothesis Hopen : r_open r = a :: o'.
Hypothesis Ho' : Forall (fun x => x <> a) o'.
Hypothesis Ha : is_digit a = false.
Hypothesis Hmid : r_mid r = m :: mid'.
Hypothesis Hm : is_digit m = false.
Hypothesis Hmida : Forall (fun x => x <> a) (r_mid r).
Hypothesis Hclose : r_close r = a :: c'.
Hypothesis Hc' : Forall (fun x => x <> a) c'.
Hypothesis Hdl : dl k0 = rule_in r.
Hypothesis Hoo : stuckb (r_open r) (d_open (dl (negb k0))) = true.
Hypothesis Hom : stuckb (r_open r) (d_mid (dl (negb k0))) = true.
Hypothesis Hoc : stuckb (r_open r) (d_close (dl (negb k0))) = true.
Hypothesis Hco : stuckb (r_close r) (d_open (dl (negb k0))) = true.
Hypothesis Hcm : stuckb (r_close r) (d_mid (dl (negb k0))) = true.
Hypothesis Hcc : stuckb (r_close r) (d_close (dl (negb k0))) = true.
Hypothesis Hho : exists x, d_open (dl (negb k0)) = a :: x.
Hypothesis Hhc : exists x, d_close (dl (negb k0)) = a :: x.

Lemma open_at_inside c u P :
  headed a P ->
  open_at r ((c :: u) ++ P)
  = (fun '(ds, y) => (ds, y ++ P)) <$> open_at r (c :: u).
Proof.
  intros HP. unfold open_at. rewrite Hopen.
  rewrite (strip_prefix_inside_cons a) by done.
  destruct (strip_prefix (a :: o') (c :: u)) as [s1|]; [|done].
  simpl fmap. cbv iota beta. rewrite (take_digits_inside a) by done.
  destruct (take_digits s1) as [[|d ds] s2]; [done|]. cbn [fst snd].
  rewrite (strip_prefix_inside a) by done.
  by destruct (strip_prefix (r_mid r) s2).
Qed.

Lemma d_open_headed k : exists x, d_open (dl k) = a :: x.
Proof.
  destruct (Bool.eqb k k0) eqn:E.
  - apply eqb_prop in E as ->. rewrite Hdl. by exists o'.
  - assert (k = negb k0) as -> by (by destruct k, k0). exact Hho.
Qed.

Lemma render_headed segs :
  segs = [] \/ starts_with_mark segs = true -> headed a (render dl segs).
Proof.
  intros [->|H]; [done|]. destruct segs as [|[t|k i t] rest]; [done..|].
  rewrite render_cons, render_seg_Mark.
  destruct (d_open_headed k) as [x ->]. done.
Qed.

Lemma exposed_quiet later t P :
  exposed_ok r later t = true -> headed a P ->
  (later = false -> split_at_first (r_close r) P = None) ->
  quiet r t P.
Proof.
  intros Ht HP Hlater. induction t as [|c t IH]; [apply quiet_nil|].
  simpl in Ht. apply andb_true_iff in Ht as [Hc Ht].
  apply quiet_cons; [|by apply IH].
  change (c :: t ++ P) with ((c :: t) ++ P).
  rewrite match_at_open_at, open_at_inside by done.
  destruct (open_at r (c :: t)) as [[ds y]|]; [|done]. simpl fmap.
  apply andb_true_iff in Hc as [Hy Hl].
  apply negb_true_iff in Hy, Hl. unfold occurs in Hy.
  assert (Hn : split_at_first (r_close r) (y ++ P) = None).
  { rewrite Hclose. apply (split_none_app a); try done.
    - rewrite <- Hclose. by destruct (split_at_first (r_close r) y).
    - rewrite <- Hclose. by apply Hlater. }
  by rewrite Hn.
Qed.

Lemma closes_later_cons s rest :
  closes_later r k0 (s :: rest)
  = match s with
    | Txt t => occurs (r_close r) t
    | Mark k _ t => Bool.eqb k k0 || occurs (r_close r) t
    end || closes_later r k0 rest.
Proof. reflexivity. Qed.

Lemma occurs_false cl t : occurs cl t = false -> split_at_first cl t = None.
Proof. unfold occurs. by destruct (split_at_first cl t). Qed.

Lemma digits_stuck p i : stuckb (a :: p) (ToString i) = true.
Proof.
  apply stuckb_head_free, digits_Forall_ne; [done|apply ToString_digits].
Qed.

Lemma closes_none_render post :
  merged post = true -> closes_later r k0 post = false ->
  split_at_first (r_close r) (render dl post) = None.
Proof.
  induction post as [|s rest IH]; intros Hmerged Hlater.
  - rewrite Hclose. done.
  - rewrite closes_later_cons in Hlater.
    apply orb_false_iff in Hlater as [Hs Hrest].
    specialize (IH (merged_tail _ _ Hmerged) Hrest).
    rewrite render_cons. destruct s as [t|k i t].
    + simpl render_seg. rewrite Hclose. apply (split_none_app a); try done.
      * apply render_headed. by apply (merged_after_txt t).
      * rewrite <- Hclose. by apply occurs_false.
      * by rewrite <- Hclose.
    + apply orb_false_iff in Hs as [Hk Ht].
      assert (k = negb k0) as -> by (by destruct k, k0).
      rewrite render_seg_Mark, <- !app_assoc.
      apply split_none_stuck; [done|].
      apply split_none_stuck; [rewrite Hclose; apply digits_stuck|].
      apply split_none_stuck; [done|].
      destruct Hhc as [x Hx].
      rewrite Hclose. apply (split_none_app a); try done.
      * by rewrite Hx.
      * rewrite <- Hclose. by apply occurs_false.
      * rewrite <- Hclose. by apply split_none_stuck.
Qed.

Lemma tag_pass segs :
  merged segs = true -> tags_safe r k0 segs = true ->
  replace_all r (render dl segs) = render (rewritten r k0 dl) segs.
Proof.
  induction segs as [|s rest IH]; intros Hmerged Hsafe;
    [apply replace_all_nil|].
  simpl in Hsafe. apply andb_true_iff in Hsafe as [Hs Hrest].
  specialize (IH (merged_tail _ _ Hmerged) Hrest).
  pose proof (closes_none_render rest (merged_tail _ _ Hmerged)) as Hnone.
  rewrite !render_cons. destruct s as [t|k i t].
  - simpl render_seg. rewrite replace_all_quiet_text, IH; [done|].
    eapply exposed_quiet; [exact Hs| |exact Hnone].
    apply render_headed. by apply (merged_after_txt t).
  - rewrite !render_seg_Mark. destruct (Bool.eqb k k0) eqn:Hk.
    + apply eqb_prop in Hk as ->. rewrite rewritten_same, Hdl.
      change (d_open (rule_in r)) with (r_open r).
      change (d_mid (rule_in r)) with (r_mid r).
      change (d_close (rule_in r)) with (r_close r).
      change (d_open (rule_out r)) with (t_open r).
      change (d_mid (rule_out r)) with (t_mid r).
      change (d_close (rule_out r)) with (t_close r).
      rewrite <- !app_assoc.
      rewrite (replace_all_hit r _ (ToString i) t (render dl rest)).
      * by rewrite IH.
      * eapply match_at_own; eauto using ToString_nonempty, ToString_digits.
        rewrite Hclose. apply own_split; [done|].
        rewrite <- Hclose. apply occurs_false. by apply negb_true_iff.
    + assert (k = negb k0) as -> by (by destruct k, k0).
      rewrite rewritten_other.
      rewrite replace_all_quiet_text, IH; [done|].
      destruct Hhc as [x Hx].
      apply quiet_app; [by apply stuck_quiet|].
      apply quiet_app; [apply stuck_quiet; rewrite Hopen; apply digits_stuck|].
      apply quiet_app; [by apply stuck_quiet|].
      apply quiet_app; [|by apply stuck_quiet].
      eapply exposed_quiet; [exact Hs|by rewrite Hx|].
      intros Hl. apply split_none_stuck; [done|]. by apply Hnone.
Qed.

End TagPass.

(** ** The pass over delete sentinels *)

(** Between two [NUL]s a text without [NUL] is read as a whole. *)
Lemma strip_field body : forall g Z Z',
  Forall (fun x => x <> NUL) body -> Forall (fun x => x <> NUL) g ->
  strip_prefix (body ++ [NUL]) (g ++ NUL :: Z) = Some Z' -> g = body.
Proof.
  induction body as [|b body IH]; intros g Z Z' Hb Hg H.
  - destruct g as [|c g]; [done|]. inversion Hg as [|? ? Hc _]; subst.
    cbn [app strip_prefix] in H.
    by rewrite (proj2 (N.eqb_neq NUL c)) in H.
  - inversion Hb as [|? ? Hb0 Hb']; subst. destruct g as [|c g].
    + cbn [app strip_prefix] in H.
      by rewrite (proj2 (N.eqb_neq b NUL)) in H.
    + inversion Hg as [|? ? Hc Hg']; subst. cbn [app strip_prefix] in H.
      destruct (N.eqb_spec b c) as [->|]; [|done].
      by rewrite (IH g Z Z').
Qed.

Lemma strip_field_end body : forall g,
  Forall (fun x => x <> NUL) g -> strip_prefix (body ++ [NUL]) g = None.
Proof.
  induction body as [|b body IH]; intros g Hg.
  - destruct g as [|c g]; [done|]. inversion Hg as [|? ? Hc _]; subst.
    cbn [app strip_prefix]. by rewrite (proj2 (N.eqb_neq NUL c)).
  - destruct g as [|c g]; [done|]. inversion Hg as [|? ? Hc Hg']; subst.
    cbn [app strip_prefix]. destruct (b =? c); [by apply IH|done].
Qed.

Lemma DEL_nul_free : Forall (fun x => x <> NUL) (str "DEL").
Proof. repeat (constructor; [discriminate|]). constructor. Qed.

Lemma close_DEL_nul_free : Forall (fun x => x <> NUL) (str "/DEL").
Proof. repeat (constructor; [discriminate|]). constructor. Qed.

(** A [NUL] before a text without [NUL] opens a delete sentinel only
    if the text is exactly [DEL] and digits and a [NUL] follows it. *)
Lemma match_at_del_field g P :
  nul_free g = true -> headed NUL P ->
  (del_like g = true -> forall Y, P = NUL :: Y ->
     split_at_first (r_close del_marker) Y = None) ->
  match_at del_marker (NUL :: g ++ P) = None.
Proof.
  intros Hg HP Hlike. apply nul_free_Forall in Hg.
  rewrite match_at_open_at. unfold open_at.
  change (strip_prefix (r_open del_marker) (NUL :: g ++ P))
    with (strip_prefix (str "DEL") (g ++ P)).
  rewrite (strip_prefix_inside NUL) by (done || apply DEL_nul_free).
  unfold del_like in Hlike.
  destruct (strip_prefix (str "DEL") g) as [u1|] eqn:H1; [|done].
  simpl fmap. cbv iota beta.
  rewrite (take_digits_inside NUL) by done.
  apply strip_prefix_Some in H1.
  destruct (take_digits_spec u1) as [Hu1 _].
  destruct (take_digits u1) as [[|d ds] u2]; [done|]. cbn [fst snd] in *.
  destruct u2 as [|c u2].
  - destruct P as [|p P]; [done|]. simpl in HP. subst p.
    change (strip_prefix (r_mid del_marker) ([] ++ NUL :: P)) with (Some P).
    cbv iota beta. by rewrite (Hlike eq_refl P eq_refl).
  - assert (Hc : c <> NUL).
    { subst g u1. rewrite !Forall_app in Hg.
      destruct Hg as (_ & _ & Hg). by inversion Hg. }
    change (strip_prefix (r_mid del_marker) ((c :: u2) ++ P))
      with (if NUL =? c then Some (u2 ++ P) else None).
    by rewrite (proj2 (N.eqb_neq NUL c)).
Qed.

Lemma sentinels_headed segs :
  segs = [] \/ starts_with_mark segs = true ->
  headed NUL (render sentinels segs).
Proof.
  intros [->|H]; [done|]. destruct segs as [|[t|k i t] rest]; [done..|].
  rewrite render_cons, render_seg_Mark. by destruct k.
Qed.

Lemma seg_plain_text s :
  seg_plain s = true ->
  match s with Txt t | Mark _ _ t => nul_free t = true end.
Proof. destruct s as [t|k i t]; simpl; [done|]. by intros [_ ?]%andb_true_iff. Qed.

Lemma nul_free_stuck p t : nul_free t = true -> stuckb (NUL :: p) t = true.
Proof. intros H. by apply stuckb_head_free, nul_free_Forall. Qed.

(** No closing delete sentinel in the rest of the document. *)
Lemma no_close_sentinel rest : forall am,
  forallb seg_plain rest = true -> merged rest = true ->
  close_sentinel_later am rest = false ->
  split_at_first (r_close del_marker)
    ((if am then [NUL] else []) ++ render sentinels rest) = None.
Proof.
  induction rest as [|s rest IH]; intros am Hplain Hmerged Hlater.
  - by destruct am.
  - simpl in Hplain. apply andb_true_iff in Hplain as [Hs Hplain].
    apply seg_plain_text in Hs.
    pose proof (merged_tail _ _ Hmerged) as Hm'.
    rewrite render_cons. destruct s as [g|k i t].
    + simpl in Hlater. apply orb_false_iff in Hlater as [Hhere Hrest].
      specialize (IH false Hplain Hm' Hrest). simpl app in IH.
      simpl render_seg.
      assert (Hg : split_at_first (r_close del_marker)
                     (g ++ render sentinels rest) = None).
      { apply split_none_stuck; [by apply nul_free_stuck|done]. }
      destruct am; [|done]. simpl app. apply split_none_cons; [|done].
      change (strip_prefix (r_close del_marker)
                (NUL :: g ++ render sentinels rest))
        with (strip_prefix (str "/DEL" ++ [NUL]) (g ++ render sentinels rest)).
      destruct (merged_after_txt _ _ Hmerged) as [->|Hmark].
      * rewrite app_nil_r. by apply strip_field_end, nul_free_Forall.
      * destruct rest as [|[t'|k' i' t'] rest']; [done..|].
        rewrite render_cons, render_seg_Mark.
        destruct (strip_prefix _ _) as [Z'|] eqn:E; [|done].
        exfalso. assert (g = str "/DEL") as ->.
        { destruct k'.
          - change (d_open (sentinels true) ++ ?x)
              with (NUL :: (str "INS" ++ x)) in E.
            eapply (strip_field (str "/DEL") g _ _ close_DEL_nul_free);
              [by apply nul_free_Forall|exact E].
          - change (d_open (sentinels false) ++ ?x)
              with (NUL :: (str "DEL" ++ x)) in E.
            eapply (strip_field (str "/DEL") g _ _ close_DEL_nul_free);
              [by apply nul_free_Forall|exact E]. }
        done.
    + simpl in Hlater.
      apply orb_false_iff in Hlater as [[Hk Ht]%orb_false_iff Hrest].
      apply negb_false_iff in Hk. subst k.
      specialize (IH true Hplain Hm' Hrest).
      rewrite render_seg_Mark.
      change (d_open (sentinels true)) with (NUL :: str "INS").
      change (d_mid (sentinels true)) with [NUL].
      change (d_close (sentinels true)) with ((NUL :: str "/INS") ++ [NUL]).
      rewrite <- !app_assoc.
      assert (H5 : split_at_first (r_close del_marker)
        ((NUL :: str "INS") ++ ToString i ++ [NUL] ++ t
           ++ (NUL :: str "/INS") ++ [NUL] ++ render sentinels rest) = None).
      { apply split_none_stuck; [done|].
        apply split_none_stuck.
        { apply stuckb_head_free, digits_Forall_ne;
            [done|apply ToString_digits]. }
        change ([NUL] ++ ?x) with (NUL :: x) at 1.
        apply split_none_cons.
        - change (strip_prefix (r_close del_marker) (NUL :: ?x))
            with (strip_prefix (str "/DEL" ++ [NUL]) x).
          change ((NUL :: str "/INS") ++ ?x) with (NUL :: (str "/INS" ++ x)).
          destruct (strip_prefix _ _) as [Z'|] eqn:E; [|done].
          exfalso. assert (t = str "/DEL") as ->.
          { eapply (strip_field (str "/DEL") t _ _ close_DEL_nul_free);
              [by apply nul_free_Forall|exact E]. }
          done.
        - apply split_none_stuck; [by apply nul_free_stuck|].
          apply split_none_stuck; [done|]. exact IH. }
      destruct am; [|exact H5]. simpl app at 1.
      apply split_none_cons; [done|exact H5].
Qed.

Lemma sentinel_pass segs :
  forallb seg_plain segs = true -> merged segs = true ->
  sentinels_safe segs = true ->
  replace_all del_marker (render sentinels segs)
  = render (rewritten del_marker false sentinels) segs.
Proof.
  induction segs as [|s rest IH]; intros Hplain Hmerged Hsafe;
    [apply replace_all_nil|].
  simpl in Hplain. apply andb_true_iff in Hplain as [Hs Hplain].
  pose proof (seg_plain_text _ Hs) as Ht.
  pose proof (merged_tail _ _ Hmerged) as Hm'.
  rewrite !render_cons. destruct s as [t|[|] i t].
  - simpl render_seg.
    rewrite replace_all_skip, IH; [done..|by apply nul_free_stuck].
  - (* an insertion: its four NULs are passed over *)
    simpl in Hsafe.
    apply andb_true_iff in Hsafe as [[Hown Hgap]%andb_true_iff Hsafe].
    rewrite !render_seg_Mark.
    change (rewritten del_marker false sentinels true) with (sentinels true).
    change (d_open (sentinels true)) with (NUL :: str "INS").
    change (d_mid (sentinels true)) with [NUL].
    change (d_close (sentinels true)) with ((NUL :: str "/INS") ++ [NUL]).
    rewrite <- !app_assoc.
    rewrite (replace_all_skip del_marker (NUL :: str "INS")) by done.
    rewrite (replace_all_skip del_marker (ToString i)).
    2:{ apply stuckb_head_free.
        apply digits_Forall_ne; [done|apply ToString_digits]. }
    change ([NUL] ++ ?x) with (NUL :: x).
    rewrite replace_all_miss.
    2:{ apply (match_at_del_field t
                 (NUL :: (str "/INS" ++ NUL :: render sentinels rest)));
          [done|done|].
        intros Hlike Y HY.
        assert (Y = str "/INS" ++ NUL :: render sentinels rest) as ->
          by congruence.
        rewrite Hlike in Hown. apply negb_true_iff in Hown.
        apply split_none_stuck; [done|].
        exact (no_close_sentinel rest true Hplain Hm' Hown). }
    rewrite (replace_all_skip del_marker t) by (by apply nul_free_stuck).
    rewrite (replace_all_skip del_marker (NUL :: str "/INS")) by done.
    change ([NUL] ++ ?x) with (NUL :: x).
    rewrite replace_all_miss; [by rewrite IH|].
    destruct rest as [|[g|k' i' t'] rest'].
    + done.
    + rewrite render_cons. simpl render_seg.
      simpl in Hplain. apply andb_true_iff in Hplain as [Hg Hplain'].
      apply match_at_del_field; [done| |].
      * apply sentinels_headed. by apply (merged_after_txt g).
      * intros Hlike Y HY.
        destruct rest' as [|[g'|k'' i'' t''] rest'']; [done|done|].
        rewrite Hlike in Hgap. apply negb_true_iff in Hgap.
        pose proof (no_close_sentinel _ false Hplain'
                      (merged_tail _ _ Hm') Hgap) as Hn.
        change (split_at_first (r_close del_marker)
                  (render sentinels (Mark k'' i'' t'' :: rest'')) = None) in Hn.
        rewrite HY in Hn. by apply split_none_tail in Hn.
    + rewrite render_cons, render_seg_Mark. apply match_at_miss.
      by destruct k'.
  - (* a deletion: matched and rewritten *)
    simpl in Hsafe.
    rewrite !render_seg_Mark.
    rewrite (rewritten_same del_marker false sentinels).
    change (sentinels false) with (rule_in del_marker).
    change (d_open (rule_in del_marker)) with (r_open del_marker).
    change (d_mid (rule_in del_marker)) with (r_mid del_marker).
    change (d_close (rule_in del_marker)) with (r_close del_marker).
    change (d_open (rule_out del_marker)) with (t_open del_marker).
    change (d_mid (rule_out del_marker)) with (t_mid del_marker).
    change (d_close (rule_out del_marker)) with (t_close del_marker).
    rewrite <- !app_assoc.
    rewrite (replace_all_hit del_marker _ (ToString i) t
               (render sentinels rest)).
    + by rewrite IH.
    + apply (match_at_hit del_marker (ToString i) NUL []); try done.
      * apply ToString_nonempty.
      * apply ToString_digits.
      * by apply nul_free_stuck.
Qed.

(** ** The four passes over a unit list that the codec carries through *)

Lemma plain_ins_marker segs :
  forallb seg_plain segs = true ->
  replace_all ins_marker (render (rewritten del_marker false sentinels) segs)
  = render (rewritten ins_marker true (rewritten del_marker false sentinels)) segs.
Proof.
  intros Hplain.
  apply (pass_generic ins_marker true _ NUL (str "INS") NUL []); try done.
  rewrite forallb_forall in Hplain. apply Forall_forall.
  intros s Hs%list_elem_of_In. specialize (Hplain s Hs).
  apply seg_plain_text in Hplain.
  destruct s as [t|k i t]; [|destruct (Bool.eqb k true)];
    by apply nul_free_stuck.
Qed.

Lemma lt_free (s : string) :
  forallb (fun x => negb (x =? 60)) (str s) = true ->
  Forall (fun x => x <> 60) (str s).
Proof.
  rewrite forallb_forall, Forall_forall.
  intros H c Hc%list_elem_of_In. specialize (H c Hc).
  by apply negb_true_iff, N.eqb_neq in H.
Qed.

Lemma lt_free_list (l : jsstring) :
  forallb (fun x => negb (x =? 60)) l = true -> Forall (fun x => x <> 60) l.
Proof.
  rewrite forallb_forall, Forall_forall.
  intros H c Hc%list_elem_of_In. specialize (H c Hc).
  by apply negb_true_iff, N.eqb_neq in H.
Qed.

Lemma safe_del_tag segs :
  merged segs = true -> tags_safe del_tag false segs = true ->
  replace_all del_tag
    (render (rewritten ins_marker true (rewritten del_marker false sentinels)) segs)
  = render (rewritten del_tag false
              (rewritten ins_marker true (rewritten del_marker false sentinels)))
           segs.
Proof.
  apply (tag_pass del_tag false _ 60 QUOTE
           (str "diffdelete data-id=" ++ [QUOTE]) (str ">")
           (str "/diffdelete>")); try done;
    try (by apply lt_free_list); by eexists.
Qed.

Lemma safe_ins_tag segs :
  merged segs = true -> tags_safe ins_tag true segs = true ->
  replace_all ins_tag
    (render (rewritten del_tag false
               (rewritten ins_marker true (rewritten del_marker false sentinels)))
            segs)
  = render (rewritten ins_tag true
              (rewritten del_tag false
                 (rewritten ins_marker true
                    (rewritten del_marker false sentinels))))
           segs.
Proof.
  apply (tag_pass ins_tag true _ 60 QUOTE
           (str "diffinsert data-id=" ++ [QUOTE]) (str ">")
           (str "/diffinsert>")); try done;
    try (by apply lt_free_list); by eexists.
Qed.

Lemma unmarked_parts_markdown i parts :
  forallb (fun p => match Part.type p with Equal => true | _ => false end)
          parts = true ->
  flat_map (part_markdown i) parts = [].
Proof.
  induction parts as [|p parts IH]; [done|]. simpl.
  intros [Hp Hparts]%andb_true_iff. rewrite (IH Hparts), app_nil_r.
  unfold part_markdown. by destruct (Part.type p).
Qed.

Lemma buildDiffMarkdown_shape changes :
  forallb unit_shape changes = true ->
  buildDiffMarkdown changes
  = Some (render sentinels (flat_map unit_segs changes)).
Proof.
  induction changes as [|c changes IH]; [done|].
  intros Hshape. cbn [forallb] in Hshape.
  apply andb_true_iff in Hshape as [Hc Hrest].
  rewrite buildDiffMarkdown_cons, (IH Hrest).
  change (flat_map unit_segs (c :: changes))
    with (unit_segs c ++ flat_map unit_segs changes).
  rewrite render_app. unfold unit_shape, unit_segs in *.
  destruct (Change.type c).
  - destruct (Change.parts c) as [|p ps]; [done|].
    by rewrite render_single.
  - destruct (Change.id c) as [i|].
    + by rewrite part_markdown_render.
    + by rewrite unmarked_parts_markdown.
Qed.

Lemma expected_markup_shape changes :
  forallb unit_shape changes = true ->
  expected_markup changes
  = render (rewritten ins_tag true
              (rewritten del_tag false
                 (rewritten ins_marker true
                    (rewritten del_marker false sentinels))))
           (flat_map unit_segs changes).
Proof.
  induction changes as [|c changes IH]; [done|].
  intros Hshape. cbn [forallb] in Hshape.
  apply andb_true_iff in Hshape as [Hc Hrest].
  change (flat_map unit_segs (c :: changes))
    with (unit_segs c ++ flat_map unit_segs changes).
  change (expected_markup (c :: changes))
    with (unit_markup c ++ expected_markup changes).
  rewrite render_app, (IH Hrest). f_equal.
  unfold unit_shape, unit_segs, unit_markup in *.
  destruct (Change.type c).
  - destruct (Change.parts c) as [|p ps]; [done|].
    by rewrite render_single.
  - destruct (Change.id c) as [i|]; clear Hc.
    + induction (Change.parts c) as [|p ps IHp]; [done|].
      change (flat_map ?f (p :: ps)) with (f p ++ flat_map f ps).
      rewrite render_app, IHp. f_equal.
      destruct (Part.type p); [|done|].
      * rewrite render_single, render_seg_Mark. reflexivity.
      * rewrite render_single, render_seg_Mark. reflexivity.
    + induction (Change.parts c) as [|p ps IHp]; [done|].
      change (flat_map ?f (p :: ps)) with (f p ++ flat_map f ps).
      rewrite IHp. by destruct (Part.type p).
Qed.

(** C4 (amended). For every unit list that the codec carries through
    ([round_trip_ok]: equal units have a first part, change units with a
    Delete or Insert part have a numeric id, a safe integer; the texts
    written to the document hold no sentinel byte; the text of a Delete
    part does not hold [</diffdelete>] and the text of an Insert part
    does not hold [</diffinsert>]; no other text holds a complete
    opening placeholder tag that its closing tag follows anywhere later
    in the document; and no [NUL] of an insertion, with the text after
    it, reads as an opening delete sentinel that a closing delete
    sentinel follows), building the markdown succeeds and the two
    decoding steps give exactly the expected markup: each Delete and
    Insert part as a span with the id of its unit and the text of the
    part, equal text unchanged. *)
Theorem marker_round_trip (changes : list Change.t) :
  round_trip_ok changes = true ->
  exists md,
    buildDiffMarkdown changes = Some md
    /\ placeholdersToSpans (markersToPlaceholders md) = expected_markup changes.
Proof.
  unfold round_trip_ok. cbv zeta.
  set (segs := merge_txt (flat_map unit_segs changes)).
  intros [[[[Hshape Hplain]%andb_true_iff Hsent]%andb_true_iff
            Hdel]%andb_true_iff Hins]%andb_true_iff.
  pose proof (merge_txt_merged (flat_map unit_segs changes)) as Hmerged.
  fold segs in Hmerged.
  eexists. split; [by apply buildDiffMarkdown_shape|].
  rewrite (expected_markup_shape _ Hshape).
  rewrite <- !(render_merge_txt _ (flat_map unit_segs changes)). fold segs.
  unfold markersToPlaceholders, placeholdersToSpans.
  rewrite (sentinel_pass segs Hplain Hmerged Hsent).
  rewrite (plain_ins_marker segs Hplain).
  rewrite (safe_del_tag segs Hmerged Hdel).
  by rewrite (safe_ins_tag segs Hmerged Hins).
Qed.

Lemma marker_round_trip_witness :
  exists md,
    buildDiffMarkdown angle_delta_units = Some md
    /\ placeholdersToSpans (markersToPlaceholders md)
       = expected_markup angle_delta_units.
Proof.
  apply (marker_round_trip angle_delta_units). vm_compute. reflexivity.
Defined.

Lemma marker_round_trip_breaks_on_tag_text :
  Forall (fun c => Forall (fun p => NUL ∉ Part.text p) (Change.parts c))
         closing_tag_units
  /\ (placeholdersToSpans <$> (markersToPlaceholders <$>
        buildDiffMarkdown closing_tag_units))
     = Some (diff_span "diff-delete" 0 (str "a") ++ str "b</diffdelete>")
  /\ diff_span "diff-delete" 0 (str "a") ++ str "b</diffdelete>"
     <> expected_markup closing_tag_units.
Proof.
  split; [|split].
  - repeat constructor. vm_compute. intros H.
    repeat (apply elem_of_cons in H as [H|H]; [discriminate H|]).
    by apply elem_of_nil in H.
  - vm_compute. reflexivity.
  - vm_compute. discriminate.
Qed.

Lemma marker_round_trip_breaks_on_del_text :
  (placeholdersToSpans <$> (markersToPlaceholders <$>
     buildDiffMarkdown del_like_units))
  = Some (NUL :: str "INS0" ++ NUL :: str "a" ++ NUL :: str "/INS"
            ++ diff_span "diff-delete" 7 (str "DEL1" ++ NUL :: str "x"))
  /\ (placeholdersToSpans <$> (markersToPlaceholders <$>
        buildDiffMarkdown del_like_units))
     <> Some (expected_markup del_like_units).
Proof. split; [vm_compute; reflexivity|vm_compute; discriminate]. Qed.

(** On every list of one or two probe units the condition holds exactly
    when the round trip does: it excludes none of them that the codec
    carries through. *)
Lemma round_trip_ok_exact_on_probes :
  forallb (fun a =>
    Bool.eqb (round_trip_holds [a]) (round_trip_ok [a])
    && forallb (fun b =>
         Bool.eqb (round_trip_holds [a; b]) (round_trip_ok [a; b]))
       probe_units) probe_units = true.
Proof. vm_compute. reflexivity. Qed.

(** ** Accepting all changes of a partial edit *)

Lemma indexOf_Some_occurrence s p idx :
  indexOf s p = Some idx ->
  s = take idx s ++ p ++ drop (idx + length p) s
  /\ forall pre post, s = pre ++ p ++ post -> (idx <= length pre)%nat.
Proof.
  intros (k & -> & Hk & Hs & Hfirst)%indexOf_from_Some. simpl. split.
  - apply startsWith_true in Hs as [rest Hrest].
    etrans; [symmetry; apply (take_drop k)|]. f_equal.
    replace (drop (k + length p) s) with (drop (length p) (drop k s))
      by apply drop_drop.
    by rewrite Hrest, drop_app_length.
  - intros pre post Hocc. destruct (decide (k <= length pre)%nat); [done|].
    exfalso. specialize (Hfirst (length pre) ltac:(lia)).
    rewrite Hocc in Hfirst. by rewrite drop_app_length, startsWith_app in Hfirst.
Qed.

(** C5. Accept-all in a partial edit: when the original text occurs in
    the full document, its first occurrence is replaced by the proposed
    text; when it does not occur, the proposed text alone is the result.
    Either way a result is produced. *)
Theorem acceptChanges_partial_edit (st : State.t) :
  State.hasPendingDiff st = true -> State.isSelectionEdit st = true ->
  (forall pre post,
     State.originalFullContent st = pre ++ State.originalContent st ++ post ->
     (forall pre' post',
        State.originalFullContent st = pre' ++ State.originalContent st ++ post' ->
        (length pre <= length pre')%nat) ->
     acceptChanges st = Some (pre ++ State.proposedContent st ++ post))
  /\ ((forall pre post,
         State.originalFullContent st <> pre ++ State.originalContent st ++ post) ->
      acceptChanges st = Some (State.proposedContent st))
  /\ is_Some (acceptChanges st).
Proof.
  intros Hp Hs. unfold acceptChanges. rewrite Hp, Hs. simpl.
  destruct (indexOf (State.originalFullContent st) (State.originalContent st))
    as [idx|] eqn:Hidx.
  - destruct (indexOf_Some_occurrence _ _ _ Hidx) as [Hocc Hmin].
    split; [|split; [|by eexists]].
    + intros pre post Hfull Hfirst.
      assert (Hlen : idx = length pre).
      { apply Nat.le_antisymm; [by eapply Hmin|].
        rewrite <- (length_take_le (State.originalFullContent st) idx).
        - by eapply Hfirst.
        - apply indexOf_from_Some in Hidx as (k & -> & Hk & _). simpl. lia. }
      unfold substring, substring_from. rewrite Nat.sub_0_r. simpl drop.
      subst idx. clear Hocc Hmin Hidx Hfirst. revert Hfull.
      generalize (State.originalFullContent st). intros full ->.
      change (drop 0 ?l) with l.
      rewrite take_app_length. do 3 f_equal.
      rewrite <- drop_drop, drop_app_length. apply drop_app_length.
    + intros Hno. exfalso. by eapply Hno.
  - split; [|split; [done|by eexists]].
    intros pre post Hfull _. exfalso.
    by eapply indexOf_None_no_occurrence.
Qed.

Lemma acceptChanges_partial_edit_witness :
  acceptChanges partial_edit_state = Some (str "say goodbye now hello").
Proof.
  apply (proj1 (acceptChanges_partial_edit partial_edit_state
                  eq_refl eq_refl) (str "say ") (str " now hello")).
  - reflexivity.
  - intros pre' post' H.
    destruct pre' as [|a [|b [|c [|d pre']]]]; simpl; try lia;
      discriminate H.
Defined.

(** ** Resolving single changes *)

Lemma find_update_found changeId f l :
  (forall c, Change.id (f c) = Change.id c) ->
  find_change changeId (update_found changeId f l)
  = f <$> find_change changeId l.
Proof.
  intros Hid. induction l as [|c l IH]; [done|]. simpl.
  destruct (decide (Change.id c = Some changeId)) as [Hc|Hc]; simpl.
  - by rewrite decide_True by (by rewrite Hid).
  - by rewrite decide_False.
Qed.

(** No unit with this id, or a resolved one: nothing happens. *)
Lemma resolveSingleChange_noop d editorEl changeId st :
  match find_change changeId (State.diffChanges st) with
  | None => True
  | Some c => Change.resolved c = true
  end ->
  resolveSingleChange d editorEl changeId st = st.
Proof.
  unfold resolveSingleChange.
  destruct (find_change changeId (State.diffChanges st)) as [c|]; [|done].
  by intros ->.
Qed.

(** After a resolution the unit with this id is resolved or gone. *)
Lemma resolveSingleChange_settled d editorEl changeId st :
  match find_change changeId
          (State.diffChanges (resolveSingleChange d editorEl changeId st)) with
  | None => True
  | Some c => Change.resolved c = true
  end.
Proof.
  unfold resolveSingleChange.
  destruct (find_change changeId (State.diffChanges st)) as [c|] eqn:Hfind;
    [|by rewrite Hfind].
  destruct (Change.resolved c) eqn:Hres; [by rewrite Hfind|].
  set (mark := match d with Accept => mark_accepted | Reject => mark_rejected end).
  set (st1 := set_diffChanges st _).
  assert (H1 : find_change changeId (State.diffChanges st1) = Some (mark c)).
  { unfold st1. simpl. rewrite find_update_found, Hfind; [done|].
    intros c'. by destruct d. }
  assert (Hm : Change.resolved (mark c) = true) by (by destruct d).
  destruct editorEl; [|by rewrite H1].
  unfold checkAllChangesResolved.
  destruct (unresolvedChanges st1); [done|by rewrite H1].
Qed.

(** C6. Resolving an id that does not exist in the session, or whose
    unit is already resolved, changes nothing; so a second resolution of
    an id, with the same or the other decision, leaves the whole state
    as the first one left it: in particular the flags of the unit and
    the number of unresolved change units. *)
Theorem resolveSingleChange_idempotent :
  (forall d editorEl changeId st,
     (find_change changeId (State.diffChanges st) = None
      \/ exists c, find_change changeId (State.diffChanges st) = Some c
                   /\ Change.resolved c = true) ->
     resolveSingleChange d editorEl changeId st = st)
  /\ (forall d1 d2 e1 e2 changeId st,
        let st1 := resolveSingleChange d1 e1 changeId st in
        let st2 := resolveSingleChange d2 e2 changeId st1 in
        st2 = st1
        /\ find_change changeId (State.diffChanges st2)
           = find_change changeId (State.diffChanges st1)
        /\ length (unresolvedChanges st2) = length (unresolvedChanges st1)).
Proof.
  split.
  - intros d editorEl changeId st H. apply resolveSingleChange_noop.
    destruct H as [->|(c & -> & Hc)]; done.
  - intros d1 d2 e1 e2 changeId st st1 st2.
    assert (H : st2 = st1).
    { apply resolveSingleChange_noop, resolveSingleChange_settled. }
    by rewrite H.
Qed.

Lemma resolveSingleChange_idempotent_witness :
  rejectSingleChange true 7 two_changes_state = two_changes_state
  /\ rejectSingleChange true 0 (acceptSingleChange true 0 two_changes_state)
     = acceptSingleChange true 0 two_changes_state.
Proof.
  split.
  - apply (proj1 resolveSingleChange_idempotent). left. reflexivity.
  - apply (proj2 resolveSingleChange_idempotent Accept Reject true true 0
             two_changes_state).
Defined.

(** ** lib/diffState.js *)

Ltac lookup_inserts :=
  repeat (rewrite lookup_insert_eq || rewrite lookup_insert_ne by done).

Lemma clear_properties_fields o :
  Forall (fun f => clear_properties o !! f = initialDiffState !! f)
         diff_state_fields.
Proof.
  unfold diff_state_fields, clear_properties, initialDiffState.
  repeat constructor; by lookup_inserts.
Qed.

Lemma initialDiffState_fields f :
  is_Some (initialDiffState !! f) -> f ∈ diff_state_fields.
Proof.
  unfold initialDiffState, diff_state_fields.
  repeat (rewrite lookup_insert; case_decide;
          [subst f; intros _; set_solver|]).
  rewrite lookup_empty. by intros [? ?].
Qed.

(** C10 (amended). [clearDiffState] returns the reference it was given,
    and afterwards each of the eleven diff-state properties of the
    object equals the property of a fresh initial state, the three
    selection properties included. *)
Theorem clearDiffState_resets (h : store) (state : positive) (o : object) :
  h !! state = Some o ->
  (clearDiffState state h).1 = state
  /\ (exists o', (clearDiffState state h).2 !! state = Some o'
        /\ Forall (fun f => o' !! f = initialDiffState !! f) diff_state_fields)
  /\ length diff_state_fields = 11%nat.
Proof.
  intros Ho. split; [done|]. split; [|done].
  exists (clear_properties o). split.
  - unfold clearDiffState. simpl. by rewrite lookup_alter_eq, Ho.
  - apply clear_properties_fields.
Qed.

Lemma clearDiffState_resets_witness :
  (clearDiffState 1%positive {[1%positive := pending_object]}).1 = 1%positive
  /\ (exists o',
        (clearDiffState 1%positive {[1%positive := pending_object]}).2
          !! 1%positive = Some o'
        /\ Forall (fun f => o' !! f = initialDiffState !! f) diff_state_fields)
  /\ length diff_state_fields = 11%nat.
Proof.
  apply (clearDiffState_resets _ 1%positive pending_object).
  apply lookup_singleton_eq.
Defined.

(** The initial state has eleven properties: no twelve distinct property
    names have a value in it. *)
Lemma diffState_not_twelve_fields :
  ~ exists fields : list string,
      NoDup fields /\ length fields = 12%nat
      /\ forall f, f ∈ fields -> is_Some (initialDiffState !! f).
Proof.
  intros (fields & Hnd & Hlen & Hin).
  assert (Hsub : fields ⊆+ diff_state_fields).
  { apply NoDup_submseteq; [done|]. intros f Hf.
    by apply initialDiffState_fields, Hin. }
  apply submseteq_length in Hsub. rewrite Hlen in Hsub. simpl in Hsub. lia.
Qed.

(** ** More on the tokenizer *)

Lemma scan_runs_uniform text : forall sp cur,
  Forall (fun c => is_space c = sp) cur ->
  Forall uniform (scan_runs sp cur text).
Proof.
  induction text as [|c rest IH]; intros sp cur Hcur; simpl.
  - repeat constructor. by exists sp.
  - destruct (Bool.eqb (is_space c) sp) eqn:Hc.
    + apply IH. apply Forall_app. split; [done|].
      repeat constructor. by apply eqb_prop.
    + constructor; [by exists sp|]. apply IH. by repeat constructor.
Qed.

Lemma scan_runs_head text sp cur c :
  head cur = Some c ->
  exists t rest, scan_runs sp cur text = t :: rest /\ head t = Some c.
Proof.
  revert cur. induction text as [|d text IH]; intros cur Hc; simpl.
  - by exists cur, [].
  - destruct (Bool.eqb (is_space d) sp).
    + apply IH. by destruct cur.
    + by exists cur, (scan_runs (is_space d) [d] text).
Qed.

Lemma scan_runs_boundaries text : forall sp cur,
  Forall (fun c => is_space c = sp) cur -> cur <> [] ->
  boundaries_ok (scan_runs sp cur text).
Proof.
  induction text as [|c rest IH]; intros sp cur Hcur Hne; simpl; [done|].
  destruct (Bool.eqb (is_space c) sp) eqn:Hc.
  - apply IH; [|by destruct cur]. apply Forall_app. split; [done|].
    repeat constructor. by apply eqb_prop.
  - destruct (scan_runs_head rest (is_space c) [c] c eq_refl)
      as (t & more & Heq & Hhead).
    pose proof (IH (is_space c) [c]) as IH'. rewrite Heq in *.
    split; [|apply IH'; by repeat constructor].
    intros a b Ha Hb. rewrite Hhead in Hb. injection Hb as <-.
    apply last_Some_elem_of in Ha. rewrite Forall_forall in Hcur.
    rewrite (Hcur a Ha). intros Heq'. rewrite Heq', eqb_reflx in Hc. done.
Qed.

(** The tokenizer splits a text into its maximal runs of whitespace and
    of non-whitespace: the tokens spell the text, none is empty, each
    is of one class, and neighbours are of different classes. *)
Theorem tokenize_runs (text : jsstring) :
  concat (tokenize text) = text
  /\ Forall (fun tok => tok <> [] /\ uniform tok) (tokenize text)
  /\ boundaries_ok (tokenize text).
Proof.
  split; [apply tokenize_concat|]. split.
  - apply Forall_and. split; [apply tokenize_nonempty|].
    destruct text as [|c rest]; [constructor|].
    apply scan_runs_uniform. by repeat constructor.
  - destruct text as [|c rest]; [done|].
    apply scan_runs_boundaries; [by repeat constructor|done].
Qed.

(** ** The merged parts alternate *)

Lemma alternating_snoc ps l x :
  alternating (ps ++ [l]) -> Part.type l <> Part.type x ->
  alternating (ps ++ [l; x]).
Proof.
  induction ps as [|p ps IH]; intros Hps Hne; [done|].
  destruct ps as [|q ps]; simpl in *; [by destruct Hps|].
  destruct Hps as [Hpq Hps]. split; [done|]. by apply IH.
Qed.

Lemma alternating_update_last ps l l' :
  alternating (ps ++ [l]) -> Part.type l' = Part.type l ->
  alternating (ps ++ [l']).
Proof.
  induction ps as [|p ps IH]; intros Hps Heq; [done|].
  destruct ps as [|q ps]; simpl in *.
  - destruct Hps as [Hpl _]. split; [congruence|done].
  - destruct Hps as [Hpq Hps]. split; [done|]. by apply IH.
Qed.

Lemma merge_step_alternating merged item :
  alternating merged -> alternating (merge_step merged item).
Proof.
  intros Hm. destruct merged as [|l merged _] using rev_ind; [done|].
  rewrite merge_step_snoc. destruct (decide _) as [Heq|Hne].
  - by eapply alternating_update_last.
  - by apply alternating_snoc.
Qed.

(** No two consecutive parts of the result share a type. *)
Theorem computeWordDiff_alternating
    (dmp : DiffMatchPatch) (original proposed : jsstring) :
  alternating (computeWordDiff original proposed).
Proof.
  unfold computeWordDiff.
  destruct (encodeBoth original proposed) as [[st ca] cb].
  unfold mergeParts. generalize (expandDiffs (buildReverseMap (wordMap st))
    (diff_cleanupSemantic (diff_main ca cb))).
  intros result.
  assert (Hgen : forall merged, alternating merged ->
            alternating (fold_left merge_step result merged)).
  { induction result as [|item result IH]; intros merged Hm; [done|].
    simpl. apply IH. by apply merge_step_alternating. }
  by apply Hgen.
Qed.

(** ** Codes of distinct tokens *)

Lemma distinct_tokens_covers original proposed t :
  t ∈ tokenize original \/ t ∈ tokenize proposed ->
  t ∈ distinct_tokens original proposed.
Proof.
  intros [H|H]; apply first_seen_covers; [left|by right].
  apply first_seen_covers. by right.
Qed.

(** With at most 65536 distinct tokens in the two texts, two tokens that
    get the same code are the same token; and on either side a token is
    written with the code the final word map holds for it. *)
Theorem wordMap_codes_distinct (original proposed : jsstring) :
  N.of_nat (length (distinct_tokens original proposed)) <= 65536 ->
  let st := (encodeBoth original proposed).1.1 in
  (forall t1 t2,
     (t1 ∈ tokenize original \/ t1 ∈ tokenize proposed) ->
     (t2 ∈ tokenize original \/ t2 ∈ tokenize proposed) ->
     JsMap.get (wordMap st) t1 = JsMap.get (wordMap st) t2 -> t1 = t2)
  /\ (encodeBoth original proposed).1.2
     = flat_map (code_of (wordMap st)) (tokenize original)
  /\ (encodeBoth original proposed).2
     = flat_map (code_of (wordMap st)) (tokenize proposed).
Proof.
  intros Hlen st. unfold st.
  destruct (encodeBoth_spec original proposed) as [Hnd ->].
  cbn [fst snd wordMap]. split; [|done].
  intros t1 t2 H1%distinct_tokens_covers H2%distinct_tokens_covers Heq.
  apply list_elem_of_lookup_1 in H1 as [i Hi], H2 as [j Hj].
  rewrite (JsMap_get_index _ _ _ _ Hnd Hi),
          (JsMap_get_index _ _ _ _ Hnd Hj) in Heq.
  injection Heq as Heq.
  pose proof (lookup_lt_Some _ _ _ Hi). pose proof (lookup_lt_Some _ _ _ Hj).
  assert (N.of_nat i = N.of_nat j).
  { apply fromCharCode_inj_below; [lia|lia|]. unfold fromCharCode.
    by rewrite Heq. }
  assert (i = j) by lia. subst j. congruence.
Qed.

(** Beyond 65536 distinct tokens two of them share a code: the first
    distinct token and the 65537th both get the code unit [0x100]. *)
Theorem wordMap_codes_collide (original proposed : jsstring) :
  65536 < N.of_nat (length (distinct_tokens original proposed)) ->
  exists t1 t2,
    t1 <> t2
    /\ (t1 ∈ tokenize original \/ t1 ∈ tokenize proposed)
    /\ (t2 ∈ tokenize original \/ t2 ∈ tokenize proposed)
    /\ JsMap.get (wordMap (encodeBoth original proposed).1.1) t1 = Some [256]
    /\ JsMap.get (wordMap (encodeBoth original proposed).1.1) t2 = Some [256].
Proof.
  intros Hlen.
  destruct (encodeBoth_spec original proposed) as [Hnd ->].
  cbn [fst snd wordMap].
  set (keys := distinct_tokens original proposed) in *.
  destruct (lookup_lt_is_Some_2 keys 0%nat) as [t1 H1]; [lia|].
  destruct (lookup_lt_is_Some_2 keys (N.to_nat 65536)) as [t2 H2]; [lia|].
  exists t1, t2. repeat split.
  - intros ->. pose proof (NoDup_lookup _ _ _ _ Hnd H1 H2) as H. lia.
  - apply distinct_tokens_sub. by eapply list_elem_of_lookup_2.
  - apply distinct_tokens_sub. by eapply list_elem_of_lookup_2.
  - by rewrite (JsMap_get_index _ _ _ _ Hnd H1).
  - rewrite (JsMap_get_index _ _ _ _ Hnd H2). by rewrite N2Nat.id.
Qed.

(** ** Identity and empty sides below the surrogate range *)

Lemma mergeParts_same_type op ts x :
  fold_left merge_step (Part.mk op <$> ts) [Part.mk op x]
  = [Part.mk op (x ++ concat ts)].
Proof.
  revert x. induction ts as [|t ts IH]; intros x; simpl.
  - by rewrite app_nil_r.
  - change [Part.mk op x] with ([] ++ [Part.mk op x]).
    rewrite merge_step_snoc, decide_True by done. simpl.
    by rewrite IH, <- app_assoc.
Qed.

Lemma mergeParts_tokens op t ts :
  mergeParts (Part.mk op <$> (t :: ts)) = [Part.mk op (concat (t :: ts))].
Proof. unfold mergeParts. simpl. apply mergeParts_same_type. Qed.

(** A chunk of coded tokens expands to one part per token. *)
Lemma expand_coded keys ts op :
  NoDup keys -> N.of_nat (length keys) <= 55040 ->
  (forall t, t ∈ ts -> t ∈ keys) ->
  expandDiffs (buildReverseMap (assign_codes 256 keys))
    [(op, flat_map (code_of (assign_codes 256 keys)) ts)]
  = Part.mk op <$> ts.
Proof.
  intros Hnd Hlen Hts. rewrite expandDiffs_cons.
  change (expandDiffs _ []) with (@nil Part.t). rewrite app_nil_r.
  destruct (decode_coded keys ts Hnd Hlen Hts) as [_ Hhigh].
  rewrite (codePoints_no_high _ Hhigh). clear Hhigh.
  induction ts as [|t ts IH]; [done|].
  assert (Ht : t ∈ keys) by (apply Hts; left).
  apply list_elem_of_lookup_1 in Ht as [i Hi].
  pose proof (lookup_lt_Some _ _ _ Hi) as Hlt.
  pose proof (code_of_index keys 256 i t Hnd Hi) as Hcode.
  unfold fromCharCode in Hcode. rewrite N.mod_small in Hcode by lia.
  simpl flat_map at 2. rewrite Hcode.
  change ([256 + N.of_nat i] ++ ?x) with ((256 + N.of_nat i) :: x).
  rewrite fmap_cons.
  change (flat_map ?f ([256 + N.of_nat i] :: ?l))
    with (f [256 + N.of_nat i] ++ flat_map f l).
  rewrite IH by (intros t' Ht'; apply Hts; by right).
  rewrite (buildReverseMap_get _ t); [done| |].
  - apply assign_codes_values_NoDup. lia.
  - eapply list_elem_of_lookup_2. rewrite (assign_codes_lookup _ _ _ _ Hi).
    unfold fromCharCode. by rewrite N.mod_small by lia.
Qed.

Lemma coded_nonempty keys t ts :
  NoDup keys -> N.of_nat (length keys) <= 55040 -> t ∈ keys ->
  flat_map (code_of (assign_codes 256 keys)) (t :: ts) <> [].
Proof.
  intros Hnd Hlen [i Hi]%list_elem_of_lookup_1.
  simpl. rewrite (code_of_index keys 256 i t Hnd Hi). done.
Qed.

Lemma tokenize_nil_inv text : tokenize text = [] -> text = [].
Proof. intros H. by rewrite <- (tokenize_concat text), H. Qed.

Section SmallVocabulary.
Context {dmp : DiffMatchPatch} {dmp_spec : DiffMatchPatchSpec dmp}.

(** Identity for a text with at most 55040 distinct tokens: one Equal
    part with the whole text, and no part at all for the empty text. *)
Theorem computeWordDiff_identity (a : jsstring) :
  N.of_nat (length (distinct_tokens a a)) <= 55040 ->
  computeWordDiff a a
  = match a with [] => [] | _ :: _ => [Part.mk Equal a] end.
Proof.
  intros Hlen. unfold computeWordDiff.
  destruct (encodeBoth_spec a a) as [Hnd ->].
  set (keys := distinct_tokens a a) in *. cbv beta iota zeta. cbn [wordMap].
  rewrite diff_main_same.
  assert (Hsub : forall t, t ∈ tokenize a -> t ∈ keys).
  { intros t Ht. apply distinct_tokens_covers. by left. }
  destruct (tokenize a) as [|t ts] eqn:Htok.
  - apply tokenize_nil_inv in Htok as ->. simpl. by rewrite diff_cleanup_nil.
  - pose proof (coded_nonempty keys t ts Hnd Hlen (Hsub t ltac:(left))) as Hne.
    destruct (flat_map (code_of (assign_codes 256 keys)) (t :: ts))
      as [|c cs] eqn:Hca; [done|].
    rewrite diff_cleanup_single, <- Hca, expand_coded by done.
    rewrite mergeParts_tokens, <- Htok, tokenize_concat.
    destruct a; [done|done].
Qed.

(** One empty side, at most 55040 distinct tokens on the other: a single
    Delete part, respectively a single Insert part, with the whole
    text. *)
Theorem computeWordDiff_empty_side (b : jsstring) :
  b <> [] ->
  (N.of_nat (length (distinct_tokens b [])) <= 55040 ->
   computeWordDiff b [] = [Part.mk Delete b])
  /\ (N.of_nat (length (distinct_tokens [] b)) <= 55040 ->
      computeWordDiff [] b = [Part.mk Insert b]).
Proof.
  intros Hb.
  assert (Htok : exists t ts, tokenize b = t :: ts).
  { destruct (tokenize b) as [|t ts] eqn:E; [|by eauto].
    by apply tokenize_nil_inv in E. }
  destruct Htok as (t & ts & Htok). split; intros Hlen.
  - unfold computeWordDiff. destruct (encodeBoth_spec b []) as [Hnd ->].
    set (keys := distinct_tokens b []) in *. cbv beta iota zeta. cbn [wordMap].
    assert (Hsub : forall t, t ∈ tokenize b -> t ∈ keys).
    { intros t' Ht'. apply distinct_tokens_covers. by left. }
    change (tokenize []) with (@nil jsstring). simpl flat_map at 2.
    rewrite Htok in *.
    rewrite diff_main_empty_r
      by (apply coded_nonempty; [done|done|apply Hsub; left]).
    rewrite diff_cleanup_single, expand_coded by done.
    by rewrite mergeParts_tokens, <- Htok, tokenize_concat.
  - unfold computeWordDiff. destruct (encodeBoth_spec [] b) as [Hnd ->].
    set (keys := distinct_tokens [] b) in *. cbv beta iota zeta. cbn [wordMap].
    assert (Hsub : forall t, t ∈ tokenize b -> t ∈ keys).
    { intros t' Ht'. apply distinct_tokens_covers. by right. }
    change (tokenize []) with (@nil jsstring). simpl flat_map at 1.
    rewrite Htok in *.
    rewrite diff_main_empty_l
      by (apply coded_nonempty; [done|done|apply Hsub; left]).
    rewrite diff_cleanup_single, expand_coded by done.
    by rewrite mergeParts_tokens, <- Htok, tokenize_concat.
Qed.

End SmallVocabulary.

(** ** Witnesses for the word-diff theorems *)

Lemma number_words_distinct_count m :
  length (distinct_tokens (join_words (number_words (S m))) [])
  = S (S (S m)).
Proof.
  unfold distinct_tokens. change (tokenize []) with (@nil jsstring).
  change (first_seen ?k []) with k.
  rewrite numbers_doc_keys, length_app. cbn [length].
  rewrite length_fmap, length_seq. lia.
Qed.

Lemma numbers_doc_distinct_count :
  N.of_nat (length (distinct_tokens (numbers_doc 65535) [])) = 65537.
Proof.
  unfold numbers_doc. rewrite to_nat_65535, number_words_distinct_count.
  by rewrite !Nat2N.inj_succ, N2Nat.id.
Qed.

Lemma wordMap_codes_collide_witness :
  exists t1 t2,
    t1 <> t2
    /\ (t1 ∈ tokenize (numbers_doc 65535) \/ t1 ∈ tokenize [])
    /\ (t2 ∈ tokenize (numbers_doc 65535) \/ t2 ∈ tokenize [])
    /\ JsMap.get (wordMap (encodeBoth (numbers_doc 65535) []).1.1) t1
       = Some [256]
    /\ JsMap.get (wordMap (encodeBoth (numbers_doc 65535) []).1.1) t2
       = Some [256].
Proof.
  apply wordMap_codes_collide. rewrite numbers_doc_distinct_count. reflexivity.
Defined.

Lemma wordMap_codes_distinct_witness :
  let st := (encodeBoth (str "hello world") (str "hello universe")).1.1 in
  (forall t1 t2,
     (t1 ∈ tokenize (str "hello world") \/ t1 ∈ tokenize (str "hello universe")) ->
     (t2 ∈ tokenize (str "hello world") \/ t2 ∈ tokenize (str "hello universe")) ->
     JsMap.get (wordMap st) t1 = JsMap.get (wordMap st) t2 -> t1 = t2)
  /\ (encodeBoth (str "hello world") (str "hello universe")).1.2
     = flat_map (code_of (wordMap st)) (tokenize (str "hello world"))
  /\ (encodeBoth (str "hello world") (str "hello universe")).2
     = flat_map (code_of (wordMap st)) (tokenize (str "hello universe")).
Proof.
  apply (wordMap_codes_distinct (str "hello world") (str "hello universe")).
  vm_compute. discriminate.
Defined.

Lemma computeWordDiff_reconstructs_witness :
  parts_text original_side
    (@computeWordDiff simple_dmp (str "hello world") (str "hello universe"))
  = str "hello world"
  /\ parts_text proposed_side
       (@computeWordDiff simple_dmp (str "hello world") (str "hello universe"))
     = str "hello universe".
Proof.
  apply (@computeWordDiff_reconstructs simple_dmp simple_dmp_spec).
  vm_compute. discriminate.
Defined.

Lemma computeWordDiff_identity_witness :
  @computeWordDiff simple_dmp (str "hello world") (str "hello world")
  = [Part.mk Equal (str "hello world")].
Proof.
  apply (@computeWordDiff_identity simple_dmp simple_dmp_spec
           (str "hello world")).
  vm_compute. discriminate.
Defined.

Lemma computeWordDiff_empty_side_witness :
  @computeWordDiff simple_dmp (str "hello") [] = [Part.mk Delete (str "hello")]
  /\ @computeWordDiff simple_dmp [] (str "hello")
     = [Part.mk Insert (str "hello")].
Proof.
  destruct (@computeWordDiff_empty_side simple_dmp simple_dmp_spec
              (str "hello")) as [H1 H2]; [discriminate|].
  split; [apply H1|apply H2]; vm_compute; discriminate.
Defined.

(** ** More on the change grouper *)

Lemma grouped_equal diff :
  Part.type diff = Equal -> grouped_unit (Change.fresh None equal [diff]).
Proof. intros H. repeat split. by exists diff. Qed.

Lemma grouped_single i diff :
  Part.type diff <> Equal ->
  grouped_unit (Change.fresh (Some i) change [diff]).
Proof.
  intros H. split; [done|]. split; [done|]. split; [done|].
  split; [by eexists|]. left. by exists diff.
Qed.

Lemma grouped_pair i d ins :
  Part.type d = Delete -> Part.type ins = Insert ->
  grouped_unit (Change.fresh (Some i) change [d; ins]).
Proof.
  intros Hd Hi. split; [done|]. split; [done|]. split; [done|].
  split; [by eexists|]. right. by exists d, ins.
Qed.

Ltac flatten_step IH :=
  change (flat_map Change.parts (?u :: ?l))
    with (Change.parts u ++ flat_map Change.parts l);
  rewrite IH; reflexivity.

Lemma groupDiffs_loop_units (diffs : list Part.t) :
  forall changeId,
    flat_map Change.parts (groupDiffs_loop changeId diffs) = diffs
    /\ Forall grouped_unit (groupDiffs_loop changeId diffs).
Proof.
  induction diffs as [diffs IH] using (induction_ltof1 _ (@length _)).
  unfold ltof in IH. intros changeId.
  destruct diffs as [|diff rest]; [by split|].
  rewrite groupDiffs_loop_cons.
  destruct (Part.type diff) eqn:Hd.
  - destruct rest as [|next rest'].
    + split; [done|]. constructor; [|constructor].
      apply grouped_single. by rewrite Hd.
    + destruct (Part.type next) eqn:Hn.
      * destruct (IH (next :: rest') ltac:(simpl; lia) (changeId + 1))
          as [IH1 IH2].
        split; [flatten_step IH1|]. constructor; [|done].
        apply grouped_single. by rewrite Hd.
      * destruct (IH (next :: rest') ltac:(simpl; lia) (changeId + 1))
          as [IH1 IH2].
        split; [flatten_step IH1|]. constructor; [|done].
        apply grouped_single. by rewrite Hd.
      * destruct (IH rest' ltac:(simpl; lia) (changeId + 1)) as [IH1 IH2].
        split; [flatten_step IH1|]. constructor; [|done].
        by apply grouped_pair.
  - destruct (IH rest ltac:(simpl; lia) changeId) as [IH1 IH2].
    split; [flatten_step IH1|]. constructor; [|done].
    by apply grouped_equal.
  - destruct (IH rest ltac:(simpl; lia) (changeId + 1)) as [IH1 IH2].
    split; [flatten_step IH1|]. constructor; [|done].
    apply grouped_single. by rewrite Hd.
Qed.

(** Grouping loses and reorders nothing: the parts of the units, read in
    order, are the diff; and every unit is an equal unit with one Equal
    part and no id, or a change unit with an id whose parts are one
    Delete, one Insert, or a Delete followed by an Insert. *)
Theorem groupDiffsIntoChanges_units (diffs : list Part.t) :
  flat_map Change.parts (groupDiffsIntoChanges diffs) = diffs
  /\ Forall grouped_unit (groupDiffsIntoChanges diffs).
Proof. apply groupDiffs_loop_units. Qed.

(** ** The marker codec on grouped diffs *)

Lemma diff_part_ok_part p : diff_part_ok p = true -> part_ok p = true.
Proof. unfold diff_part_ok, part_ok. by destruct (Part.type p). Qed.

Lemma groupDiffs_loop_ok (diffs : list Part.t) :
  forall changeId,
    changeId + N.of_nat (length diffs) <= 10 ^ 21 ->
    Forall (fun p => diff_part_ok p = true) diffs ->
    Forall (fun c => unit_ok c = true) (groupDiffs_loop changeId diffs).
Proof.
  induction diffs as [diffs IH] using (induction_ltof1 _ (@length _)).
  unfold ltof in IH. intros changeId Hlen Hok.
  destruct diffs as [|diff rest]; [constructor|].
  rewrite groupDiffs_loop_cons.
  inversion Hok as [|? ? Hdiff Hrest]; subst.
  assert (Hid : (changeId <? 10 ^ 21) = true).
  { apply N.ltb_lt. simpl length in Hlen. lia. }
  assert (Hunit : forall ps, forallb part_ok ps = true ->
            unit_ok (Change.fresh (Some changeId) change ps) = true).
  { intros ps Hps. unfold unit_ok. simpl. by rewrite Hid, Hps. }
  destruct (Part.type diff) eqn:Hd.
  - destruct rest as [|next rest'].
    + constructor; [|constructor]. apply Hunit. simpl.
      by rewrite diff_part_ok_part.
    + inversion Hrest as [|? ? Hnext Hrest']; subst.
      destruct (Part.type next) eqn:Hn.
      * constructor; [apply Hunit; simpl; by rewrite diff_part_ok_part|].
        apply IH; [simpl; lia|simpl length in *; lia|done].
      * constructor; [apply Hunit; simpl; by rewrite diff_part_ok_part|].
        apply IH; [simpl; lia|simpl length in *; lia|done].
      * constructor.
        -- apply Hunit. simpl. by rewrite !diff_part_ok_part.
        -- apply IH; [simpl; lia|simpl length in *; lia|done].
  - constructor.
    + unfold unit_ok. simpl. unfold diff_part_ok in Hdiff.
      by rewrite Hd in Hdiff.
    + apply IH; [simpl; lia|simpl length in *; lia|done].
  - constructor; [apply Hunit; simpl; by rewrite diff_part_ok_part|].
    apply IH; [simpl; lia|simpl length in *; lia|done].
Qed.

(** The units the grouper makes from a diff whose texts are free of
    sentinels and placeholder tags pass through the marker codec: the
    markdown is built, and decoding gives a span for every Delete and
    Insert part and the equal text as it is. *)
Theorem grouped_diff_round_trip (diffs : list Part.t) :
  N.of_nat (length diffs) <= 10 ^ 21 ->
  Forall (fun p => diff_part_ok p = true) diffs ->
  exists md,
    buildDiffMarkdown (groupDiffsIntoChanges diffs) = Some md
    /\ placeholdersToSpans (markersToPlaceholders md)
       = expected_markup (groupDiffsIntoChanges diffs).
Proof.
  intros Hlen Hok.
  assert (Hunits : Forall (fun c => unit_ok c = true) (groupDiffsIntoChanges diffs))
    by by apply groupDiffs_loop_ok.
  eexists. split; [by apply buildDiffMarkdown_render|].
  assert (Hsegs : Forall (fun s => seg_ok s = true)
                    (flat_map unit_segs (groupDiffsIntoChanges diffs))).
  { induction Hunits as [|c changes Hc _ IH]; [constructor|].
    change (flat_map unit_segs (c :: changes))
      with (unit_segs c ++ flat_map unit_segs changes).
    apply Forall_app. split; [by apply unit_segs_ok|done]. }
  unfold markersToPlaceholders, placeholdersToSpans.
  rewrite (proj1 (pass_del_marker _ Hsegs)).
  rewrite (pass_ins_marker _ Hsegs), (pass_del_tag _ Hsegs),
    (pass_ins_tag _ Hsegs).
  symmetry. by apply expected_markup_render.
Qed.

Lemma grouped_diff_round_trip_witness :
  exists md,
    buildDiffMarkdown
      (groupDiffsIntoChanges
         [Part.mk Equal (str "hello "); Part.mk Insert (str "beautiful ");
          Part.mk Equal (str "world")]) = Some md
    /\ placeholdersToSpans (markersToPlaceholders md)
       = expected_markup
           (groupDiffsIntoChanges
              [Part.mk Equal (str "hello "); Part.mk Insert (str "beautiful ");
               Part.mk Equal (str "world")]).
Proof.
  apply grouped_diff_round_trip.
  - vm_compute. discriminate.
  - repeat constructor.
Defined.

Lemma buildDiffMarkdown_None_iff (changes : list Change.t) :
  buildDiffMarkdown changes = None
  <-> Exists (fun c => Change.type c = equal /\ Change.parts c = []) changes.
Proof.
  induction changes as [|c rest IH]; [split; [done|by intros ?%Exists_nil]|].
  rewrite buildDiffMarkdown_cons, Exists_cons.
  destruct (Change.type c) eqn:Hty.
  - destruct (Change.parts c) as [|p ps] eqn:Hps.
    + split; [by left|done].
    + destruct (buildDiffMarkdown rest) as [md|].
      * split; [done|]. intros [[_ ?]|H]; [done|]. by apply IH in H.
      * split; [right; by apply IH|done].
  - destruct (buildDiffMarkdown rest) as [md|].
    + split; [done|]. intros [[? _]|H]; [done|]. by apply IH in H.
    + split; [right; by apply IH|done].
Qed.

(** [buildDiffMarkdown] fails exactly on an equal unit without parts. *)
Theorem buildDiffMarkdown_error (changes : list Change.t) :
  buildDiffMarkdown changes = None
  <-> Exists (fun c => Change.type c = equal /\ Change.parts c = []) changes.
Proof. apply buildDiffMarkdown_None_iff. Qed.

Lemma buildDiffMarkdown_error_witness :
  buildDiffMarkdown [Change.fresh None equal []] = None.
Proof.
  apply (proj2 (buildDiffMarkdown_error [Change.fresh None equal []])).
  constructor. done.
Defined.

(** The markdown of a grouped diff is always built. *)
Theorem buildDiffMarkdown_grouped (diffs : list Part.t) :
  is_Some (buildDiffMarkdown (groupDiffsIntoChanges diffs)).
Proof.
  destruct (buildDiffMarkdown (groupDiffsIntoChanges diffs)) eqn:H; [done|].
  apply buildDiffMarkdown_None_iff in H.
  destruct (groupDiffs_loop_units diffs 0) as [_ Hunits].
  fold (groupDiffsIntoChanges diffs) in Hunits.
  rewrite Exists_exists in H. destruct H as (c & Hc & Hty & Hps).
  rewrite Forall_forall in Hunits. destruct (Hunits c Hc) as (_ & _ & _ & Hshape).
  rewrite Hty in Hshape. destruct Hshape as (_ & p & Hp & _). congruence.
Qed.

(** Markup without [<] is left alone by [placeholdersToSpans]. *)
Theorem placeholdersToSpans_plain (html : jsstring) :
  Forall (fun c => c <> 60) html -> placeholdersToSpans html = html.
Proof.
  intros H. unfold placeholdersToSpans.
  assert (Hskip : forall r p, r_open r = 60 :: p -> replace_all r html = html).
  { intros r p Hr. rewrite <- (app_nil_r html) at 1.
    rewrite replace_all_skip, replace_all_nil, app_nil_r; [done|].
    rewrite Hr. by apply stuckb_head_free. }
  rewrite (Hskip del_tag (str "diffdelete data-id=" ++ [QUOTE])) by done.
  by rewrite (Hskip ins_tag (str "diffinsert data-id=" ++ [QUOTE])).
Qed.

Lemma placeholdersToSpans_plain_witness :
  placeholdersToSpans (str "a > b") = str "a > b".
Proof.
  apply placeholdersToSpans_plain. repeat constructor; discriminate.
Defined.

(** ** Bulk decisions and thread switches *)

Lemma indexOf_self s : indexOf s s = Some 0%nat.
Proof.
  unfold indexOf. destruct s as [|c s]; [done|].
  simpl. pose proof (startsWith_app (c :: s) []) as H.
  rewrite app_nil_r in H. simpl in H. by rewrite H.
Qed.

(** Accept-all of a partial edit: selecting the whole document gives the
    proposed text; and whenever the selected text is found, proposing
    the selected text itself gives back the full document. *)
Theorem acceptChanges_degenerate (st : State.t) :
  State.hasPendingDiff st = true -> State.isSelectionEdit st = true ->
  (State.originalContent st = State.originalFullContent st ->
   acceptChanges st = Some (State.proposedContent st))
  /\ (State.proposedContent st = State.originalContent st ->
      is_Some (indexOf (State.originalFullContent st) (State.originalContent st)) ->
      acceptChanges st = Some (State.originalFullContent st)).
Proof.
  intros Hp Hs. unfold acceptChanges. rewrite Hp, Hs. simpl. split.
  - intros ->. rewrite indexOf_self. unfold substring, substring_from.
    simpl. f_equal. rewrite drop_all. apply app_nil_r.
  - intros -> [idx Hidx]. rewrite Hidx.
    apply indexOf_Some_occurrence in Hidx as [Hocc _].
    unfold substring, substring_from. rewrite Nat.sub_0_r.
    change (drop 0 ?l) with l. by rewrite <- Hocc.
Qed.

Lemma acceptChanges_degenerate_witness :
  acceptChanges
    (State.mk [] (str "hello") [] (str "say hello now") (str "hello") []
       true [] 4 9 true [])
  = Some (str "say hello now").
Proof.
  apply (proj2 (acceptChanges_degenerate
    (State.mk [] (str "hello") [] (str "say hello now") (str "hello") []
       true [] 4 9 true []) eq_refl eq_refl)); [reflexivity|].
  by eexists.
Defined.

(** Switching threads: what [saveCurrentDiffToThread] stored for a
    pending diff is what [restoreDiffFromThread] puts back, onto whatever
    the state has become in between: the nine saved properties return,
    [hasPendingDiff] is set, [cleanDocumentMarkdown] and [selectedText]
    stay those of the current state, and saving again gives the same
    record.  Without a pending diff the thread holds [null] and
    restoring clears the diff properties of the current state. *)
Theorem save_restore_diff (st st' : State.t) :
  (State.hasPendingDiff st = true ->
   restoreDiffFromThread (saveCurrentDiffToThread st) st'
   = State.mk (State.cleanDocumentMarkdown st') (State.originalContent st)
       (State.originalHtml st) (State.originalFullContent st)
       (State.proposedContent st) (State.proposedHtml st) true
       (State.selectedText st') (State.selectionStart st)
       (State.selectionEnd st) (State.isSelectionEdit st)
       (State.diffChanges st)
   /\ saveCurrentDiffToThread
        (restoreDiffFromThread (saveCurrentDiffToThread st) st')
      = saveCurrentDiffToThread st
   /\ restoreDiffFromThread (saveCurrentDiffToThread st) st = st)
  /\ (State.hasPendingDiff st = false ->
      saveCurrentDiffToThread st = None
      /\ restoreDiffFromThread (saveCurrentDiffToThread st) st' = clearDiff st').
Proof.
  unfold saveCurrentDiffToThread, restoreDiffFromThread.
  split; intros H; rewrite H; [|done].
  split; [done|]. split; [done|].
  destruct st; simpl in *. by subst.
Qed.

Lemma save_restore_diff_witness :
  saveCurrentDiffToThread
    (restoreDiffFromThread (saveCurrentDiffToThread partial_edit_state)
       two_changes_state)
  = saveCurrentDiffToThread partial_edit_state.
Proof.
  apply (proj1 (save_restore_diff partial_edit_state two_changes_state)).
  reflexivity.
Defined.

(** ** What one resolution changes *)

Lemma update_found_core changeId f l :
  (forall c, unit_core (f c) = unit_core c) ->
  unit_core <$> update_found changeId f l = unit_core <$> l.
Proof.
  intros Hf. induction l as [|c l IH]; [done|].
  cbn [update_found]. destruct (decide _); rewrite !fmap_cons.
  - by rewrite Hf.
  - by rewrite IH.
Qed.

Lemma mark_flags_ok d c :
  flags_ok c -> Change.resolved c = false ->
  flags_ok (match d with Accept => mark_accepted | Reject => mark_rejected end c).
Proof.
  intros [_ Hfresh] Hres. destruct (Hfresh Hres) as [Ha Hr].
  destruct d; (split; [simpl; by rewrite ?Ha, ?Hr, ?andb_false_r|discriminate]).
Qed.

Lemma update_found_flags changeId f l c :
  find_change changeId l = Some c -> flags_ok (f c) ->
  Forall flags_ok l -> Forall flags_ok (update_found changeId f l).
Proof.
  intros Hfind Hf. induction 1 as [|c0 l Hc Hl IH]; [constructor|].
  simpl in *. destruct (decide _) as [Hid|Hid].
  - injection Hfind as ->. by constructor.
  - constructor; [done|]. by apply IH.
Qed.

Lemma find_change_elem changeId l c :
  find_change changeId l = Some c -> c ∈ l.
Proof.
  induction l as [|c0 l IH]; [done|]. simpl.
  destruct (decide _); [intros [= ->]; left|]. intros H. right. by apply IH.
Qed.

Lemma unresolved_update_found_le changeId f l :
  (length (List.filter (fun c => is_change c && negb (Change.resolved c)) l)
   <= S (length (List.filter (fun c => is_change c && negb (Change.resolved c))
                   (update_found changeId f l))))%nat.
Proof.
  induction l as [|c0 l IH]; [simpl; lia|].
  cbn [update_found]. destruct (decide _) as [Hid|Hid]; cbn [List.filter].
  - destruct (is_change c0 && negb (Change.resolved c0)),
      (is_change (f c0) && negb (Change.resolved (f c0))); cbn [length]; lia.
  - destruct (is_change c0 && negb (Change.resolved c0)); cbn [length]; lia.
Qed.

Lemma unresolved_update_found_nil changeId f l c c' :
  find_change changeId l = Some c ->
  List.filter (fun c => is_change c && negb (Change.resolved c))
              (update_found changeId f l) = [] ->
  In c' (List.filter (fun c => is_change c && negb (Change.resolved c)) l) ->
  c' = c.
Proof.
  induction l as [|c0 l IH]; [done|].
  cbn [find_change update_found]. destruct (decide _) as [Hid|Hid].
  - intros [= ->]. cbn [List.filter].
    destruct (is_change (f c) && negb (Change.resolved (f c))); [done|].
    intros Hnil.
    destruct (is_change c && negb (Change.resolved c)).
    + intros [<-|Hin]; [done|]. by rewrite Hnil in Hin.
    + intros Hin. by rewrite Hnil in Hin.
  - intros Hfind. cbn [List.filter].
    destruct (is_change c0 && negb (Change.resolved c0)); [done|].
    by apply IH.
Qed.

Lemma set_diffChanges_same st : set_diffChanges st (State.diffChanges st) = st.
Proof. by destruct st. Qed.

(** A resolution keeps the flags consistent (no unit is ever both
    accepted and rejected) and does one of two things.  Either it
    changes nothing but [diffChanges], and there nothing of what the
    grouper wrote: the ids, types and parts of all units stay.  Or it
    finalizes: the editor was found, the unit with this id was pending,
    no other change unit was, and the state is the cleared one. *)
Theorem resolveSingleChange_preserves d editorEl changeId st :
  Forall flags_ok (State.diffChanges st) ->
  let st' := resolveSingleChange d editorEl changeId st in
  Forall flags_ok (State.diffChanges st')
  /\ ((st' = set_diffChanges st (State.diffChanges st')
       /\ unit_core <$> State.diffChanges st'
          = unit_core <$> State.diffChanges st)
      \/ (editorEl = true
          /\ st' = clearDiff st
          /\ (length (unresolvedChanges st) <= 1)%nat
          /\ exists c, find_change changeId (State.diffChanges st) = Some c
                       /\ Change.resolved c = false
                       /\ forall c', In c' (unresolvedChanges st) -> c' = c)).
Proof.
  intros Hflags st'. unfold st', resolveSingleChange.
  destruct (find_change changeId (State.diffChanges st)) as [c|] eqn:Hfind;
    [|by split; [|left; rewrite set_diffChanges_same]].
  destruct (Change.resolved c) eqn:Hres;
    [by split; [|left; rewrite set_diffChanges_same]|].
  set (mark := match d with Accept => mark_accepted | Reject => mark_rejected end).
  assert (Hc : flags_ok c).
  { rewrite Forall_forall in Hflags. eapply Hflags, find_change_elem, Hfind. }
  assert (H1 : Forall flags_ok (update_found changeId mark (State.diffChanges st))).
  { eapply update_found_flags; [done| |done]. by apply mark_flags_ok. }
  assert (H2 : unit_core <$> update_found changeId mark (State.diffChanges st)
               = unit_core <$> State.diffChanges st).
  { apply update_found_core. intros c'. unfold mark. by destruct d. }
  destruct editorEl; [|by split; [|left]].
  unfold checkAllChangesResolved.
  destruct (unresolvedChanges (set_diffChanges st _)) as [|u us] eqn:Hu;
    [|by split; [|left]].
  split; [constructor|]. right. split; [done|]. split; [done|].
  pose proof (unresolved_update_found_le changeId mark (State.diffChanges st)) as Hle.
  unfold unresolvedChanges in Hu |- *. cbn [State.diffChanges set_diffChanges] in Hu.
  split; [by rewrite Hu in Hle|].
  exists c. split; [done|]. split; [done|]. intros c' Hc'.
  by apply (unresolved_update_found_nil changeId mark (State.diffChanges st)).
Qed.

Lemma resolveSingleChange_preserves_witness :
  Forall flags_ok
    (State.diffChanges (resolveSingleChange Accept true 0 two_changes_state))
  /\ resolveSingleChange Accept true 0 two_changes_state
     = set_diffChanges two_changes_state
         (State.diffChanges (resolveSingleChange Accept true 0 two_changes_state)).
Proof.
  destruct (resolveSingleChange_preserves Accept true 0 two_changes_state)
    as [Hflags _]; [repeat constructor; simpl; done|].
  split; [exact Hflags|reflexivity].
Defined.

(** Resolving a pending change unit takes it off the list of unresolved
    changes; with the editor present, resolving the last one finalizes:
    the diff is cleared. *)
Lemma unresolved_update_found changeId f l c :
  find_change changeId l = Some c ->
  Change.resolved c = false -> Change.type c = change ->
  Change.resolved (f c) = true ->
  S (length (List.filter (fun c => is_change c && negb (Change.resolved c))
               (update_found changeId f l)))
  = length (List.filter (fun c => is_change c && negb (Change.resolved c)) l).
Proof.
  intros Hfind Hres Hty Hf. induction l as [|c0 l IH]; [done|].
  cbn [find_change update_found] in *. destruct (decide _) as [Hid|Hid].
  - injection Hfind as ->. cbn [List.filter].
    rewrite Hf, Hres. cbn [negb]. rewrite andb_false_r, andb_true_r.
    unfold is_change. rewrite Hty. by destruct (decide (change = change)).
  - cbn [List.filter].
    destruct (is_change c0 && negb (Change.resolved c0)); cbn [length];
      by rewrite <- IH.
Qed.

(** Progress of a single resolution of a pending change unit.  Unless
    it was the last pending one and the editor is found, the call leaves
    one unresolved change unit less, [hasPendingDiff] as it was, and the
    unit with this id resolved with the decision taken.  When it was
    the last one and the editor is found, the session is finalized: the
    state is the cleared one. *)
Theorem resolveSingleChange_progress d editorEl changeId st c :
  find_change changeId (State.diffChanges st) = Some c ->
  Change.resolved c = false -> Change.type c = change ->
  let st' := resolveSingleChange d editorEl changeId st in
  (editorEl = false \/ (1 < length (unresolvedChanges st))%nat ->
     S (length (unresolvedChanges st')) = length (unresolvedChanges st)
     /\ State.hasPendingDiff st' = State.hasPendingDiff st
     /\ exists c', find_change changeId (State.diffChanges st') = Some c'
          /\ Change.resolved c' = true
          /\ match d with
             | Accept => Change.accepted c' = true
             | Reject => Change.rejected c' = true
             end)
  /\ (editorEl = true -> length (unresolvedChanges st) = 1%nat ->
      st' = clearDiff st
      /\ State.hasPendingDiff st' = false /\ State.diffChanges st' = []).
Proof.
  intros Hfind Hres Hty st'. unfold st', resolveSingleChange.
  rewrite Hfind, Hres.
  set (mark := match d with Accept => mark_accepted | Reject => mark_rejected end).
  set (st1 := set_diffChanges st (update_found changeId mark (State.diffChanges st))).
  assert (Hcount : S (length (unresolvedChanges st1)) = length (unresolvedChanges st)).
  { unfold unresolvedChanges, st1. cbn [State.diffChanges set_diffChanges].
    eapply unresolved_update_found; eauto. by destruct d. }
  assert (Hst1 : S (length (unresolvedChanges st1)) = length (unresolvedChanges st)
     /\ State.hasPendingDiff st1 = State.hasPendingDiff st
     /\ exists c', find_change changeId (State.diffChanges st1) = Some c'
          /\ Change.resolved c' = true
          /\ match d with
             | Accept => Change.accepted c' = true
             | Reject => Change.rejected c' = true
             end).
  { split; [done|]. split; [done|]. exists (mark c). split.
    - unfold st1. cbn [State.diffChanges set_diffChanges].
      rewrite find_update_found, Hfind; [done|]. intros c'. by destruct d.
    - unfold mark. by destruct d. }
  split.
  - intros [->|Hmany]; [done|]. destruct editorEl; [|done].
    unfold checkAllChangesResolved.
    destruct (unresolvedChanges st1) as [|u us] eqn:Hu;
      [simpl in Hcount; lia|].
    rewrite <- Hu in Hst1. exact Hst1.
  - intros -> Hone. unfold checkAllChangesResolved.
    destruct (unresolvedChanges st1) as [|u us] eqn:Hu; [done|].
    simpl in Hcount. lia.
Qed.

Lemma resolveSingleChange_progress_witness :
  S (length (unresolvedChanges (resolveSingleChange Reject true 1 two_changes_state)))
  = length (unresolvedChanges two_changes_state).
Proof.
  apply (proj1 (resolveSingleChange_progress Reject true 1 two_changes_state _
                  eq_refl eq_refl eq_refl)).
  right. vm_compute. lia.
Defined.

(** ** The escaping of HTML *)

Lemma escapeHtml_cons c text :
  escapeHtml (c :: text)
  = match entities c with Some e => e | None => [c] end ++ escapeHtml text.
Proof. reflexivity. Qed.

Lemma entities_cases c :
  (c = 38 /\ entities c = Some (str "&amp;"))
  \/ (c = 60 /\ entities c = Some (str "&lt;"))
  \/ (c = 62 /\ entities c = Some (str "&gt;"))
  \/ (c = 34 /\ entities c = Some (str "&quot;"))
  \/ (c = 39 /\ entities c = Some (str "&#39;"))
  \/ (c <> 38 /\ c <> 60 /\ c <> 62 /\ c <> 34 /\ c <> 39 /\ entities c = None).
Proof.
  unfold entities.
  destruct (N.eqb_spec c 38); [by left|right].
  destruct (N.eqb_spec c 60); [by left|right].
  destruct (N.eqb_spec c 62); [by left|right].
  destruct (N.eqb_spec c 34); [by left|right].
  destruct (N.eqb_spec c 39); [by left|right].
  done.
Qed.

(** The escaped text has no [<], no [>] and no quote, whatever the text
    was. *)
Theorem escapeHtml_no_markup (text : jsstring) :
  Forall (fun c => markup_unit c = false) (escapeHtml text).
Proof.
  induction text as [|c text IH]; [constructor|].
  rewrite escapeHtml_cons. apply Forall_app. split; [|done].
  destruct (entities_cases c)
    as [[-> ->]|[[-> ->]|[[-> ->]|[[-> ->]|[[-> ->]|(H1&H2&H3&H4&H5&->)]]]]];
    try (repeat constructor).
  unfold markup_unit.
  by rewrite (proj2 (N.eqb_neq _ _) H2), (proj2 (N.eqb_neq _ _) H3),
    (proj2 (N.eqb_neq _ _) H4), (proj2 (N.eqb_neq _ _) H5).
Qed.

Lemma escape_unit_inj c d x y :
  match entities c with Some e => e | None => [c] end ++ x
  = match entities d with Some e => e | None => [d] end ++ y ->
  c = d /\ x = y.
Proof.
  destruct (entities_cases c)
    as [[-> ->]|[[-> ->]|[[-> ->]|[[-> ->]|[[-> ->]|(H1&H2&H3&H4&H5&->)]]]]];
  destruct (entities_cases d)
    as [[-> ->]|[[-> ->]|[[-> ->]|[[-> ->]|[[-> ->]|(G1&G2&G3&G4&G5&->)]]]]];
  intros H; try (vm_compute in H; discriminate H);
  try (injection H as H; done);
  try (injection H as H0 H; congruence).
Qed.

(** Escaping loses nothing: two texts with the same escaped form are the
    same text. *)
Theorem escapeHtml_injective (a b : jsstring) :
  escapeHtml a = escapeHtml b -> a = b.
Proof.
  revert b. induction a as [|c a IH]; intros [|d b] H.
  - done.
  - rewrite escapeHtml_cons in H. exfalso.
    destruct (entities_cases d)
      as [[-> G]|[[-> G]|[[-> G]|[[-> G]|[[-> G]|(G1&G2&G3&G4&G5&G)]]]]];
      rewrite G in H; discriminate H.
  - rewrite escapeHtml_cons in H. exfalso.
    destruct (entities_cases c)
      as [[-> G]|[[-> G]|[[-> G]|[[-> G]|[[-> G]|(G1&G2&G3&G4&G5&G)]]]]];
      rewrite G in H; discriminate H.
  - rewrite !escapeHtml_cons in H. apply escape_unit_inj in H as [-> H].
    f_equal. by apply IH.
Qed.

Lemma escapeHtml_injective_witness :
  escapeHtml (str "a<b") = escapeHtml (str "a<b") /\ str "a<b" = str "a<b".
Proof.
  split; [reflexivity|].
  apply (escapeHtml_injective (str "a<b") (str "a<b")). reflexivity.
Defined.

Lemma escapeHtml_length text :
  (length text <= length (escapeHtml text))%nat.
Proof.
  induction text as [|c text IH]; [done|].
  rewrite escapeHtml_cons, length_app. simpl length at 1.
  destruct (entities_cases c)
    as [[-> ->]|[[-> ->]|[[-> ->]|[[-> ->]|[[-> ->]|(G1&G2&G3&G4&G5&->)]]]]];
    simpl; lia.
Qed.

(** A text is its own escaped form exactly when it has none of the five
    characters; so escaping twice differs from escaping once as soon as
    one of them occurs. *)
Theorem escapeHtml_fixed (text : jsstring) :
  escapeHtml text = text <-> Forall (fun c => entities c = None) text.
Proof.
  induction text as [|c text IH]; [split; [constructor|done]|].
  rewrite escapeHtml_cons, Forall_cons. split.
  - intros H.
    destruct (entities c) as [e|] eqn:He.
    + exfalso. apply (f_equal (@length _)) in H.
      rewrite length_app in H. simpl length in H.
      pose proof (escapeHtml_length text).
      destruct (entities_cases c)
        as [[-> G]|[[-> G]|[[-> G]|[[-> G]|[[-> G]|(G1&G2&G3&G4&G5&G)]]]]];
        rewrite G in He; try discriminate He; injection He as <-;
        simpl in H; lia.
    + split; [done|]. apply IH. by injection H.
  - intros [-> H]. simpl. f_equal. by apply IH.
Qed.

Lemma escapeHtml_fixed_witness :
  escapeHtml (str "plain text") = str "plain text".
Proof.
  apply (proj2 (escapeHtml_fixed (str "plain text"))).
  repeat constructor.
Defined.

(** ** More on lib/diffState.js *)

Lemma clear_properties_other o f :
  f ∉ diff_state_fields -> clear_properties o !! f = o !! f.
Proof.
  unfold diff_state_fields, clear_properties. intros Hf.
  rewrite !not_elem_of_cons in Hf.
  destruct Hf as (?&?&?&?&?&?&?&?&?&?&?&_).
  by rewrite !lookup_insert_ne.
Qed.

Lemma clear_properties_lookup o f :
  clear_properties o !! f
  = if decide (f ∈ diff_state_fields) then initialDiffState !! f else o !! f.
Proof.
  case_decide as Hf.
  - pose proof (clear_properties_fields o) as H.
    rewrite Forall_forall in H. by apply H.
  - by apply clear_properties_other.
Qed.

Lemma clear_properties_idemp o :
  clear_properties (clear_properties o) = clear_properties o.
Proof.
  apply map_eq. intros f. rewrite !clear_properties_lookup.
  by case_decide.
Qed.

(** [clearDiffState] touches nothing else: the other objects of the
    store and the other properties of the object stay as they are, and a
    second call changes nothing. *)
Theorem clearDiffState_frame (h : store) (state : positive) (o : object) :
  h !! state = Some o ->
  (forall r, r <> state -> (clearDiffState state h).2 !! r = h !! r)
  /\ (exists o', (clearDiffState state h).2 !! state = Some o'
        /\ forall f, f ∉ diff_state_fields -> o' !! f = o !! f)
  /\ clearDiffState state (clearDiffState state h).2 = clearDiffState state h.
Proof.
  intros Ho. unfold clearDiffState. cbn [fst snd]. split; [|split].
  - intros r Hr. by rewrite lookup_alter_ne.
  - exists (clear_properties o). split.
    + by rewrite lookup_alter_eq, Ho.
    + intros f Hf. by apply clear_properties_other.
  - f_equal. rewrite alter_alter_eq. apply alter_ext.
    intros o' _. apply clear_properties_idemp.
Qed.

Lemma clearDiffState_frame_witness :
  clearDiffState 1%positive
    (clearDiffState 1%positive {[1%positive := pending_object]}).2
  = clearDiffState 1%positive {[1%positive := pending_object]}.
Proof.
  apply (clearDiffState_frame _ 1%positive pending_object).
  apply lookup_singleton_eq.
Defined.

(** An object that has no property besides the eleven becomes, as a
    whole, equal to a fresh initial state. *)
Theorem clearDiffState_initial (h : store) (state : positive) (o : object) :
  h !! state = Some o ->
  (forall f, is_Some (o !! f) -> f ∈ diff_state_fields) ->
  (clearDiffState state h).2 !! state = Some initialDiffState.
Proof.
  intros Ho Hdom. unfold clearDiffState. cbn [snd].
  rewrite lookup_alter_eq, Ho. cbn. f_equal.
  apply map_eq. intros f. rewrite clear_properties_lookup.
  case_decide as Hf; [done|].
  destruct (o !! f) as [v|] eqn:Hv.
  - exfalso. apply Hf, Hdom. by rewrite Hv.
  - symmetry. apply eq_None_not_Some. intros H.
    by apply Hf, initialDiffState_fields.
Qed.

Lemma clearDiffState_initial_witness :
  (clearDiffState 1%positive {[1%positive := pending_object]}).2 !! 1%positive
  = Some initialDiffState.
Proof.
  apply (clearDiffState_initial _ 1%positive pending_object).
  - apply lookup_singleton_eq.
  - intros f. unfold pending_object, diff_state_fields.
    repeat (rewrite lookup_insert; case_decide;
            [subst f; intros _; set_solver|]).
    rewrite lookup_empty. by intros [? ?].
Defined.

(** What [updateSelectionState] wrote is read back, nothing else in the
    store changes, and a following [clearDiffState] leaves no trace of
    it: the stale selection is gone. *)
Theorem updateSelectionState_spec (h : store) (state : positive) (o : object)
    (text : jsstring) (start end_ : Z) :
  h !! state = Some o ->
  let h' := updateSelectionState state text start end_ h in
  (exists o', h' !! state = Some o'
     /\ o' !! "selectedText" = Some (VString text)
     /\ o' !! "selectionStart" = Some (VNumber start)
     /\ o' !! "selectionEnd" = Some (VNumber end_)
     /\ forall f, f ∉ ["selectedText"; "selectionStart"; "selectionEnd"] ->
                  o' !! f = o !! f)
  /\ (forall r, r <> state -> h' !! r = h !! r)
  /\ clearDiffState state h' = clearDiffState state h.
Proof.
  intros Ho h'. unfold h', updateSelectionState, clearDiffState.
  split; [|split].
  - exists (<["selectionEnd" := VNumber end_]>
             (<["selectionStart" := VNumber start]>
             (<["selectedText" := VString text]> o))).
    split; [by rewrite lookup_alter_eq, Ho|].
    split; [by rewrite 2!lookup_insert_ne, lookup_insert_eq by done|].
    split; [by rewrite lookup_insert_ne, lookup_insert_eq by done|].
    split; [by rewrite lookup_insert_eq|].
    intros f Hf. rewrite !not_elem_of_cons in Hf.
    destruct Hf as (?&?&?&_). by rewrite !lookup_insert_ne.
  - intros r Hr. by rewrite lookup_alter_ne.
  - f_equal. rewrite alter_alter_eq. apply alter_ext. intros o' _.
    cbn. apply map_eq. intros f. rewrite !clear_properties_lookup.
    case_decide as Hf; [done|].
    unfold diff_state_fields in Hf. rewrite !not_elem_of_cons in Hf.
    destruct Hf as (?&?&?&?&?&?&?&?&?&?&?&_). by rewrite !lookup_insert_ne.
Qed.

Lemma updateSelectionState_spec_witness :
  clearDiffState 1%positive
    (updateSelectionState 1%positive (str "selected text") 10 23
       {[1%positive := initialDiffState]})
  = clearDiffState 1%positive {[1%positive := initialDiffState]}.
Proof.
  apply (updateSelectionState_spec _ 1%positive initialDiffState).
  apply lookup_singleton_eq.
Defined.

(** [createInitialDiffState] returns a new object each time: the
    reference was not in use, the objects already there are untouched,
    and writing to the state made by one call does not show in the state
    made by another. *)
Theorem createInitialDiffState_fresh (h : store) :
  let (l1, h1) := createInitialDiffState h in
  let (l2, h2) := createInitialDiffState h1 in
  h !! l1 = None
  /\ h1 !! l1 = Some initialDiffState
  /\ (forall r, r <> l1 -> h1 !! r = h !! r)
  /\ l1 <> l2
  /\ forall text start end_,
       updateSelectionState l1 text start end_ h2 !! l2 = Some initialDiffState.
Proof.
  unfold createInitialDiffState.
  set (l1 := fresh (dom h)). set (h1 := <[l1 := initialDiffState]> h).
  set (l2 := fresh (dom h1)).
  assert (H1 : h !! l1 = None).
  { apply not_elem_of_dom. apply is_fresh. }
  assert (H2 : l1 <> l2).
  { intros Heq. pose proof (is_fresh (dom h1)) as Hfr. fold l2 in Hfr.
    rewrite <- Heq in Hfr. apply Hfr. unfold h1. set_solver. }
  split; [done|]. split; [by apply lookup_insert_eq|].
  split; [intros r Hr; by apply lookup_insert_ne|]. split; [done|].
  intros text start end_. unfold updateSelectionState.
  rewrite lookup_alter_ne by done. apply lookup_insert_eq.
Qed.

(** ** Token alignment of the word diff *)

Lemma side_tokens_app keep ps qs :
  side_tokens keep (ps ++ qs) = side_tokens keep ps ++ side_tokens keep qs.
Proof. unfold side_tokens. apply flat_map_app. Qed.

Lemma decode_tokens_app rm xs ys :
  decode_tokens rm (xs ++ ys) = decode_tokens rm xs ++ decode_tokens rm ys.
Proof. unfold decode_tokens. apply flat_map_app. Qed.

Lemma expand_chunk_tokens keep rm op chars :
  Forall (fun c => is_high_surrogate c = false) chars ->
  side_tokens keep
    (flat_map (fun char =>
          match JsMap.get rm char with
          | Some word => [Part.mk op word]
          | None => []
          end) (codePoints chars))
  = if keep op then decode_tokens rm chars else [].
Proof.
  intros Hc. rewrite (codePoints_no_high _ Hc). clear Hc.
  induction chars as [|c chars IH].
  - simpl. by destruct (keep op).
  - rewrite fmap_cons.
    change (flat_map ?f ([c] :: ?l)) with (f [c] ++ flat_map f l).
    rewrite side_tokens_app, IH.
    change (decode_tokens rm (c :: chars))
      with (match JsMap.get rm [c] with Some w => [w] | None => [] end
            ++ decode_tokens rm chars).
    unfold side_tokens.
    destruct (JsMap.get rm [c]) as [w|]; simpl; destruct (keep op);
      by rewrite ?app_nil_r.
Qed.

Lemma expandDiffs_tokens keep rm d :
  (forall op chars, (op, chars) ∈ d ->
     Forall (fun c => is_high_surrogate c = false) chars) ->
  side_tokens keep (expandDiffs rm d)
  = decode_tokens rm
      (flat_map (fun '(op, chars) => if keep op then chars else []) d).
Proof.
  induction d as [|[op chars] d IH]; intros Hd; [done|].
  rewrite expandDiffs_cons, side_tokens_app, IH, expand_chunk_tokens.
  - change (flat_map ?f ((op, chars) :: d))
      with ((if keep op then chars else []) ++ flat_map f d).
    rewrite decode_tokens_app. by destruct (keep op).
  - apply (Hd op). left.
  - intros op' chars' Hin. apply (Hd op'). by right.
Qed.

Lemma diff_text1_side d :
  flat_map (fun '(op, chars) => if original_side op then chars else []) d
  = diff_text1 d.
Proof.
  unfold diff_text1. induction d as [|[op chars] d IH]; [done|].
  simpl. rewrite IH. by destruct op.
Qed.

Lemma diff_text2_side d :
  flat_map (fun '(op, chars) => if proposed_side op then chars else []) d
  = diff_text2 d.
Proof.
  unfold diff_text2. induction d as [|[op chars] d IH]; [done|].
  simpl. rewrite IH. by destruct op.
Qed.

(** With at most 55040 distinct tokens a coded token list reads back as
    the very tokens. *)
Lemma decode_tokens_coded keys ts :
  NoDup keys -> N.of_nat (length keys) <= 55040 ->
  (forall t, t ∈ ts -> t ∈ keys) ->
  decode_tokens (buildReverseMap (assign_codes 256 keys))
                (flat_map (code_of (assign_codes 256 keys)) ts) = ts.
Proof.
  intros Hnd Hlen. induction ts as [|t ts IH]; intros Hts; [done|].
  assert (Ht : t ∈ keys) by (apply Hts; left).
  apply list_elem_of_lookup_1 in Ht as [i Hi].
  pose proof (lookup_lt_Some _ _ _ Hi) as Hlt.
  pose proof (code_of_index keys 256 i t Hnd Hi) as Hcode.
  unfold fromCharCode in Hcode. rewrite N.mod_small in Hcode by lia.
  simpl flat_map. rewrite Hcode, decode_tokens_app, IH
    by (intros t' Ht'; apply Hts; by right).
  unfold decode_tokens. simpl.
  rewrite (buildReverseMap_get _ t); [done| |].
  - apply assign_codes_values_NoDup. lia.
  - eapply list_elem_of_lookup_2. rewrite (assign_codes_lookup _ _ _ _ Hi).
    unfold fromCharCode. rewrite N.mod_small by lia. done.
Qed.

Section Alignment.
Context {dmp : DiffMatchPatch} {dmp_spec : DiffMatchPatchSpec dmp}.

(** The diff is made of whole tokens: for texts with at most 55040
    distinct tokens the result is the merge of a list of parts that each
    hold one token, where the Delete and Equal parts are the tokens of
    the original, in order, and the Insert and Equal parts are the
    tokens of the proposed text. *)
Theorem computeWordDiff_token_aligned (original proposed : jsstring) :
  N.of_nat (length (distinct_tokens original proposed)) <= 55040 ->
  exists items : list Part.t,
    computeWordDiff original proposed = mergeParts items
    /\ side_tokens original_side items = tokenize original
    /\ side_tokens proposed_side items = tokenize proposed.
Proof.
  intros Hlen. unfold computeWordDiff.
  destruct (encodeBoth_spec original proposed) as [Hnd ->].
  set (keys := distinct_tokens original proposed) in *.
  set (wm := assign_codes 256 keys).
  set (ca := flat_map (code_of wm) (tokenize original)).
  set (cb := flat_map (code_of wm) (tokenize proposed)).
  simpl wordMap.
  assert (Hka : forall t, t ∈ tokenize original -> t ∈ keys).
  { intros t Ht. apply first_seen_covers. left.
    apply first_seen_covers. by right. }
  assert (Hkb : forall t, t ∈ tokenize proposed -> t ∈ keys).
  { intros t Ht. apply first_seen_covers. by right. }
  destruct (decode_coded keys (tokenize original) Hnd Hlen Hka) as [_ Ha2].
  destruct (decode_coded keys (tokenize proposed) Hnd Hlen Hkb) as [_ Hb2].
  pose proof (decode_tokens_coded keys (tokenize original) Hnd Hlen Hka) as Ha1.
  pose proof (decode_tokens_coded keys (tokenize proposed) Hnd Hlen Hkb) as Hb1.
  fold wm in Ha1, Ha2, Hb1, Hb2. fold ca in Ha1, Ha2. fold cb in Hb1, Hb2.
  set (d := diff_cleanupSemantic (diff_main ca cb)).
  assert (Hd1 : diff_text1 d = ca)
    by (unfold d; by rewrite diff_cleanup_text1, diff_main_text1).
  assert (Hd2 : diff_text2 d = cb)
    by (unfold d; by rewrite diff_cleanup_text2, diff_main_text2).
  assert (Hchunks : forall op chars, (op, chars) ∈ d ->
            Forall (fun c => is_high_surrogate c = false) chars).
  { apply diff_chunk_units; by rewrite ?Hd1, ?Hd2. }
  exists (expandDiffs (buildReverseMap wm) d). split; [done|].
  rewrite !expandDiffs_tokens by done.
  by rewrite diff_text1_side, diff_text2_side, Hd1, Hd2.
Qed.

End Alignment.

Lemma computeWordDiff_token_aligned_witness :
  exists items : list Part.t,
    @computeWordDiff simple_dmp (str "hello world") (str "hello there")
    = mergeParts items
    /\ side_tokens original_side items = tokenize (str "hello world")
    /\ side_tokens proposed_side items = tokenize (str "hello there").
Proof.
  apply (@computeWordDiff_token_aligned simple_dmp simple_dmp_spec).
  vm_compute. discriminate.
Defined.
